(** * Auth-record resolution layer and capability patcher

    A shallow embedding of the invoices example app:
    - [lib/normalize-saleor-api-url.ts]   ([normalizeSaleorApiUrl]),
    - [lib/https-enforcing-apl.ts]        ([HttpsEnforcingAPL]),
    - [lib/bypass-signature-verification.ts] (the module-cache patcher).

    JavaScript strings are modelled as [string] (a sequence of character
    codes; only ASCII markers are ever inspected), promises as their
    settled outcome, and exceptions as an explicit error result. *)

From Stdlib Require Import Ascii String.
From stdpp Require Import base strings list gmap pretty.

Open Scope string_scope.
Open Scope list_scope.

(** ** JavaScript string primitives used by the sources *)

Module JsString.

(** [s.startsWith(p)] *)
Fixpoint startsWith (p s : string) : bool :=
  match p, s with
  | EmptyString, _ => true
  | String a p', String b s' => if Ascii.eqb a b then startsWith p' s' else false
  | String _ _, EmptyString => false
  end.

(** [s.slice(n)] *)
Fixpoint slice (n : nat) (s : string) : string :=
  match n, s with
  | O, _ => s
  | S n', String _ s' => slice n' s'
  | S _, EmptyString => EmptyString
  end.

(** [s.replace(pat, rep)] with a string pattern: only the first
    occurrence of [pat], searched from the left, is replaced.  The
    replacement strings used by the sources contain no [$] pattern. *)
Fixpoint replace (pat rep s : string) : string :=
  if startsWith pat s then rep +:+ slice (String.length pat) s
  else match s with
       | EmptyString => EmptyString
       | String c s' => String c (replace pat rep s')
       end.

(** [s.replace(/^pat/, rep)] for a literal [pat]: the anchor [^]
    (without the [m] flag) only matches at index 0. *)
Definition replaceAnchored (pat rep s : string) : string :=
  if startsWith pat s then rep +:+ slice (String.length pat) s else s.

(** [s.includes(sub)] *)
Fixpoint includes (sub s : string) : bool :=
  if startsWith sub s then true
  else match s with
       | EmptyString => false
       | String _ s' => includes sub s'
       end.

(** [s.toLowerCase()] on the ASCII letters. *)
Definition lowerAscii (c : ascii) : ascii :=
  let n := nat_of_ascii c in
  if (65 <=? n)%nat && (n <=? 90)%nat then ascii_of_nat (n + 32) else c.

Fixpoint toLowerCase (s : string) : string :=
  match s with
  | EmptyString => EmptyString
  | String c s' => String (lowerAscii c) (toLowerCase s')
  end.

(** [s.split(sep)] for a non-empty separator, scanning left to right.
    [skip] counts the characters of a matched separator still to be
    passed over; [cur] accumulates the current segment in reverse. *)
Fixpoint split_go (sep : string) (skip : nat) (cur : string) (s : string)
  : list string :=
  match s with
  | EmptyString => [String.rev cur]
  | String c s' =>
      match skip with
      | S k => split_go sep k cur s'
      | O =>
          if startsWith sep s
          then String.rev cur :: split_go sep (String.length sep - 1) EmptyString s'
          else split_go sep 0 (String c cur) s'
      end
  end.

Definition split (sep s : string) : list string := split_go sep 0 EmptyString s.

(** [arr.pop()] as used on a fresh array: the last element, if any. *)
Definition pop (l : list string) : option string := last l.

End JsString.

(** ** Data model *)

(** [AuthData] of the SDK, with the fields the sources and the test use. *)
Record AuthData := mkAuthData {
  appId : string;
  saleorApiUrl : string;
  token : string;
  jwks : string;
}.

#[global] Instance AuthData_eq_dec : EqDecision AuthData.
Proof. solve_decision. Defined.

Definition insecureMarker : string := "http://".
Definition secureMarker : string := "https://".

(** ** Identity canonicalizer *)

(** [normalizeSaleorApiUrl] of lib/normalize-saleor-api-url.ts *)
Definition normalizeSaleorApiUrl (saleorApiUrl : string) : string :=
  if JsString.startsWith "http://" saleorApiUrl
  then JsString.replace "http://" "https://" saleorApiUrl
  else saleorApiUrl.

(** The expression [url.replace(/^http:\/\//, "https://")] that
    [HttpsEnforcingAPL] uses in [enforceHttps], [get] and [delete]. *)
Definition toHttps (url : string) : string :=
  JsString.replaceAnchored "http://" "https://" url.

(** The expression [url.replace(/^https:\/\//, "http://")] of
    [HttpsEnforcingAPL.get]. *)
Definition toHttp (url : string) : string :=
  JsString.replaceAnchored "https://" "http://" url.

(** [HttpsEnforcingAPL.enforceHttps]: spread the record, overwrite the url. *)
Definition enforceHttps (authData : AuthData) : AuthData :=
  {| appId := appId authData;
     saleorApiUrl := toHttps (saleorApiUrl authData);
     token := token authData;
     jwks := jwks authData |}.

(** An identity is canonical, in the sense of a fixed point of the
    canonicalizer, when it does not begin with the insecure scheme marker.
    This is weaker than carrying the secure marker ([has_secure_scheme]
    below): an identity with another scheme, or with none, is canonical in
    this sense. *)
Definition is_canonical (url : string) : Prop :=
  JsString.startsWith insecureMarker url = false.

#[global] Instance is_canonical_dec url : Decision (is_canonical url).
Proof. unfold is_canonical. apply _. Defined.


(** The canonical form of the specification's glossary: the identity is
    prefixed with the secure scheme marker. *)
Definition has_secure_scheme (url : string) : Prop :=
  JsString.startsWith secureMarker url = true.

#[global] Instance has_secure_scheme_dec url : Decision (has_secure_scheme url).
Proof. unfold has_secure_scheme. apply _. Defined.

(** ** Effects: promise outcomes, backing-store calls, diagnostics *)

(** A thrown JavaScript value: an [Error] instance with its message, or
    any other value. *)
Inductive exn :=
  | JsError (message : string)
  | NonError (description : string).

(** The settled state of a promise (or the result of a call that may
    throw): fulfilled with a value or rejected with a reason. *)
Inductive outcome (A : Type) :=
  | Fulfilled (a : A)
  | Rejected (e : exn).
Arguments Fulfilled {A} a.
Arguments Rejected {A} e.

Definition is_fulfilled {A} (r : outcome A) : bool :=
  match r with Fulfilled _ => true | Rejected _ => false end.

(** Calls made on the backing store ([this.baseApl.*]). *)
Inductive call :=
  | CGet (url : string)
  | CSet (authData : AuthData)
  | CDelete (url : string)
  | CGetAll
  | CIsReady
  | CIsConfigured.

(** The adapter's interaction with the backing store, in program order:
    a call being issued, and the promise it returned settling. *)
Inductive event :=
  | Called (c : call)
  | Settled (c : call) (fulfilled : bool).

Definition is_called (e : event) : bool :=
  match e with Called _ => true | Settled _ _ => false end.

Inductive level := Debug | Info | Warn | Error.

#[global] Instance level_eq_dec : EqDecision level.
Proof. solve_decision. Defined.

(** Values of the named fields of a diagnostic event. *)
Inductive field :=
  | FStr (s : string)
  | FBool (b : bool)
  | FNum (n : nat)
  | FUndefined
  | FExn (e : exn)
  | FStrs (l : list (option string)).

(** Modelled from the spec: the diagnostic event sink behind
    [createLogger] of ../logger, which is not among the sources.  Section 6
    describes it as structured log events at severities debug, info, warn
    and error, each with a short message and a mapping of named fields;
    emitting an event appends it to the sink and cannot fail. *)
Record log_entry := mkLog {
  lg_logger : string;
  lg_level : level;
  lg_message : string;
  lg_fields : list (string * field);
}.


(** ** The backing store: the [APL] interface of the SDK

    The backing store is an external collaborator; the adapter is
    parametric in it.  A method of the store is a JavaScript function:
    called, it throws or returns a promise, which is later fulfilled or
    rejected; it may change the store's state [St].  [get], [set],
    [getAll] and the probes are called under [await] inside an [async]
    method, where a throw and a rejected promise have the same effect: both
    are [Rejected] here.  [delete] is called while an array is built, where
    the two differ: [apl_delete_throws url s] is the exception that the
    call [baseApl.delete(url)] made in state [s] throws instead of
    returning a promise, if it throws; [apl_delete] is what the promise it
    returns settles to.  The two probes are optional members. *)

Inductive AplReadyResult := Ready | NotReady (error : exn).
Inductive AplConfiguredResult := Configured | NotConfigured (error : exn).

Record APL (St : Type) := mkAPL {
  apl_get : string → St → outcome (option AuthData) * St;
  apl_set : AuthData → St → outcome unit * St;
  apl_delete : string → St → outcome unit * St;
  apl_delete_throws : string → St → option exn;
  apl_getAll : St → outcome (list AuthData) * St;
  apl_isReady : option (St → outcome AplReadyResult * St);
  apl_isConfigured : option (St → outcome AplConfiguredResult * St);
}.
Arguments apl_get {St} _ _ _.
Arguments apl_set {St} _ _ _.
Arguments apl_delete {St} _ _ _.
Arguments apl_delete_throws {St} _ _ _.
Arguments apl_getAll {St} _ _.
Arguments apl_isReady {St} _.
Arguments apl_isConfigured {St} _.

(** What an adapter operation runs in: the backing store's state, the
    calls made on it so far, and the diagnostics emitted so far. *)
Record world (St : Type) := mkWorld {
  store : St;
  trace : list event;
  logs : list log_entry;
}.
Arguments mkWorld {St} _ _ _.
Arguments store {St} _.
Arguments trace {St} _.
Arguments logs {St} _.

Definition init_world {St} (s : St) : world St := mkWorld s [] [].

(** An asynchronous computation of the adapter: state passing with
    rejection.  A rejected [await] leaves the function at once. *)
Definition Async (St A : Type) : Type := world St → outcome A * world St.

Definition async_ret {St A} (a : A) : Async St A := λ w, (Fulfilled a, w).

Definition async_bind {St A B} (m : Async St A) (k : A → Async St B) : Async St B :=
  λ w, match m w with
       | (Fulfilled a, w') => k a w'
       | (Rejected e, w') => (Rejected e, w')
       end.

#[global] Instance async_mret {St} : MRet (Async St) := @async_ret St.
#[global] Instance async_mbind {St} : MBind (Async St) :=
  λ A B k m, async_bind m k.

(** [await this.baseApl.op(...)]: the call is issued, its promise settles,
    and the store moves to its next state. *)
Definition await_base {St A} (c : call) (op : St → outcome A * St) : Async St A :=
  λ w, let '(r, s') := op (store w) in
       (r, mkWorld s' (trace w ++ [Called c; Settled c (is_fulfilled r)]) (logs w)).

Definition emit {St} (lv : level) (logger msg : string)
    (fields : list (string * field)) : Async St unit :=
  λ w, (Fulfilled tt, mkWorld (store w) (trace w) (logs w ++ [mkLog logger lv msg fields])).

(** ** Credential store adapter: [HttpsEnforcingAPL] *)

(** Which of the two promises handed to [Promise.allSettled] settles
    first; the runtime, not the adapter, decides. *)
Inductive settle_order := FirstSettlesFirst | SecondSettlesFirst.

Module HttpsEnforcingAPL.
Section Adapter.
Context {St : Type} (baseApl : APL St).

Definition loggerName : string := "HttpsEnforcingAPL".

Definition get (saleorApiUrl : string) : Async St (option AuthData) :=
  let httpsUrl := toHttps saleorApiUrl in
  let httpUrl := toHttp saleorApiUrl in
  authData ← await_base (CGet httpsUrl) (apl_get baseApl httpsUrl);
  authData ← match authData with
             | None => await_base (CGet httpUrl) (apl_get baseApl httpUrl)
             | Some _ => mret authData
             end;
  authData ← match authData with
             | None => await_base (CGet saleorApiUrl) (apl_get baseApl saleorApiUrl)
             | Some _ => mret authData
             end;
  let result := match authData with
                | Some a => Some (enforceHttps a)
                | None => None
                end in
  match result with
  | None => emit Warn loggerName "APL authentication data not found"
              [("requestedUrl", FStr saleorApiUrl)]
  | Some _ => mret tt
  end;;
  mret result.

Definition set (authData : AuthData) : Async St unit :=
  let stored := enforceHttps authData in
  await_base (CSet stored) (apl_set baseApl stored).

(** [delete]: the two backing-store calls are made, in this order, while
    the array handed to [Promise.allSettled] is built.  A call that throws
    ends the method there: the promise [delete] returned is rejected with
    the exception, and when it is the first call that throws the second is
    never made.  When both calls return a promise, both have been issued
    before either settles; [order] fixes which one takes effect and
    settles first; [allSettled] never rejects and its result is dropped.
    (A promise that the first call returned before the second call threw
    still settles, with nobody waiting for it.) *)
Definition delete (order : settle_order) (saleorApiUrl : string) : Async St unit :=
  let httpsUrl := toHttps saleorApiUrl in
  let c1 := CDelete httpsUrl in
  let c2 := CDelete saleorApiUrl in
  λ w,
    match apl_delete_throws baseApl httpsUrl (store w) with
    | Some e => (Rejected e, mkWorld (store w) (trace w ++ [Called c1]) (logs w))
    | None =>
        match apl_delete_throws baseApl saleorApiUrl (store w) with
        | Some e =>
            let '(r1, s1) := apl_delete baseApl httpsUrl (store w) in
            (Rejected e,
             mkWorld s1 (trace w ++ [Called c1; Called c2; Settled c1 (is_fulfilled r1)])
                     (logs w))
        | None =>
            let issued := trace w ++ [Called c1; Called c2] in
            match order with
            | FirstSettlesFirst =>
                let '(r1, s1) := apl_delete baseApl httpsUrl (store w) in
                let '(r2, s2) := apl_delete baseApl saleorApiUrl s1 in
                (Fulfilled tt,
                 mkWorld s2 (issued ++ [Settled c1 (is_fulfilled r1);
                                        Settled c2 (is_fulfilled r2)]) (logs w))
            | SecondSettlesFirst =>
                let '(r2, s1) := apl_delete baseApl saleorApiUrl (store w) in
                let '(r1, s2) := apl_delete baseApl httpsUrl s1 in
                (Fulfilled tt,
                 mkWorld s2 (issued ++ [Settled c2 (is_fulfilled r2);
                                        Settled c1 (is_fulfilled r1)]) (logs w))
            end
        end
    end.

Definition getAll : Async St (list AuthData) :=
  allAuthData ← await_base CGetAll (apl_getAll baseApl);
  mret (map (λ authData, enforceHttps authData) allAuthData).

Definition isReady : Async St AplReadyResult :=
  match apl_isReady baseApl with
  | Some probe => await_base CIsReady probe
  | None => mret Ready
  end.

Definition isConfigured : Async St AplConfiguredResult :=
  match apl_isConfigured baseApl with
  | Some probe => await_base CIsConfigured probe
  | None => mret Configured
  end.

(** The operations of the interface, and a client calling them in
    sequence (a failed call does not stop the client). *)
Inductive request :=
  | ReqGet (saleorApiUrl : string)
  | ReqSet (authData : AuthData)
  | ReqDelete (order : settle_order) (saleorApiUrl : string)
  | ReqGetAll
  | ReqIsReady
  | ReqIsConfigured.




End Adapter.
End HttpsEnforcingAPL.

(** ** Backing stores used to exercise the adapter *)

(** An in-memory store keyed by [saleorApiUrl]. *)
Definition mapAPL : APL (gmap string AuthData) :=
  {| apl_get := λ url m, (Fulfilled (m !! url), m);
     apl_set := λ a m, (Fulfilled tt, <[saleorApiUrl a := a]> m);
     apl_delete := λ url m, (Fulfilled tt, delete url m);
     apl_delete_throws := λ _ _, None;
     apl_getAll := λ m, (Fulfilled (snd <$> map_to_list m), m);
     apl_isReady := None;
     apl_isConfigured := None |}.

(** The mock of the test file: [get] answers from a script, one entry per
    call ([mockResolvedValueOnce]), then with [undefined]; the other
    methods are bare [vi.fn()]. *)
Definition mockAPL (all : list AuthData) : APL (list (outcome (option AuthData))) :=
  {| apl_get := λ _ script,
       match script with
       | r :: rest => (r, rest)
       | [] => (Fulfilled None, [])
       end;
     apl_set := λ _ script, (Fulfilled tt, script);
     apl_delete := λ _ script, (Fulfilled tt, script);
     apl_delete_throws := λ _ _, None;
     apl_getAll := λ script, (Fulfilled all, script);
     apl_isReady := Some (λ script, (Fulfilled Ready, script));
     apl_isConfigured := Some (λ script, (Fulfilled Configured, script)) |}.

(** A store whose [delete] always rejects. *)
Definition failingDeleteAPL : APL unit :=
  {| apl_get := λ _ s, (Fulfilled None, s);
     apl_set := λ _ s, (Fulfilled tt, s);
     apl_delete := λ _ s, (Rejected (JsError "delete failed"), s);
     apl_delete_throws := λ _ _, None;
     apl_getAll := λ s, (Fulfilled [], s);
     apl_isReady := None;
     apl_isConfigured := None |}.


Definition sampleAuthData : AuthData :=
  mkAuthData "test-app" "http://example.com/graphql/" "test-token" "test-jwks".

(** ** JavaScript values and objects, as far as the patcher touches them

    The patcher works on untyped values ([any]): the module cache, module
    records, export objects and the functions they hold.  Objects live in a
    heap and are referred to by location, so that two paths to the same
    object (an [exports.default] that is [exports] itself, two cache keys
    for one module) see each other's updates. *)

Module Js.

Abbreviation loc := nat (only parsing).

Inductive value :=
  | VUndefined
  | VNull
  | VBool (b : bool)
  | VNumber (n : Z)
  | VString (s : string)
  | VObject (l : loc).

(** What calling an object does: nothing (a plain object), a function
    of the loaded library (its behaviour is the library's), or the
    closure that [patchSignatureFunction] creates, which captures
    [functionName] and [modulePath]. *)
Inductive callable :=
  | NotCallable
  | LibraryFunction (name : string)
  | SignatureBypass (functionName modulePath : string).

(** An own enumerable property: a data property, writable or not, or an
    accessor with a getter (which returns or throws) and no setter. *)
Inductive property :=
  | DataProperty (v : value) (writable : bool)
  | AccessorProperty (getter : outcome value).

Record object := mkObject {
  obj_call : callable;
  obj_props : list (string * property);
}.

Abbreviation heap := (list object) (only parsing).

Fixpoint assoc {A} (k : string) (l : list (string * A)) : option A :=
  match l with
  | [] => None
  | (k', a) :: rest => if String.eqb k k' then Some a else assoc k rest
  end.

Fixpoint assoc_set {A} (k : string) (a : A) (l : list (string * A))
  : list (string * A) :=
  match l with
  | [] => [(k, a)]
  | (k', a') :: rest =>
      if String.eqb k k' then (k, a) :: rest else (k', a') :: assoc_set k a rest
  end.

(** [!!v] *)
Definition truthy (v : value) : bool :=
  match v with
  | VUndefined | VNull => false
  | VBool b => b
  | VNumber n => negb (n =? 0)%Z
  | VString s => negb (String.eqb s "")
  | VObject _ => true
  end.

(** [typeof v === 'function'] *)
Definition isFunction (h : heap) (v : value) : bool :=
  match v with
  | VObject l =>
      match h !! l with
      | Some o => match obj_call o with NotCallable => false | _ => true end
      | None => false
      end
  | _ => false
  end.

(** [typeof v === 'object'] (which also holds of [null]) *)
Definition isObjectType (h : heap) (v : value) : bool :=
  match v with
  | VNull => true
  | VObject l => negb (isFunction h v)
  | _ => false
  end.

(** [v[k]].  Reading a property of [undefined] or [null] throws; the
    primitives have none of the properties the patcher asks for. *)
Definition getProp (h : heap) (v : value) (k : string) : outcome value :=
  match v with
  | VUndefined | VNull =>
      Rejected (JsError ("Cannot read properties of undefined (reading '" +:+ k +:+ "')"))
  | VObject l =>
      match h !! l with
      | Some o =>
          match assoc k (obj_props o) with
          | Some (DataProperty x _) => Fulfilled x
          | Some (AccessorProperty g) => g
          | None => Fulfilled VUndefined
          end
      | None => Fulfilled VUndefined
      end
  | _ => Fulfilled VUndefined
  end.

(** [v[k] = x] in strict mode (module code): assigning to a read-only
    property, to an accessor without a setter or to a property of a
    primitive throws a TypeError. *)
Definition setProp (h : heap) (v : value) (k : string) (x : value) : outcome heap :=
  match v with
  | VObject l =>
      match h !! l with
      | Some o =>
          match assoc k (obj_props o) with
          | Some (DataProperty _ false) =>
              Rejected (JsError ("Cannot assign to read only property '" +:+ k +:+ "'"))
          | Some (AccessorProperty _) =>
              Rejected (JsError ("Cannot set property " +:+ k +:+ " which has only a getter"))
          | _ =>
              Fulfilled (<[l := mkObject (obj_call o)
                                  (assoc_set k (DataProperty x true) (obj_props o))]> h)
          end
      | None => Fulfilled h
      end
  | _ => Rejected (JsError ("Cannot set properties of a primitive (setting '" +:+ k +:+ "')"))
  end.

(** [Object.keys(v)]: own enumerable keys in order.  (The index keys of
    a string primitive hold one-character strings, never functions; they
    are left out.) *)
Definition objectKeys (h : heap) (v : value) : outcome (list string) :=
  match v with
  | VUndefined | VNull =>
      Rejected (JsError "Cannot convert undefined or null to object")
  | VObject l =>
      match h !! l with
      | Some o => Fulfilled (fst <$> obj_props o)
      | None => Fulfilled []
      end
  | _ => Fulfilled []
  end.

(** What a call [require(name)] that returns has done: the value the
    module exports, the objects that loading it created (none when the
    module had been loaded before), and the keys under which the loader
    registered module records in [require.cache]. *)
Record Loaded := mkLoaded {
  l_exports : value;
  l_objects : list object;
  l_registered : list (string * value);
}.

(** The CommonJS [require] function when the environment binds one: its
    [cache] property and what [require(name)] does in a given heap, throw
    or load.  The code of a module being loaded is taken to touch only the
    objects it creates itself. *)
Record Require := mkRequire {
  cache : value;
  load : string → heap → outcome Loaded;
}.

(** [require.cache[key] = module], done by the loader for a key the cache
    does not hold yet. *)
Definition registerModule (c : value) (h : heap) (entry : string * value) : heap :=
  match c with
  | VObject l =>
      match h !! l with
      | Some o =>
          match assoc (fst entry) (obj_props o) with
          | Some _ => h
          | None =>
              <[l := mkObject (obj_call o)
                       (assoc_set (fst entry) (DataProperty (snd entry) true)
                          (obj_props o))]> h
          end
      | None => h
      end
  | _ => h
  end.

(** The heap after a module has been loaded: its objects are allocated
    and its records registered. *)
Definition loadInto (c : value) (h : heap) (ld : Loaded) : heap :=
  foldl (registerModule c) (h ++ l_objects ld) (l_registered ld).

End Js.

(** ** Capability patcher: lib/bypass-signature-verification.ts *)

Module Bypass.
Import Js.

Definition loggerName : string := "SignatureVerificationBypass".

Inductive timer_task := DelayedPatching.

(** The process as the patcher sees and changes it. *)
Record pstate := mkPState {
  p_heap : heap;
  p_logs : list log_entry;
  p_timers : list (timer_task * nat);
}.

(** Synchronous code that may throw; effects made before a throw stay. *)
Definition Sync (A : Type) : Type := pstate → outcome A * pstate.

Definition sync_ret {A} (a : A) : Sync A := λ s, (Fulfilled a, s).
Definition sync_bind {A B} (m : Sync A) (k : A → Sync B) : Sync B :=
  λ s, match m s with
       | (Fulfilled a, s') => k a s'
       | (Rejected e, s') => (Rejected e, s')
       end.
#[global] Instance sync_mret : MRet Sync := @sync_ret.
#[global] Instance sync_mbind : MBind Sync := λ A B k m, sync_bind m k.

(** [try { body } catch (e) { handler }] *)
Definition try_catch {A} (body : Sync A) (handler : exn → Sync A) : Sync A :=
  λ s, match body s with
       | (Fulfilled a, s') => (Fulfilled a, s')
       | (Rejected e, s') => handler e s'
       end.

Definition throw {A} (e : exn) : Sync A := λ s, (Rejected e, s).

Definition lift {A} (r : outcome A) : Sync A := λ s, (r, s).

Definition log (lv : level) (msg : string) (fields : list (string * field)) : Sync unit :=
  λ s, (Fulfilled tt,
        mkPState (p_heap s) (p_logs s ++ [mkLog loggerName lv msg fields]) (p_timers s)).

Definition readProp (v : value) (k : string) : Sync value :=
  λ s, (getProp (p_heap s) v k, s).

Definition writeProp (v : value) (k : string) (x : value) : Sync unit :=
  λ s, match setProp (p_heap s) v k x with
       | Fulfilled h' => (Fulfilled tt, mkPState h' (p_logs s) (p_timers s))
       | Rejected e => (Rejected e, s)
       end.

Definition keysOf (v : value) : Sync (list string) :=
  λ s, (objectKeys (p_heap s) v, s).

Definition typeofFunction (v : value) : Sync bool :=
  λ s, (Fulfilled (isFunction (p_heap s) v), s).

Definition typeofObject (v : value) : Sync bool :=
  λ s, (Fulfilled (isObjectType (p_heap s) v), s).

Definition alloc (o : object) : Sync value :=
  λ s, (Fulfilled (VObject (length (p_heap s))),
        mkPState (p_heap s ++ [o]) (p_logs s) (p_timers s)).

Definition setTimeout (task : timer_task) (delay : nat) : Sync unit :=
  λ s, (Fulfilled tt, mkPState (p_heap s) (p_logs s) (p_timers s ++ [(task, delay)])).

(** [arr.forEach(f)] *)
Fixpoint forEach {A} (f : A → Sync unit) (l : list A) : Sync unit :=
  match l with
  | [] => mret tt
  | x :: rest => f x;; forEach f rest
  end.

(** [arr.forEach(f)] where [f] updates a counter of the enclosing scope. *)
Fixpoint forEachCounting {A} (f : nat → A → Sync nat) (count : nat) (l : list A)
  : Sync nat :=
  match l with
  | [] => mret count
  | x :: rest => count' ← f count x; forEachCounting f count' rest
  end.

(** [e instanceof Error ? e.message : 'Unknown error'] *)
Definition errorMessage (e : exn) : string :=
  match e with
  | JsError m => m
  | NonError _ => "Unknown error"
  end.

(** [modulePath.split('node_modules').pop()] *)
Definition lastSegment (modulePath : string) : option string :=
  JsString.pop (JsString.split "node_modules" modulePath).

Definition segmentField (modulePath : string) : field :=
  match lastSegment modulePath with
  | Some s => FStr s
  | None => FUndefined
  end.

(** The same inside a template literal. *)
Definition segmentText (modulePath : string) : string :=
  match lastSegment modulePath with
  | Some s => s
  | None => "undefined"
  end.

Definition verifyName : string := "verifySignatureWithJwks".

(** The body of the function that [patchSignatureFunction] installs. *)
Definition signatureBypass (functionName modulePath : string)
    (jwks signature rawBody : value) : Sync value :=
  log Warn "Bypassing JWKS signature verification for invoice webhook"
    [("reason", FStr "JWKS signature verification issue - needs investigation");
     ("hasJwks", FBool (truthy jwks));
     ("hasSignature", FBool (truthy signature));
     ("hasRawBody", FBool (truthy rawBody));
     ("patchedModule", segmentField modulePath);
     ("functionName", FStr functionName)];;
  mret VUndefined.

(** Calling a value with arguments: missing arguments are [undefined];
    the outcome is that of the promise the async function returns.
    [None] where the callee is not the installed override (a library
    function's behaviour is the library's; a non-function cannot be
    called). *)
Definition invoke (f : value) (args : list value) (s : pstate)
  : option (outcome value * pstate) :=
  match f with
  | VObject l =>
      match p_heap s !! l with
      | Some o =>
          match obj_call o with
          | SignatureBypass functionName modulePath =>
              Some (signatureBypass functionName modulePath
                      (nth 0 args VUndefined) (nth 1 args VUndefined)
                      (nth 2 args VUndefined) s)
          | _ => None
          end
      | None => None
      end
  | _ => None
  end.

Definition patchSignatureFunction (obj : value) (functionName modulePath : string)
  : Sync unit :=
  originalFunction ← readProp obj functionName;
  override ← alloc (mkObject (SignatureBypass functionName modulePath) []);
  writeProp obj functionName override;;
  log Info ("Successfully patched " +:+ functionName +:+ " in " +:+ segmentText modulePath) [].

(** The filter over the keys of the module cache. *)
Definition isSdkModule (key : string) : bool :=
  JsString.includes "@saleor/app-sdk" key &&
  (JsString.includes "chunk-SB7ROIUN" key
   || JsString.includes "handlers/next" key
   || JsString.includes "verify" key).

Definition looksLikeSignatureKey (key : string) : bool :=
  JsString.includes "verify" (JsString.toLowerCase key)
  || JsString.includes "signature" (JsString.toLowerCase key).

(** The callback of [sdkModules.forEach]; [patchedCount] is the counter
    it increments. *)
Definition scanModule (moduleCache : value) (patchedCount : nat) (modulePath : string)
  : Sync nat :=
  moduleObj ← readProp moduleCache modulePath;
  guard ← (if truthy moduleObj then readProp moduleObj "exports" else mret moduleObj);
  if truthy guard then
    exports ← readProp moduleObj "exports";
    direct ← readProp exports verifyName;
    patchedCount ←
      (if truthy direct then
         log Info "Found verifySignatureWithJwks in exports, patching..." [];;
         patchSignatureFunction exports verifyName modulePath;;
         mret (S patchedCount)
       else mret patchedCount);
    dflt ← readProp exports "default";
    viaDefault ←
      (if truthy dflt then
         d ← readProp exports "default"; readProp d verifyName
       else mret dflt);
    patchedCount ←
      (if truthy viaDefault then
         log Info "Found verifySignatureWithJwks in default export, patching..." [];;
         d ← readProp exports "default";
         patchSignatureFunction d verifyName (modulePath +:+ ".default");;
         mret (S patchedCount)
       else mret patchedCount);
    keys ← keysOf exports;
    forEach (λ key,
        x ← readProp exports key;
        isFn ← typeofFunction x;
        if isFn && looksLikeSignatureKey key then
          log Info ("Found potential signature function: " +:+ key +:+ " in "
                    +:+ segmentText modulePath) []
        else mret tt) keys;;
    mret patchedCount
  else mret patchedCount.

Section WithRequire.
(** [require] as bound in the environment, if it is. *)
Context (require : option Require).

Definition requireCache : Sync value :=
  match require with
  | Some r => mret (cache r)
  | None => throw (JsError "require is not defined")
  end.

Definition requireModule (moduleName : string) : Sync value :=
  match require with
  | Some r =>
      λ s, match load r moduleName (p_heap s) with
           | Fulfilled ld =>
               (Fulfilled (l_exports ld),
                mkPState (loadInto (cache r) (p_heap s) ld) (p_logs s) (p_timers s))
           | Rejected e => (Rejected e, s)
           end
  | None => throw (JsError "require is not defined")
  end.

(** The [sdkModules.forEach] loop of approach 1: the number of patches
    it counted. *)
Definition scanModules (moduleCache : value) (sdkModules : list string) : Sync nat :=
  forEachCounting (scanModule moduleCache) 0 sdkModules.

(** Approach 1, the body of the first [try], up to the end of the
    [forEach] loop: the value of [patchedCount] there. *)
Definition findAndPatch : Sync nat :=
  c ← requireCache;
  moduleCache ← (if truthy c then mret c else alloc (mkObject NotCallable []));
  allKeys ← keysOf moduleCache;
  let sdkModules := filter (λ key, isSdkModule key = true) allKeys in
  sizeKeys ← keysOf moduleCache;
  log Info "Found SDK modules in cache"
    [("modules", FStrs (map lastSegment sdkModules));
     ("cacheSize", FNum (length sizeKeys))];;
  scanModules moduleCache sdkModules.

(** Approach 1, the whole body of the first [try]. *)
Definition scanCache : Sync unit :=
  patchedCount ← findAndPatch;
  if (0 <? patchedCount)%nat then
    log Info ("Successfully patched " +:+ pretty patchedCount
              +:+ " signature verification functions") []
  else
    log Warn "No signature verification functions found to patch" [].

Definition moduleNames : list string :=
  ["@saleor/app-sdk/handlers/next"; "@saleor/app-sdk"].

(** What approach 2 does with a module it has loaded. *)
Definition inspectLoadedModule (moduleName : string) (module : value) : Sync unit :=
  isObj ← typeofObject module;
  if truthy module && isObj then
    keys ← keysOf module;
    forEach (λ key,
        if JsString.includes "verify" (JsString.toLowerCase key) then
          x ← readProp module key;
          isFn ← typeofFunction x;
          if (isFn : bool) then
            log Info ("Found verify function in " +:+ moduleName +:+ ": "
                      +:+ key) []
          else mret tt
        else mret tt) keys
  else mret tt.

(** The callback of [moduleNames.forEach], with its [try] and its empty
    [catch]. *)
Definition inspectNamedModule (moduleName : string) : Sync unit :=
  try_catch
    (module ← requireModule moduleName;
     inspectLoadedModule moduleName module)
    (λ e, mret tt).

(** Approach 2, the body of the second [try]. *)
Definition inspectNamedModules : Sync unit :=
  forEach inspectNamedModule moduleNames.

(** Approach 1 with its [catch]. *)
Definition cacheApproach : Sync unit :=
  try_catch scanCache
    (λ e, log Debug "Module cache patching failed" [("error", FStr (errorMessage e))]).

(** Approach 2 with its [catch]. *)
Definition namedApproach : Sync unit :=
  try_catch inspectNamedModules
    (λ e, log Debug "Direct module patching failed" [("error", FStr (errorMessage e))]).

Definition patchLoadedModules : Sync unit :=
  cacheApproach;;
  namedApproach.

(** The callback handed to [setTimeout]. *)
Definition runTimer (task : timer_task) : Sync unit :=
  match task with
  | DelayedPatching =>
      try_catch patchLoadedModules
        (λ e, log Debug "Delayed patching failed" [("error", FStr (errorMessage e))])
  end.

Definition bypassSignatureVerification : Sync unit :=
  try_catch
    (log Info "Attempting signature verification bypass for SDK v0.50.1" [];;
     setTimeout DelayedPatching 100;;
     patchLoadedModules;;
     log Info "Signature verification bypass setup completed" [])
    (λ error,
       log Error "Failed to bypass signature verification"
         [("error", FExn error); ("errorMessage", FStr (errorMessage error))]).

End WithRequire.

(** The timers fire after the installing code has returned, against
    whatever [require] is bound to by then. *)
Fixpoint fireTimers (require : option Require) (tasks : list (timer_task * nat))
  : Sync unit :=
  match tasks with
  | [] => mret tt
  | (task, _) :: rest =>
      runTimer require task;;
      fireTimers require rest
  end.

Definition initial (h : heap) : pstate := mkPState h [] [].

End Bypass.

(** ** Observations on the patcher *)

Module BypassSpec.
Import Js Bypass.

(** [v] is a function installed by [patchSignatureFunction]. *)
Definition isBypass (h : heap) (v : value) : bool :=
  match v with
  | VObject l =>
      match h !! l with
      | Some o => match obj_call o with SignatureBypass _ _ => true | _ => false end
      | None => false
      end
  | _ => false
  end.

(** [obj.verifySignatureWithJwks] holds something truthy: what the
    patcher's [if] tests before it patches. *)
Definition found (h : heap) (obj : value) : Prop :=
  ∃ v, getProp h obj verifyName = Fulfilled v ∧ truthy v = true.

(** [obj.verifySignatureWithJwks] is an installed override. *)
Definition bypassedAt (h : heap) (obj : value) : Prop :=
  ∃ l, getProp h obj verifyName = Fulfilled (VObject l) ∧ isBypass h (VObject l) = true.

(** [v] is an override that was created for the verification function,
    as the patcher creates them. *)
Definition isInstalled (h : heap) (v : value) : bool :=
  match v with
  | VObject l =>
      match h !! l with
      | Some o =>
          match obj_call o with
          | SignatureBypass functionName _ => String.eqb functionName verifyName
          | _ => false
          end
      | None => false
      end
  | _ => false
  end.

(** [obj.verifySignatureWithJwks] is such an override. *)
Definition installedAt (h : heap) (obj : value) : Prop :=
  ∃ l, getProp h obj verifyName = Fulfilled (VObject l) ∧ isInstalled h (VObject l) = true.

(** [exports] is the export object of the module cached under
    [modulePath]. *)
Definition exportsOf (h : heap) (moduleCache : value) (modulePath : string)
    (exports : value) : Prop :=
  ∃ moduleObj,
    getProp h moduleCache modulePath = Fulfilled moduleObj ∧ truthy moduleObj = true ∧
    getProp h moduleObj "exports" = Fulfilled exports ∧ truthy exports = true.

(** [dflt] is the [default] member of [exports]. *)
Definition defaultOf (h : heap) (exports dflt : value) : Prop :=
  getProp h exports "default" = Fulfilled dflt ∧ truthy dflt = true.

(** An ordinary registry: every property of every object is a writable
    data property (no throwing getters, nothing frozen). *)
Definition plainProperty (p : property) : bool :=
  match p with
  | DataProperty _ true => true
  | _ => false
  end.
Definition plainObject (o : object) : bool :=
  forallb (λ kp, plainProperty (snd kp)) (obj_props o).
Definition plainHeap (h : heap) : bool := forallb plainObject h.

(** The installed function does not look at its arguments: any two
    argument lists give the same behaviour. *)
Definition ignores_arguments (f : value) (s : pstate) : Prop :=
  ∀ args args', invoke f args s = invoke f args' s.

(** After a patch attempt, [exports.verifySignatureWithJwks] is an
    installed override that does not look at its arguments. *)
Definition override_ignores_arguments (require : option Require) (s : pstate)
    (exports : value) : Prop :=
  let s' := snd (patchLoadedModules require s) in
  ∃ f, getProp (p_heap s') exports verifyName = Fulfilled f ∧
       isBypass (p_heap s') f = true ∧
       ignores_arguments f s'.

(** The patcher's promise for one module, were the override blind to
    its arguments: where the module cached under an SDK path exports the
    verification function, a patch attempt leaves an override there that
    does not look at its arguments. *)
Definition replaces_and_ignores (r : Require) (s : pstate) (modulePath : string)
    (exports : value) : Prop :=
  isSdkModule modulePath = true →
  exportsOf (p_heap s) (cache r) modulePath exports →
  found (p_heap s) exports →
  override_ignores_arguments (Some r) s exports.



(** The overrides present in a heap. *)
Definition isBypassObject (o : object) : bool :=
  match obj_call o with SignatureBypass _ _ => true | _ => false end.
Definition overrides (h : heap) : list object :=
  filter (λ o, isBypassObject o = true) h.



(** [m] only inspects: whether it returns or throws, it leaves the heap
    and the timers alone and emits nothing but info-level diagnostics. *)
Definition inspects_only {A} (m : Sync A) : Prop :=
  ∀ s, p_heap (snd (m s)) = p_heap s ∧
       p_timers (snd (m s)) = p_timers s ∧
       ∃ ls, p_logs (snd (m s)) = p_logs s ++ ls ∧
             Forall (λ l, lg_level l = Info) ls.

(** [m] leaves the timers alone and emits only diagnostics that satisfy
    [P], whether it returns or throws. *)
Definition emits_only (P : log_entry → Prop) {A} (m : Sync A) : Prop :=
  ∀ s, p_timers (snd (m s)) = p_timers s ∧
       ∃ ls, p_logs (snd (m s)) = p_logs s ++ ls ∧ Forall P ls.

(** The one diagnostic of approach 2. *)
Definition found_verify_entry (l : log_entry) : Prop :=
  ∃ moduleName key,
    l = mkLog loggerName Info
          ("Found verify function in " +:+ moduleName +:+ ": " +:+ key) [].

(** The heap after the two [require] calls of approach 2, made in [h]. *)
Definition afterRequires (require : option Require) (h : heap) : heap :=
  p_heap (snd (requireModule require "@saleor/app-sdk"
                 (snd (requireModule require "@saleor/app-sdk/handlers/next"
                         (initial h))))).

(** [m] changes heaps only within [R], whether it returns or throws. *)
Definition heap_within (R : heap → heap → Prop) {A} (m : Sync A) : Prop :=
  ∀ s, R (p_heap s) (p_heap (snd (m s))).

(** [m] started in [s] returns normally, in a state and with a value
    satisfying [Q]. *)
Definition runs {A} (m : Sync A) (s : pstate) (Q : A → pstate → Prop) : Prop :=
  ∃ a s', m s = (Fulfilled a, s') ∧ Q a s'.

(** How the patcher may change a heap: objects are only added; an
    existing object keeps what calling it does and every property but
    [verifySignatureWithJwks], which is either kept or now holds an
    installed override. *)
Definition evolves (h h' : heap) : Prop :=
  plainHeap h' = true ∧
  ∀ l o, h !! l = Some o →
    ∃ o', h' !! l = Some o' ∧ obj_call o' = obj_call o ∧
          (∀ k, k ≠ verifyName → assoc k (obj_props o') = assoc k (obj_props o)) ∧
          (assoc verifyName (obj_props o') = assoc verifyName (obj_props o) ∨
           ∃ l', assoc verifyName (obj_props o') = Some (DataProperty (VObject l') true) ∧
                 isBypass h' (VObject l') = true).

(** The same for any registry, ordinary or not. *)
Definition patched_only (h h' : heap) : Prop :=
  ∀ l o, h !! l = Some o →
    ∃ o', h' !! l = Some o' ∧ obj_call o' = obj_call o ∧
          (∀ k, k ≠ verifyName → assoc k (obj_props o') = assoc k (obj_props o)) ∧
          (assoc verifyName (obj_props o') = assoc verifyName (obj_props o) ∨
           ∃ l', assoc verifyName (obj_props o') = Some (DataProperty (VObject l') true) ∧
                 isInstalled h' (VObject l') = true).

(** How a whole pass may change a heap, [require] included: objects are
    only added; an existing object keeps what calling it does and every
    property it has, but for a [verifySignatureWithJwks] member, which is
    either kept or now holds an installed override. *)
Definition grows (h h' : heap) : Prop :=
  ∀ l o, h !! l = Some o →
    ∃ o', h' !! l = Some o' ∧ obj_call o' = obj_call o ∧
          (∀ k p, k ≠ verifyName → assoc k (obj_props o) = Some p →
                  assoc k (obj_props o') = Some p) ∧
          (∀ p, assoc verifyName (obj_props o) = Some p →
                assoc verifyName (obj_props o') = Some p ∨
                ∃ l', assoc verifyName (obj_props o') = Some (DataProperty (VObject l') true) ∧
                      isInstalled h' (VObject l') = true).

(** What a pass owes the module cached under [modulePath]: where its
    export object, or the [default] member of it, held the verification
    function in [h], it holds an installed override in [h']. *)
Definition patched_where_found (h h' : heap) (moduleCache : value)
    (modulePath : string) : Prop :=
  ∀ exports,
    exportsOf h moduleCache modulePath exports →
    (found h exports → bypassedAt h' exports) ∧
    (∀ dflt, defaultOf h exports dflt → found h dflt → bypassedAt h' dflt).

(** The same with the overrides told apart from other functions of the
    same kind: what the pass installs was created for the verification
    function. *)
Definition installed_where_found (h h' : heap) (moduleCache : value)
    (modulePath : string) : Prop :=
  ∀ exports,
    exportsOf h moduleCache modulePath exports →
    (found h exports → installedAt h' exports) ∧
    (∀ dflt, defaultOf h exports dflt → found h dflt → installedAt h' dflt).

(** Calling [f] succeeds for every argument list: the promise is
    fulfilled with [undefined], and the only effect is one warning, whose
    fields record which arguments were truthy and the [functionName] and
    [modulePath] that the override was created with. *)
Definition resolves_for_all_arguments (functionName modulePath : string) (f : value)
    (s : pstate) : Prop :=
  ∀ args,
    invoke f args s =
      Some (Fulfilled VUndefined,
            mkPState (p_heap s)
              (p_logs s ++
               [mkLog loggerName Warn
                  "Bypassing JWKS signature verification for invoice webhook"
                  [("reason", FStr "JWKS signature verification issue - needs investigation");
                   ("hasJwks", FBool (truthy (nth 0 args VUndefined)));
                   ("hasSignature", FBool (truthy (nth 1 args VUndefined)));
                   ("hasRawBody", FBool (truthy (nth 2 args VUndefined)));
                   ("patchedModule", segmentField modulePath);
                   ("functionName", FStr functionName)]])
              (p_timers s)).

(** A module cache as the SDK leaves it: one chunk whose export object
    holds the verification function, also reachable as its own
    [default]; a second key outside the SDK. *)
Definition sampleHeap : heap :=
  [ mkObject NotCallable
      [("/app/node_modules/@saleor/app-sdk/chunk-SB7ROIUN.js", DataProperty (VObject 1) true);
       ("/app/node_modules/next/dist/server.js", DataProperty (VObject 4) true)];
    mkObject NotCallable [("exports", DataProperty (VObject 2) true)];
    mkObject NotCallable
      [("verifySignatureWithJwks", DataProperty (VObject 3) true);
       ("helper", DataProperty (VNumber 1) true)];
    mkObject (LibraryFunction "verifySignatureWithJwks") [];
    mkObject NotCallable [("exports", DataProperty (VObject 5) true)];
    mkObject NotCallable [] ].

Definition sampleRequireFn : Require :=
  mkRequire (VObject 0) (λ _ _, Rejected (JsError "Cannot find module")).
Definition sampleRequire : option Require := Some sampleRequireFn.
Definition samplePath : string :=
  "/app/node_modules/@saleor/app-sdk/chunk-SB7ROIUN.js".

(** The same cache when the chunk's export is read-only, as a bundler
    that freezes its export bindings leaves it. *)
Definition readOnlyHeap : heap :=
  [ mkObject NotCallable
      [("/app/node_modules/@saleor/app-sdk/chunk-SB7ROIUN.js", DataProperty (VObject 1) true)];
    mkObject NotCallable [("exports", DataProperty (VObject 2) true)];
    mkObject NotCallable
      [("verifySignatureWithJwks", DataProperty (VObject 3) false)];
    mkObject (LibraryFunction "verifySignatureWithJwks") [] ].

(** An environment with an empty module cache in which the SDK cannot
    be loaded by name. *)
Definition emptyRequire : option Require :=
  Some (mkRequire VUndefined (λ _ _, Rejected (JsError "Cannot find module"))).

(** An environment in which the SDK has not been loaded yet: the module
    cache holds one module outside the SDK, and [require] of the SDK's
    main module loads two files, the entry point and the chunk it
    re-exports from, each with a module record and an export object that
    holds the verification function.  The handlers entry point cannot be
    resolved. *)
Definition unloadedHeap : heap :=
  [ mkObject NotCallable
      [("/app/node_modules/next/dist/server.js", DataProperty (VObject 1) true)];
    mkObject NotCallable [("exports", DataProperty (VObject 2) true)];
    mkObject NotCallable [] ].

Definition sdkMainPath : string := "/app/node_modules/@saleor/app-sdk/index.js".

Definition loadingRequireFn : Require :=
  mkRequire (VObject 0)
    (λ name h,
       if negb (String.eqb name "@saleor/app-sdk") then
         Rejected (JsError "Cannot find module")
       else
         match getProp h (VObject 0) sdkMainPath with
         | Fulfilled (VObject record) =>
             match getProp h (VObject record) "exports" with
             | Fulfilled exports => Fulfilled (mkLoaded exports [] [])
             | Rejected e => Rejected e
             end
         | _ =>
             let m := length h in
             Fulfilled
               (mkLoaded (VObject (1 + m))
                  [ mkObject NotCallable [("exports", DataProperty (VObject (1 + m)) true)];
                    mkObject NotCallable
                      [("verifySignatureWithJwks", DataProperty (VObject (4 + m)) true)];
                    mkObject NotCallable [("exports", DataProperty (VObject (3 + m)) true)];
                    mkObject NotCallable
                      [("verifySignatureWithJwks", DataProperty (VObject (4 + m)) true)];
                    mkObject (LibraryFunction "verifySignatureWithJwks") [] ]
                  [(sdkMainPath, VObject m); (samplePath, VObject (2 + m))])
         end).

(** A module record whose export object has a throwing getter. *)
Definition getterHeap : heap :=
  [ mkObject NotCallable [];
    mkObject NotCallable
      [("verifyToken", AccessorProperty (Rejected (JsError "getter failed")))] ].

Definition getterRequire : option Require :=
  Some (mkRequire (VObject 0) (λ _ _, Fulfilled (mkLoaded (VObject 1) [] []))).

End BypassSpec.

(** ** Observations on a run *)

(** What a run from [w] to [w'] added to the call trace and to the
    diagnostics. *)
Definition new_events {St} (w w' : world St) : list event :=
  drop (length (trace w)) (trace w').

(** The identities read, the records written and the identities deleted on
    the backing store, in the order the calls were issued. *)
Definition queries (evs : list event) : list string :=
  omap (λ e, match e with Called (CGet url) => Some url | _ => None end) evs.
Definition writes (evs : list event) : list AuthData :=
  omap (λ e, match e with Called (CSet a) => Some a | _ => None end) evs.
Definition deletes (evs : list event) : list string :=
  omap (λ e, match e with Called (CDelete url) => Some url | _ => None end) evs.

(** The backing-store contract the round trip relies on: a record whose
    write was acknowledged is what a read of its identity then finds. *)
Definition read_your_writes {St} (baseApl : APL St) : Prop :=
  ∀ (a : AuthData) (s : St),
    fst (apl_set baseApl a s) = Fulfilled tt →
    fst (apl_get baseApl (saleorApiUrl a) (snd (apl_set baseApl a s)))
      = Fulfilled (Some a).




(** ** Backing stores that behave like key-value stores *)

(** Reading has no side effect on the store. *)
Definition reads_stable {St} (baseApl : APL St) : Prop :=
  ∀ (k : string) (s : St), snd (apl_get baseApl k s) = s.

(** A key-value store: reads have no side effect, a call of [delete]
    returns a promise, a deleted key is absent afterwards, and deleting one
    key leaves what the others hold. *)
Definition kv_store {St} (baseApl : APL St) : Prop :=
  reads_stable baseApl ∧
  (∀ k s, apl_delete_throws baseApl k s = None) ∧
  (∀ k s, fst (apl_get baseApl k (snd (apl_delete baseApl k s))) = Fulfilled None) ∧
  (∀ k k' s, k ≠ k' →
     fst (apl_get baseApl k (snd (apl_delete baseApl k' s))) = fst (apl_get baseApl k s)).

(** What [get] owes its caller when reads have no side effect: the
    outcome of looking up the canonical form and then the insecure form in
    the state the call started in. *)
Definition lookup_two_forms {St} (baseApl : APL St) (u : string) (s : St)
  : outcome (option AuthData) :=
  match fst (apl_get baseApl (toHttps u) s) with
  | Fulfilled (Some a) => Fulfilled (Some (enforceHttps a))
  | Rejected e => Rejected e
  | Fulfilled None =>
      match fst (apl_get baseApl (toHttp u) s) with
      | Fulfilled (Some a) => Fulfilled (Some (enforceHttps a))
      | Rejected e => Rejected e
      | Fulfilled None => Fulfilled None
      end
  end.


(** ** Choice of the backing store: saleor-app.ts *)

Module SaleorApp.

(** Which SDK store the [switch] constructs, with the constructor's
    arguments.  The constructors themselves are the SDK's. *)
Inductive BaseAplChoice :=
  | UpstashAPL
  | FileAPL
  | SaleorCloudAPL (resourceUrl token : string).

(** [!process.env.X]: unset, or set to the empty string. *)
Definition envMissing (v : option string) : bool :=
  match v with
  | None => true
  | Some s => String.eqb s ""
  end.

(** The module's top-level code up to [new HttpsEnforcingAPL(baseApl)],
    over the process environment [env]. *)
Definition selectBaseApl (env : string → option string) : outcome BaseAplChoice :=
  let aplType := match env "APL" with Some v => v | None => "file" end in
  if String.eqb aplType "upstash" then Fulfilled UpstashAPL
  else if String.eqb aplType "file" then Fulfilled FileAPL
  else if String.eqb aplType "rest" then
    if envMissing (env "REST_APL_ENDPOINT") || envMissing (env "REST_APL_TOKEN")
    then Rejected (JsError
           "Rest APL is not configured - missing env variables. Check saleor-app.ts")
    else
      match env "REST_APL_ENDPOINT", env "REST_APL_TOKEN" with
      | Some resourceUrl, Some token => Fulfilled (SaleorCloudAPL resourceUrl token)
      | _, _ => Rejected (JsError
                  "Rest APL is not configured - missing env variables. Check saleor-app.ts")
      end
  else Rejected (JsError "Invalid APL config, ").

Definition REQUIRED_SALEOR_VERSION : string := ">=3.10 <4".

End SaleorApp.

(** ** More observations on the patcher *)

Module BypassMore.
Import Js Bypass BypassSpec.

(** [m] leaves the scheduled timers alone, whether it returns or throws. *)
Definition keeps_timers {A} (m : Sync A) : Prop :=
  ∀ s, p_timers (snd (m s)) = p_timers s.

(** [m], when it returns, has created exactly [k] overrides. *)
Definition creates {A} (k : nat) (m : Sync A) : Prop :=
  ∀ s a s', m s = (Fulfilled a, s') →
    length (overrides (p_heap s')) = (length (overrides (p_heap s)) + k)%nat.

(** [m] continues a count that stood at [n]: when it returns [n'], it has
    created [n' - n] overrides. *)
Definition counts (n : nat) (m : Sync nat) : Prop :=
  ∀ s n' s', m s = (Fulfilled n', s') →
    (length (overrides (p_heap s')) + n = length (overrides (p_heap s)) + n')%nat.

(** The diagnostic that closes a completed cache scan which counted
    [n] patches. *)
Definition scanSummary (n : nat) : log_entry :=
  if (0 <? n)%nat then
    mkLog loggerName Info
      ("Successfully patched " +:+ pretty n +:+ " signature verification functions") []
  else
    mkLog loggerName Warn "No signature verification functions found to patch" [].

End BypassMore.

(** ** The webhook handlers: pages/api/webhooks

    The three handlers answer an "invoice requested" notification.  They
    share everything from the generation of the invoice name onwards.  The
    invoice modules, the GraphQL client and the configuration service they
    call are not among the sources; the handlers are modelled parametric in
    them. *)

Module Webhook.

(** The fields of the stored record, under names that the handlers'
    local [saleorApiUrl] does not hide. *)
Abbreviation recordAppId := appId (only parsing).
Abbreviation recordSaleorApiUrl := saleorApiUrl (only parsing).
Abbreviation recordToken := token (only parsing).

(** JSON data as [JSON.parse] or the body parser delivers it.  Numbers
    only matter through being zero or not; members of an object are
    taken to have distinct keys. *)
#[warnings="-register-all"]
Inductive json :=
  | JNull
  | JBool (b : bool)
  | JNumber (n : Z)
  | JString (s : string)
  | JArray (items : list json)
  | JObject (members : list (string * json)).

(** A value of type [any] that came out of JSON data: [None] is
    [undefined]. *)
Abbreviation any := (option json) (only parsing).

(** [!!v] *)
Definition jtruthy (v : any) : bool :=
  match v with
  | None | Some JNull => false
  | Some (JBool b) => b
  | Some (JNumber n) => negb (n =? 0)%Z
  | Some (JString s) => negb (String.eqb s "")
  | Some (JArray _) | Some (JObject _) => true
  end.

(** The member [k] of [v] where [v] is not nullish: objects hold their
    members; the other values have none of the members the handlers ask
    for. *)
Definition lookupMember (v : any) (k : string) : any :=
  match v with
  | Some (JObject members) => Js.assoc k members
  | _ => None
  end.

(** [v.k]: throws on [undefined] and [null]. *)
Definition member (v : any) (k : string) : outcome any :=
  match v with
  | None =>
      Rejected (JsError ("Cannot read properties of undefined (reading '" +:+ k +:+ "')"))
  | Some JNull =>
      Rejected (JsError ("Cannot read properties of null (reading '" +:+ k +:+ "')"))
  | _ => Fulfilled (lookupMember v k)
  end.

(** [v?.k] *)
Definition optMember (v : any) (k : string) : any :=
  match v with
  | None | Some JNull => None
  | _ => lookupMember v k
  end.

(** A request header as Node hands it over: absent, one value, or
    several. *)
Inductive header :=
  | HAbsent
  | HOne (s : string)
  | HMany (l : list string).

(** [!!h] *)
Definition headerTruthy (h : header) : bool :=
  match h with
  | HAbsent => false
  | HOne s => negb (String.eqb s "")
  | HMany _ => true
  end.

(** [normalizeSaleorApiUrl(h as string)]: the type assertion does nothing
    at run time, so a header that is not a single string reaches
    [startsWith] as it is. *)
Definition normalizeHeader (h : header) : outcome string :=
  match h with
  | HOne s => Fulfilled (normalizeSaleorApiUrl s)
  | HAbsent =>
      Rejected (JsError "Cannot read properties of undefined (reading 'startsWith')")
  | HMany _ => Rejected (JsError "saleorApiUrl.startsWith is not a function")
  end.

Record request := mkRequest {
  method : option string;
  saleorApiUrlHeader : header;
  contentType : header;
  body : any;
}.

(** A request whose body has not been parsed (the no-verify handler
    switches the body parser off).  [saleorEvent] is the [event] that the
    SDK's [getSaleorHeaders] extracts; [rawBody] is how [getRawBody]
    settles. *)
Record rawRequest := mkRawRequest {
  raw_method : option string;
  raw_saleorApiUrlHeader : header;
  raw_saleorEvent : option string;
  raw_forwardedProto : header;
  raw_host : header;
  raw_contentLength : header;
  raw_body : outcome string;
}.

(** A header inside a template literal. *)
Definition headerText (h : header) : string :=
  match h with
  | HAbsent => "undefined"
  | HOne s => s
  | HMany l => String.concat "," l
  end.

(** Values in a response body and in the handlers' diagnostics. *)
Inductive rvalue :=
  | RStr (s : string)
  | RBool (b : bool)
  | RAny (v : any)
  | RHeader (h : header)
  | ROptStr (m : option string)
  | RNum (n : nat)
  | RExn (e : exn)
  | RStackOf (e : exn)
  | ROpaque.

(** [res.status(code).json(body)] *)
Record response := mkResponse {
  status : nat;
  json_body : list (string * rvalue);
}.

Record hlog := mkHLog {
  hl_logger : string;
  hl_level : level;
  hl_message : string;
  hl_fields : list (string * rvalue);
}.

(** The calls the handlers make on the invoice modules, with the
    arguments that matter downstream. *)
Inductive step :=
  | SGenerateName
  | SCreateClient (saleorApiUrl token : string)
  | SHashFilename (invoiceName : string)
  | SResolveTempLocation (fileName : string)
  | SGetConfiguration (saleorApiUrl : string)
  | SFetchShopInfo
  | SGeneratePdf (invoiceNumber filename : string)
  | SUpload (filePath fileName : string)
  | SNotify (invoiceName uploadedFileUrl : string).

(** The place of a call in the delivery pipeline. *)
Definition step_rank (st : step) : nat :=
  match st with
  | SGenerateName => 0
  | SCreateClient _ _ => 1
  | SHashFilename _ => 2
  | SResolveTempLocation _ => 3
  | SGetConfiguration _ => 4
  | SFetchShopInfo => 5
  | SGeneratePdf _ _ => 6
  | SUpload _ _ => 7
  | SNotify _ _ => 8
  end.

(** The collaborators, over their own state [C]: each call returns or
    throws (or, where asynchronous, fulfils or rejects) and may change that
    state.  [getChannelsOverrides cfg slug] stands for
    [cfg.getChannelsOverrides()[slug]]; [fetchShopAddress] for
    [new ShopInfoFetcher(client).fetchShopInfo().then(shopInfoQueryToAddressShape)],
    which yields an address or [null]. *)
Record Collaborators (C Client Config Address : Type) := mkCollaborators {
  generateFromOrder : any → C → outcome string * C;
  createGraphQLClient : string → string → C → outcome Client * C;
  hashInvoiceFilename : string → any → C → outcome string * C;
  resolveTempPdfFileLocation : string → C → outcome string * C;
  getConfiguration : string → Client → C → outcome (option Config) * C;
  newAppConfigV2 : Config;
  getChannelsOverrides : Config → any → option Address;
  fetchShopAddress : Client → C → outcome (option Address) * C;
  generate : any → string → string → Address → C → outcome unit * C;
  upload : Client → string → string → C → outcome string * C;
  notifyInvoiceCreated : Client → any → string → string → C → outcome unit * C;
}.
Arguments generateFromOrder {C Client Config Address} _ _ _.
Arguments createGraphQLClient {C Client Config Address} _ _ _ _.
Arguments hashInvoiceFilename {C Client Config Address} _ _ _ _.
Arguments resolveTempPdfFileLocation {C Client Config Address} _ _ _.
Arguments getConfiguration {C Client Config Address} _ _ _ _.
Arguments newAppConfigV2 {C Client Config Address} _.
Arguments getChannelsOverrides {C Client Config Address} _ _ _.
Arguments fetchShopAddress {C Client Config Address} _ _ _.
Arguments generate {C Client Config Address} _ _ _ _ _ _.
Arguments upload {C Client Config Address} _ _ _ _ _.
Arguments notifyInvoiceCreated {C Client Config Address} _ _ _ _ _ _.

(** What a handler runs in: the credential store behind the adapter, the
    collaborators' state, the calls made on them and the diagnostics. *)
Record hstate (St C : Type) := mkHState {
  h_apl : world St;
  h_ext : C;
  h_steps : list step;
  h_logs : list hlog;
}.
Arguments mkHState {St C} _ _ _ _.
Arguments h_apl {St C} _.
Arguments h_ext {St C} _.
Arguments h_steps {St C} _.
Arguments h_logs {St C} _.

Definition Handler (St C A : Type) : Type := hstate St C → outcome A * hstate St C.

Definition handler_ret {St C A} (a : A) : Handler St C A := λ s, (Fulfilled a, s).
Definition handler_bind {St C A B} (m : Handler St C A) (k : A → Handler St C B)
  : Handler St C B :=
  λ s, match m s with
       | (Fulfilled a, s') => k a s'
       | (Rejected e, s') => (Rejected e, s')
       end.
#[global] Instance handler_mret {St C} : MRet (Handler St C) := @handler_ret St C.
#[global] Instance handler_mbind {St C} : MBind (Handler St C) :=
  λ A B k m, handler_bind m k.

(** [try { body } catch (error) { handler }] *)
Definition tryCatch {St C A} (body : Handler St C A) (handler : exn → Handler St C A)
  : Handler St C A :=
  λ s, match body s with
       | (Fulfilled a, s') => (Fulfilled a, s')
       | (Rejected e, s') => handler e s'
       end.

Definition liftOutcome {St C A} (r : outcome A) : Handler St C A := λ s, (r, s).

Definition logAs {St C} (logger : string) (lv : level) (msg : string)
    (fields : list (string * rvalue)) : Handler St C unit :=
  λ s, (Fulfilled tt,
        mkHState (h_apl s) (h_ext s) (h_steps s) (h_logs s ++ [mkHLog logger lv msg fields])).

Definition respond {St C} (code : nat) (fields : list (string * rvalue))
  : Handler St C response :=
  mret (mkResponse code fields).

(** A call on a collaborator: recorded, then run. *)
Definition callExt {St C A} (st : step) (op : C → outcome A * C) : Handler St C A :=
  λ s, let '(r, c') := op (h_ext s) in
       (r, mkHState (h_apl s) c' (h_steps s ++ [st]) (h_logs s)).

(** [e instanceof Error ? e.message : 'Unknown error'] *)
Definition errorMessage (e : exn) : string :=
  match e with
  | JsError m => m
  | NonError _ => "Unknown error"
  end.

Section Handlers.
Context {St C Client Config Address : Type}.
Context (baseApl : APL St) (ext : Collaborators C Client Config Address).

(** [await saleorApp.apl.get(saleorApiUrl)], the store being the
    [HttpsEnforcingAPL] around [baseApl]. *)
Definition aplGet (saleorApiUrl : string) : Handler St C (option AuthData) :=
  λ s, let '(r, w') := HttpsEnforcingAPL.get baseApl saleorApiUrl (h_apl s) in
       (r, mkHState w' (h_ext s) (h_steps s) (h_logs s)).

(** From the generation of the invoice name to the final response: the
    part the three handlers have in common.  [logger] is the handler's
    logger and [notified] its last message. *)
Definition generateAndDeliver (logger notified : string) (order orderId : any)
    (saleorApiUrl : string) (authData : AuthData) : Handler St C response :=
  invoiceName ← callExt SGenerateName (generateFromOrder ext order);
  logAs logger Debug "Generated invoice name" [("invoiceName", RStr invoiceName)];;
  client ← callExt (SCreateClient saleorApiUrl (recordToken authData))
             (createGraphQLClient ext saleorApiUrl (recordToken authData));
  hashedInvoiceName ← callExt (SHashFilename invoiceName)
                        (hashInvoiceFilename ext invoiceName orderId);
  let hashedInvoiceFileName := hashedInvoiceName +:+ ".pdf" in
  tempPdfLocation ← callExt (SResolveTempLocation hashedInvoiceFileName)
                      (resolveTempPdfFileLocation ext hashedInvoiceFileName);
  logAs logger Debug "Resolved PDF location" [("tempPdfLocation", RStr tempPdfLocation)];;
  configured ← callExt (SGetConfiguration saleorApiUrl)
                 (getConfiguration ext saleorApiUrl client);
  let appConfigV2 := match configured with
                     | Some cfg => cfg
                     | None => newAppConfigV2 ext
                     end in
  channel ← liftOutcome (member order "channel");
  slug ← liftOutcome (member channel "slug");
  address ← match getChannelsOverrides ext appConfigV2 slug with
            | Some a => mret (Some a)
            | None => callExt SFetchShopInfo (fetchShopAddress ext client)
            end;
  match address with
  | None =>
      logAs logger Warn "App not configured - no address found" [];;
      respond 200 [("message", RStr "App not configured")]
  | Some address =>
      channel' ← liftOutcome (member order "channel");
      slug' ← liftOutcome (member channel' "slug");
      channel'' ← liftOutcome (member order "channel");
      slug'' ← liftOutcome (member channel'' "slug");
      logAs logger Debug "Using address configuration"
        [("hasChannelOverride",
          RBool (match getChannelsOverrides ext appConfigV2 slug' with
                 | Some _ => true
                 | None => false
                 end));
         ("channelSlug", RAny slug'')];;
      callExt (SGeneratePdf invoiceName tempPdfLocation)
        (generate ext order invoiceName tempPdfLocation address);;
      logAs logger Info "Invoice PDF generated successfully" [];;
      uploadedFileUrl ← callExt (SUpload tempPdfLocation (invoiceName +:+ ".pdf"))
                          (upload ext client tempPdfLocation (invoiceName +:+ ".pdf"));
      logAs logger Info "Invoice uploaded to storage"
        [("uploadedFileUrl", RStr uploadedFileUrl)];;
      callExt (SNotify invoiceName uploadedFileUrl)
        (notifyInvoiceCreated ext client orderId invoiceName uploadedFileUrl);;
      logAs logger Info notified [];;
      respond 200 [("success", RBool true);
                   ("invoiceName", RStr invoiceName);
                   ("uploadedFileUrl", RStr uploadedFileUrl)]
  end.

(** The [catch] clause of the direct and the requested handler. *)
Definition internalError (logger failed : string) (error : exn)
  : Handler St C response :=
  logAs logger Error failed
    [("error", RStr (errorMessage error)); ("stack", RStackOf error)];;
  respond 500 [("error", RStr "Internal server error");
               ("message", RStr (errorMessage error))].

(** [invoiceDirectHandler] of invoice-direct.ts *)
Definition invoiceDirectHandler (req : request) : Handler St C response :=
  let logger := "InvoiceDirectWebhook" in
  tryCatch
    (logAs logger Info "Processing invoice webhook directly" [];;
     if negb (bool_decide (method req = Some "POST")) then
       respond 405 [("error", RStr "Method not allowed")]
     else
       saleorApiUrl ← liftOutcome (normalizeHeader (saleorApiUrlHeader req));
       if String.eqb saleorApiUrl "" then
         logAs logger Error "Missing Saleor API URL header" [];;
         respond 400 [("error", RStr "Missing Saleor API URL")]
       else
         let payload := body req in
         let order := optMember (optMember payload "event") "order" in
         noOrder ← (if jtruthy order then
                      id ← liftOutcome (member order "id"); mret (negb (jtruthy id))
                    else mret true);
         if (noOrder : bool) then
           logAs logger Error "Invalid payload - missing order" [("payload", RAny payload)];;
           respond 400 [("error", RStr "Invalid payload - missing order")]
         else
           orderId ← liftOutcome (member order "id");
           orderNumber ← liftOutcome (member order "number");
           logAs logger Info "Received invoice request"
             [("orderId", RAny orderId); ("orderNumber", RAny orderNumber);
              ("saleorApiUrl", RStr saleorApiUrl)];;
           authData ← aplGet saleorApiUrl;
           match authData with
           | None =>
               logAs logger Error "App not registered" [("saleorApiUrl", RStr saleorApiUrl)];;
               respond 401 [("error", RStr "App not registered")]
           | Some authData =>
               generateAndDeliver logger "Saleor notified of invoice creation"
                 order orderId saleorApiUrl authData
           end)
    (internalError logger "Direct invoice processing error").

(** [invoiceRequestedHandler] of invoice-requested.ts *)
Definition invoiceRequestedHandler (req : request) : Handler St C response :=
  let logger := "InvoiceRequestedWebhook" in
  tryCatch
    (logAs logger Info "Processing invoice webhook without verification" [];;
     if negb (bool_decide (method req = Some "POST")) then
       respond 405 [("error", RStr "Method not allowed")]
     else
       saleorApiUrl ← liftOutcome (normalizeHeader (saleorApiUrlHeader req));
       if String.eqb saleorApiUrl "" then
         logAs logger Error "Missing Saleor API URL header" [];;
         respond 400 [("error", RStr "Missing Saleor API URL")]
       else
         logAs logger Debug "Headers extracted"
           [("saleorApiUrl", RStr saleorApiUrl);
            ("contentType", RHeader (contentType req));
            ("hasBody", RBool (jtruthy (body req)))];;
         let payload := body req in
         if negb (jtruthy payload) then
           logAs logger Error "Invalid payload structure" [("payload", RAny payload)];;
           respond 400 [("error", RStr "Invalid payload")]
         else
           event ← liftOutcome (member payload "event");
           order ← (if jtruthy (optMember event "order") then mret (optMember event "order")
                    else liftOutcome (member payload "order"));
           noOrder ← (if jtruthy order then
                        id ← liftOutcome (member order "id"); mret (negb (jtruthy id))
                      else mret true);
           if (noOrder : bool) then
             logAs logger Error "Invalid payload - missing order"
               [("payload", RAny payload)];;
             respond 400 [("error", RStr "Invalid payload - missing order")]
           else
             orderId ← liftOutcome (member order "id");
             orderNumber ← liftOutcome (member order "number");
             logAs logger Info "Received invoice request"
               [("orderId", RAny orderId); ("orderNumber", RAny orderNumber);
                ("saleorApiUrl", RStr saleorApiUrl)];;
             authData ← aplGet saleorApiUrl;
             match authData with
             | None =>
                 logAs logger Error "App not registered for this Saleor instance"
                   [("saleorApiUrl", RStr saleorApiUrl)];;
                 respond 401 [("error", RStr "App not registered")]
             | Some authData =>
                 logAs logger Info "Authentication successful"
                   [("appId", RStr (recordAppId authData));
                    ("saleorApiUrl", RStr (recordSaleorApiUrl authData))];;
                 generateAndDeliver logger "Saleor notified of invoice creation - Success"
                   order orderId saleorApiUrl authData
             end)
    (internalError logger "Invoice webhook processing error").

(** [invoiceRequestedNoVerify] of invoice-requested-no-verify.ts;
    [parse] is [JSON.parse]. *)
Definition invoiceRequestedNoVerify (parse : string → outcome json) (req : rawRequest)
  : Handler St C response :=
  let logger := "InvoiceRequestedNoVerifyWebhook" in
  tryCatch
    (logAs logger Info "Processing webhook without signature verification" [];;
     if negb (bool_decide (raw_method req = Some "POST")) then
       logAs logger Warn "Invalid request method" [("method", ROptStr (raw_method req))];;
       respond 405 [("error", RStr "Method not allowed")]
     else
       let event := raw_saleorEvent req in
       saleorApiUrl ← liftOutcome (normalizeHeader (raw_saleorApiUrlHeader req));
       let baseUrl :=
         (if headerTruthy (raw_forwardedProto req)
          then headerText (raw_forwardedProto req) else "http")
         +:+ "://" +:+ headerText (raw_host req) in
       logAs logger Debug "Webhook headers extracted"
         [("event", ROptStr event); ("baseUrl", RStr baseUrl);
          ("saleorApiUrl", RStr saleorApiUrl);
          ("hasContentLength", RBool (headerTruthy (raw_contentLength req)))];;
       if negb (bool_decide (event = Some "invoice_requested")) then
         logAs logger Warn "Wrong event type"
           [("receivedEvent", ROptStr event); ("expectedEvent", RStr "invoice_requested")];;
         respond 400 [("error", RStr "Wrong event type")]
       else
         rawBody ← liftOutcome (raw_body req);
         logAs logger Debug "Raw body received"
           [("bodyLength", RNum (String.length rawBody));
            ("bodyPreview", RStr (String.substring 0 100 rawBody +:+ "..."))];;
         match parse rawBody with
         | Rejected parseError =>
             logAs logger Error "Failed to parse webhook payload"
               [("error", RExn parseError)];;
             respond 400 [("error", RStr "Invalid JSON payload")]
         | Fulfilled parsed =>
             let payload : any := Some parsed in
             event' ← liftOutcome (member payload "event");
             missing ← (if jtruthy event' then mret false
                        else o ← liftOutcome (member payload "order");
                             mret (negb (jtruthy o)));
             if (missing : bool) then
               logAs logger Error "Missing order data in payload"
                 [("payload", RAny payload)];;
               respond 400 [("error", RStr "Missing order data")]
             else
               authData ← aplGet saleorApiUrl;
               match authData with
               | None =>
                   logAs logger Error "App not registered for this Saleor instance"
                     [("saleorApiUrl", RStr saleorApiUrl)];;
                   respond 401 [("error", RStr "App not registered")]
               | Some authData =>
                   logAs logger Info "Authentication successful"
                     [("appId", RStr (recordAppId authData));
                      ("saleorApiUrl", RStr (recordSaleorApiUrl authData))];;
                   event'' ← liftOutcome (member payload "event");
                   order ← (if jtruthy (optMember event'' "order")
                            then mret (optMember event'' "order")
                            else liftOutcome (member payload "order"));
                   orderId ← liftOutcome (member order "id");
                   orderNumber ← liftOutcome (member order "number");
                   event3 ← liftOutcome (member payload "event");
                   let viaEvent := optMember (optMember event3 "invoice") "id" in
                   invoiceId ← (if jtruthy viaEvent then mret viaEvent
                                else invoice ← liftOutcome (member payload "invoice");
                                     mret (optMember invoice "id"));
                   logAs logger Info "Processing invoice request"
                     [("orderId", RAny orderId); ("orderNumber", RAny orderNumber);
                      ("invoiceId", RAny invoiceId)];;
                   generateAndDeliver logger "Saleor notified of invoice creation - Success"
                     order orderId saleorApiUrl authData
               end
         end)
    (λ error,
       logAs logger Error "Webhook processing error"
         [("error", RExn error); ("stack", RStackOf error)];;
       respond 500 [("error", RStr "Internal server error");
                    ("message", RStr (errorMessage error))]).

End Handlers.

(** What a run added to the calls on the collaborators and on the
    store. *)
Definition new_steps {St C} (s s' : hstate St C) : list step :=
  drop (length (h_steps s)) (h_steps s').
Definition store_events {St C} (s s' : hstate St C) : list event :=
  new_events (h_apl s) (h_apl s').

(** [payload] is a notification in the older format,
    [{ event: { order, ... }, ... }], whose order has a truthy [id]. *)
Definition carries_order (payload : any) (order : json) : Prop :=
  ∃ members event,
    payload = Some (JObject members) ∧
    Js.assoc "event" members = Some event ∧
    lookupMember (Some event) "order" = Some order ∧
    jtruthy (lookupMember (Some order) "id") = true.

(** [payload] is a notification in the newer format,
    [{ order, ... }]: it holds no truthy order under [event] (it may have
    no [event] member at all), and its top-level order has a truthy
    [id]. *)
Definition carries_order_at_top (payload : any) (order : json) : Prop :=
  ∃ members,
    payload = Some (JObject members) ∧
    jtruthy (optMember (Js.assoc "event" members) "order") = false ∧
    Js.assoc "order" members = Some order ∧
    jtruthy (lookupMember (Some order) "id") = true.


(** Between [s] and [s'] the store was left alone or asked once, by the
    adapter's [get] on the canonical form of the identity header [hd]. *)
Definition one_lookup {St C} (baseApl : APL St) (hd : header) (s s' : hstate St C)
    : Prop :=
  h_apl s' = h_apl s ∨
  ∃ h, hd = HOne h ∧
       h_apl s' = snd (HttpsEnforcingAPL.get baseApl (normalizeSaleorApiUrl h) (h_apl s)).

(** The statuses the handlers answer with. *)
Definition handlerStatuses : list nat := [200; 400; 401; 405; 500]%nat.

(** The two orders in which a complete delivery calls the collaborators:
    with and without the shop-info lookup. *)
Definition fullPipeline : list nat := [0; 1; 2; 3; 4; 5; 6; 7; 8]%nat.
Definition pipelineWithOverride : list nat := [0; 1; 2; 3; 4; 6; 7; 8]%nat.

(** Collaborators for trying the handlers out: everything succeeds; the
    configuration has no channel override; the shop has an address or
    not. *)
Definition easyCollaborators (shopAddress : option string)
  : Collaborators unit (string * string) unit string :=
  {| generateFromOrder := λ _ c, (Fulfilled "INV-1", c);
     createGraphQLClient := λ url tok c, (Fulfilled (url, tok), c);
     hashInvoiceFilename := λ name _ c, (Fulfilled (name +:+ "_hash"), c);
     resolveTempPdfFileLocation := λ file c, (Fulfilled ("/tmp/" +:+ file), c);
     getConfiguration := λ _ _ c, (Fulfilled None, c);
     newAppConfigV2 := tt;
     getChannelsOverrides := λ _ _, None;
     fetchShopAddress := λ _ c, (Fulfilled shopAddress, c);
     generate := λ _ _ _ _ c, (Fulfilled tt, c);
     upload := λ _ _ name c, (Fulfilled ("https://files/" +:+ name), c);
     notifyInvoiceCreated := λ _ _ _ _ c, (Fulfilled tt, c) |}.




Definition sampleOrder : json :=
  JObject [("id", JString "T3JkZXI6MQ=="); ("number", JString "1");
           ("channel", JObject [("slug", JString "default-channel")])].

Definition startState {St} (store : St) : hstate St unit :=
  mkHState (init_world store) tt [] [].



End Webhook.

(** Case analysis on everything a handler run branches on: the outcome
    of each call, each test, each lookup. *)
Ltac handler_split :=
  repeat (match goal with
          | |- context [match ?x with (_, _) => _ end] =>
              lazymatch x with
              | context [match _ with (_, _) => _ end] => fail
              | _ => destruct x as [[?|?] ?] eqn:?
              end
          | |- context [match ?x with Fulfilled _ => _ | Rejected _ => _ end] =>
              destruct x as [?|?] eqn:?
          | |- context [match ?x with Some _ => _ | None => _ end] =>
              destruct x as [?|] eqn:?
          | |- context [if ?x then _ else _] =>
              destruct x eqn:?
          end; simpl).

Ltac handler_unfold :=
  unfold Webhook.tryCatch, Webhook.internalError, Webhook.generateAndDeliver,
    Webhook.aplGet, Webhook.callExt, Webhook.logAs, Webhook.liftOutcome, Webhook.respond,
    mbind, Webhook.handler_mbind, Webhook.handler_bind,
    mret, Webhook.handler_mret, Webhook.handler_ret;
  simpl.

Ltac prefix_unfold :=
  unfold Webhook.invoiceDirectHandler, Webhook.invoiceRequestedHandler,
    Webhook.invoiceRequestedNoVerify,
    Webhook.tryCatch, Webhook.internalError,
    Webhook.aplGet, Webhook.logAs, Webhook.liftOutcome, Webhook.respond,
    mbind, Webhook.handler_mbind, Webhook.handler_bind,
    mret, Webhook.handler_mret, Webhook.handler_ret;
  simpl.

(** Closing steps for the cases of a handler run. *)
Ltac steps_normal :=
  unfold Webhook.new_steps, Webhook.store_events, new_events; simpl;
  rewrite <- ?app_assoc; rewrite ?drop_app_length, ?drop_all; simpl.

Ltac pick_prefix :=
  first [ exists 0%nat; by (left + right) | exists 1%nat; by (left + right)
        | exists 2%nat; by (left + right) | exists 3%nat; by (left + right)
        | exists 4%nat; by (left + right) | exists 5%nat; by (left + right)
        | exists 6%nat; by (left + right) | exists 7%nat; by (left + right)
        | exists 8%nat; by (left + right) | exists 9%nat; by (left + right) ].

Ltac member_cases H :=
  repeat (apply elem_of_cons in H as [H|H]; [by simplify_eq|]);
  by apply elem_of_nil in H.

(** A status is one of the listed ones. *)
Ltac status_listed :=
  unfold Webhook.handlerStatuses; simpl; rewrite !elem_of_cons; auto 10.

(** Case analysis on what the hypotheses about a run still branch on, and
    the states they determine substituted. *)
Ltac hyps_normal :=
  repeat match goal with
         | H : match ?a with Some _ => _ | None => _ end _ = _ |- _ =>
             destruct a eqn:?; simpl in H
         | H : (if ?b then _ else _) _ = _ |- _ => destruct b eqn:?; simpl in H
         | H : match ?x with Fulfilled _ => _ | Rejected _ => _ end = _ |- _ =>
             destruct x eqn:?; simpl in H
         | H : (Rejected _, _) = (Fulfilled _, _) |- _ => discriminate H
         | H : (Fulfilled _, _) = (Rejected _, _) |- _ => discriminate H
         | H : (_, _) = (_, ?h) |- _ =>
             is_var h; apply pair_equal_spec in H; destruct H as [? <-]
         end.

(** One case of a handler run: the response and its status.  [tail_status]
    is the status of a response of the delivery part. *)
Ltac answer_case tail_status :=
  repeat match goal with
         | H : match ?a with Some _ => _ | None => _ end _ = _ |- _ =>
             destruct a; simpl in H
         | H : (if ?b then _ else _) _ = _ |- _ => destruct b; simpl in H
         | H : match ?x with Fulfilled _ => _ | Rejected _ => _ end = _ |- _ =>
             destruct x; simpl in H
         | H : (Rejected _, _) = (Fulfilled _, _) |- _ => discriminate H
         end;
  (eexists; split; [reflexivity|]);
  first [ by status_listed
        | by (erewrite tail_status by eassumption; status_listed)
        | match goal with
          | H : (_, _) = (Fulfilled _, _) |- _ =>
              revert H; intros [= <- _]; by status_listed
          end ].



(** One case of a handler run: what happened to the store.  [tail_apl]
    says that the delivery part leaves it alone. *)
Ltac lookup_case tail_apl header_inv :=
  hyps_normal; simpl;
  repeat match goal with
         | H : Webhook.generateAndDeliver _ _ _ _ _ _ _ _ = _ |- _ =>
             apply tail_apl in H; simpl in H; rewrite ?H
         end;
  first [ by left
        | right;
          match goal with
          | H : Webhook.normalizeHeader _ = Fulfilled _ |- _ =>
              destruct (header_inv _ _ H) as (h' & ? & ->)
          end;
          eexists; split; [eassumption|];
          match goal with
          | H : HttpsEnforcingAPL.get _ _ _ = _ |- _ =>
              exact (eq_sym (f_equal snd H))
          end ].

(** * Properties *)

(** ** String primitives *)

Section JsStringFacts.
Import JsString.

Lemma app_cons (c : ascii) (p t : string) : String c p +:+ t = String c (p +:+ t).
Proof. reflexivity. Qed.

Lemma app_nil (t : string) : "" +:+ t = t.
Proof. reflexivity. Qed.

Lemma startsWith_app (p t : string) : startsWith p (p +:+ t) = true.
Proof.
  induction p as [|c p IH]; [done|].
  rewrite app_cons. simpl. by rewrite Ascii.eqb_refl.
Qed.

Lemma slice_app (p t : string) : slice (String.length p) (p +:+ t) = t.
Proof.
  induction p as [|c p IH]; [by rewrite app_nil|].
  rewrite app_cons. simpl. exact IH.
Qed.

Lemma startsWith_inv (p s : string) :
  startsWith p s = true → s = p +:+ slice (String.length p) s.
Proof.
  revert s. induction p as [|c p IH]; intros s H; simpl in *.
  - by destruct s.
  - destruct s as [|d s]; [done|].
    destruct (Ascii.eqb c d) eqn:E; [|done].
    apply Ascii.eqb_eq in E. subst d. rewrite app_cons. f_equal. by apply IH.
Qed.

Lemma startsWith_iff (p s : string) :
  startsWith p s = true ↔ ∃ rest, s = p +:+ rest.
Proof.
  split.
  - intros H. eexists. by apply startsWith_inv.
  - intros [rest ->]. apply startsWith_app.
Qed.

Lemma replace_at_start (pat rep s : string) :
  startsWith pat s = true →
  replace pat rep s = rep +:+ slice (String.length pat) s.
Proof. intros H. destruct s; simpl; by rewrite H. Qed.

Lemma replaceAnchored_hit (pat rep rest : string) :
  replaceAnchored pat rep (pat +:+ rest) = rep +:+ rest.
Proof. unfold replaceAnchored. by rewrite startsWith_app, slice_app. Qed.

Lemma replaceAnchored_miss (pat rep s : string) :
  startsWith pat s = false → replaceAnchored pat rep s = s.
Proof. unfold replaceAnchored. by intros ->. Qed.

End JsStringFacts.

(** ** Canonicalizer *)

Lemma secure_not_insecure (rest : string) :
  JsString.startsWith insecureMarker (secureMarker +:+ rest) = false.
Proof. reflexivity. Qed.

Lemma toHttps_normalize (u : string) : toHttps u = normalizeSaleorApiUrl u.
Proof.
  unfold toHttps, normalizeSaleorApiUrl, JsString.replaceAnchored.
  destruct (JsString.startsWith "http://" u) eqn:E; [|done].
  by rewrite replace_at_start.
Qed.

Lemma toHttps_insecure (rest : string) :
  toHttps (insecureMarker +:+ rest) = secureMarker +:+ rest.
Proof. apply replaceAnchored_hit. Qed.

Lemma toHttps_canonical (u : string) : is_canonical u → toHttps u = u.
Proof. apply replaceAnchored_miss. Qed.

Lemma toHttps_is_canonical (u : string) : is_canonical (toHttps u).
Proof.
  unfold is_canonical.
  destruct (JsString.startsWith insecureMarker u) eqn:E.
  - apply startsWith_inv in E. rewrite E, toHttps_insecure. apply secure_not_insecure.
  - by rewrite toHttps_canonical.
Qed.

Lemma toHttps_idempotent (u : string) : toHttps (toHttps u) = toHttps u.
Proof. apply toHttps_canonical, toHttps_is_canonical. Qed.

Lemma toHttps_secure (rest : string) : toHttps (secureMarker +:+ rest) = secureMarker +:+ rest.
Proof. apply toHttps_canonical, secure_not_insecure. Qed.

Lemma enforceHttps_idempotent (a : AuthData) : enforceHttps (enforceHttps a) = enforceHttps a.
Proof. unfold enforceHttps; simpl. by rewrite toHttps_idempotent. Qed.

Lemma insecure_not_secure (rest : string) :
  JsString.startsWith "https://" ("http://" +:+ rest) = false.
Proof. reflexivity. Qed.

Lemma toHttp_secure (rest : string) : toHttp ("https://" +:+ rest) = "http://" +:+ rest.
Proof. apply replaceAnchored_hit. Qed.

Lemma toHttp_other (u : string) :
  JsString.startsWith "https://" u = false → toHttp u = u.
Proof. apply replaceAnchored_miss. Qed.

Lemma toHttp_insecure (rest : string) : toHttp ("http://" +:+ rest) = "http://" +:+ rest.
Proof. apply toHttp_other, insecure_not_secure. Qed.

(** C2. The canonicalizer is a prefix rewrite: an identity that begins
    with the insecure marker has exactly that marker replaced by the secure
    one, every character after it kept; any other identity is returned
    unchanged.  This holds of [normalizeSaleorApiUrl] and of the rewrite
    inside [enforceHttps], which compute the same function. *)
Theorem canonicalize_prefix_rewrite (u : string) (a : AuthData) :
  (∀ rest, u = "http://" +:+ rest →
     normalizeSaleorApiUrl u = "https://" +:+ rest) ∧
  (JsString.startsWith "http://" u = false → normalizeSaleorApiUrl u = u) ∧
  saleorApiUrl (enforceHttps a) = normalizeSaleorApiUrl (saleorApiUrl a).
Proof.
  split_and!.
  - intros rest ->. rewrite <- toHttps_normalize. apply toHttps_insecure.
  - intros H. rewrite <- toHttps_normalize. by apply toHttps_canonical.
  - apply toHttps_normalize.
Qed.

Lemma canonicalize_prefix_rewrite_witness :
  normalizeSaleorApiUrl "http://example.com/graphql/?next=http://a/"
    = "https://example.com/graphql/?next=http://a/" ∧
  normalizeSaleorApiUrl "https://example.com/graphql/" = "https://example.com/graphql/" ∧
  normalizeSaleorApiUrl "example.com/http://" = "example.com/http://".
Proof.
  split_and!.
  - exact (proj1 (canonicalize_prefix_rewrite
                    "http://example.com/graphql/?next=http://a/" sampleAuthData)
                 "example.com/graphql/?next=http://a/" eq_refl).
  - exact (proj1 (proj2 (canonicalize_prefix_rewrite
                    "https://example.com/graphql/" sampleAuthData)) eq_refl).
  - exact (proj1 (proj2 (canonicalize_prefix_rewrite
                    "example.com/http://" sampleAuthData)) eq_refl).
Defined.

(** C10. Canonicalization is idempotent, and its output never begins
    with the insecure marker; the same holds of the record rewrite
    [enforceHttps]. *)
Theorem canonicalize_idempotent (u : string) (a : AuthData) :
  normalizeSaleorApiUrl (normalizeSaleorApiUrl u) = normalizeSaleorApiUrl u ∧
  JsString.startsWith "http://" (normalizeSaleorApiUrl u) = false ∧
  enforceHttps (enforceHttps a) = enforceHttps a ∧
  JsString.startsWith "http://" (saleorApiUrl (enforceHttps a)) = false.
Proof.
  rewrite <- !toHttps_normalize. split_and!.
  - apply toHttps_idempotent.
  - apply toHttps_is_canonical.
  - apply enforceHttps_idempotent.
  - apply (toHttps_is_canonical (saleorApiUrl a)).
Qed.

(** ** Credential store adapter *)

Section AdapterFacts.
Import HttpsEnforcingAPL.
Context {St : Type} (baseApl : APL St).

Lemma new_events_app (w : world St) (s : St) (evs : list event) (ls : list log_entry) :
  new_events w (mkWorld s (trace w ++ evs) ls) = evs.
Proof. unfold new_events; simpl. apply drop_app_length. Qed.


Lemma new_events_same (w : world St) (s : St) (ls : list log_entry) :
  new_events w (mkWorld s (trace w) ls) = [].
Proof. unfold new_events; simpl. apply drop_all. Qed.

(** One [await this.baseApl.get(url)]. *)
Lemma await_get_eq (url : string) (w : world St) :
  await_base (CGet url) (apl_get baseApl url) w =
    (fst (apl_get baseApl url (store w)),
     mkWorld (snd (apl_get baseApl url (store w)))
             (trace w ++ [Called (CGet url);
                          Settled (CGet url)
                            (is_fulfilled (fst (apl_get baseApl url (store w))))])
             (logs w)).
Proof. unfold await_base. by destruct (apl_get baseApl url (store w)). Qed.

(** The three ways [get] can go, by what the backing store answers. *)
Lemma get_first_hit (u : string) (w : world St) (a : AuthData) (s1 : St) :
  apl_get baseApl (toHttps u) (store w) = (Fulfilled (Some a), s1) →
  get baseApl u w =
    (Fulfilled (Some (enforceHttps a)),
     mkWorld s1 (trace w ++ [Called (CGet (toHttps u)); Settled (CGet (toHttps u)) true])
             (logs w)).
Proof.
  intros H. unfold get, mbind, async_mbind, async_bind, mret, async_mret, async_ret.
  rewrite await_get_eq, H. reflexivity.
Qed.

Lemma get_second_hit (u : string) (w : world St) (a : AuthData) (s1 s2 : St) :
  apl_get baseApl (toHttps u) (store w) = (Fulfilled None, s1) →
  apl_get baseApl (toHttp u) s1 = (Fulfilled (Some a), s2) →
  get baseApl u w =
    (Fulfilled (Some (enforceHttps a)),
     mkWorld s2 (trace w ++ [Called (CGet (toHttps u)); Settled (CGet (toHttps u)) true;
                             Called (CGet (toHttp u)); Settled (CGet (toHttp u)) true])
             (logs w)).
Proof.
  intros H1 H2. unfold get, mbind, async_mbind, async_bind, mret, async_mret, async_ret.
  rewrite await_get_eq, H1. simpl. rewrite await_get_eq. simpl. rewrite H2. simpl.
  by rewrite <- app_assoc.
Qed.

Lemma get_third (u : string) (w : world St) (o : option AuthData) (s1 s2 s3 : St) :
  apl_get baseApl (toHttps u) (store w) = (Fulfilled None, s1) →
  apl_get baseApl (toHttp u) s1 = (Fulfilled None, s2) →
  apl_get baseApl u s2 = (Fulfilled o, s3) →
  get baseApl u w =
    (Fulfilled (enforceHttps <$> o),
     mkWorld s3 (trace w ++ [Called (CGet (toHttps u)); Settled (CGet (toHttps u)) true;
                             Called (CGet (toHttp u)); Settled (CGet (toHttp u)) true;
                             Called (CGet u); Settled (CGet u) true])
             (logs w ++
              match o with
              | Some _ => []
              | None => [mkLog "HttpsEnforcingAPL" Warn "APL authentication data not found"
                           [("requestedUrl", FStr u)]]
              end)).
Proof.
  intros H1 H2 H3.
  unfold get, mbind, async_mbind, async_bind, mret, async_mret, async_ret.
  rewrite await_get_eq, H1. simpl. rewrite await_get_eq. simpl. rewrite H2. simpl.
  rewrite await_get_eq. simpl. rewrite H3. simpl.
  destruct o; simpl; unfold emit; simpl; rewrite <- !app_assoc; simpl;
    by rewrite ?app_nil_r.
Qed.




Lemma set_run (a : AuthData) (w : world St) :
  set baseApl a w =
    (fst (apl_set baseApl (enforceHttps a) (store w)),
     mkWorld (snd (apl_set baseApl (enforceHttps a) (store w)))
             (trace w ++ [Called (CSet (enforceHttps a));
                          Settled (CSet (enforceHttps a))
                            (is_fulfilled (fst (apl_set baseApl (enforceHttps a) (store w))))])
             (logs w)).
Proof.
  unfold set, await_base. by destruct (apl_set baseApl (enforceHttps a) (store w)).
Qed.

Lemma delete_run (order : settle_order) (u : string) (w : world St) :
  apl_delete_throws baseApl (toHttps u) (store w) = None →
  apl_delete_throws baseApl u (store w) = None →
  ∃ s' b1 b2,
    delete baseApl order u w =
      (Fulfilled tt,
       mkWorld s' (trace w ++ [Called (CDelete (toHttps u)); Called (CDelete u)] ++
                   match order with
                   | FirstSettlesFirst =>
                       [Settled (CDelete (toHttps u)) b1; Settled (CDelete u) b2]
                   | SecondSettlesFirst =>
                       [Settled (CDelete u) b2; Settled (CDelete (toHttps u)) b1]
                   end)
               (logs w)).
Proof.
  intros H1 H2. unfold delete. rewrite H1, H2. destruct order.
  - destruct (apl_delete baseApl (toHttps u) (store w)) as [r1 s1].
    destruct (apl_delete baseApl u s1) as [r2 s2].
    exists s2, (is_fulfilled r1), (is_fulfilled r2). by rewrite <- app_assoc.
  - destruct (apl_delete baseApl u (store w)) as [r2 s1].
    destruct (apl_delete baseApl (toHttps u) s1) as [r1 s2].
    exists s2, (is_fulfilled r1), (is_fulfilled r2). by rewrite <- app_assoc.
Qed.




Lemma getAll_run (w : world St) :
  getAll baseApl w =
    (match fst (apl_getAll baseApl (store w)) with
     | Fulfilled l => Fulfilled (enforceHttps <$> l)
     | Rejected e => Rejected e
     end,
     mkWorld (snd (apl_getAll baseApl (store w)))
             (trace w ++ [Called CGetAll;
                          Settled CGetAll
                            (is_fulfilled (fst (apl_getAll baseApl (store w))))])
             (logs w)).
Proof.
  unfold getAll, mbind, async_mbind, async_bind, mret, async_mret, async_ret, await_base.
  by destruct (apl_getAll baseApl (store w)) as [[l|e] s'].
Qed.







Lemma enforceHttps_other (a : AuthData) :
  JsString.startsWith "http://" (saleorApiUrl a) = false → enforceHttps a = a.
Proof.
  intros H. destruct a as [i u t k]. unfold enforceHttps. simpl in *.
  by rewrite (toHttps_canonical u H).
Qed.

Lemma probe_writes {A} (c : call) (probe : St → outcome A * St) (w : world St) :
  (∀ a, c ≠ CSet a) →
  writes (new_events w (snd (await_base c probe w))) = [].
Proof.
  intros Hc. unfold await_base. destruct (probe (store w)) as [r s']. simpl.
  rewrite new_events_app. destruct c; try done. by destruct (Hc authData).
Qed.





End AdapterFacts.

Section AdapterTheorems.
Import HttpsEnforcingAPL.
Context {St : Type} (baseApl : APL St).





(** C5. On a backing store that returns what was written to it, writing
    a record and then reading its identity back gives that record with
    the identity in canonical form and every other field as written. *)
Theorem set_get_roundtrip (r : AuthData) (w : world St) :
  read_your_writes baseApl →
  fst (set baseApl r w) = Fulfilled tt →
  ∃ r',
    fst (get baseApl (saleorApiUrl r) (snd (set baseApl r w))) = Fulfilled (Some r') ∧
    appId r' = appId r ∧ token r' = token r ∧ jwks r' = jwks r ∧
    saleorApiUrl r' = normalizeSaleorApiUrl (saleorApiUrl r).
Proof.
  intros Hstore Hset. exists (enforceHttps r).
  split; [|split_and!; try done; apply toHttps_normalize].
  rewrite set_run in Hset |- *. simpl in *.
  specialize (Hstore (enforceHttps r) (store w) Hset).
  destruct (apl_get baseApl (saleorApiUrl (enforceHttps r))
              (snd (apl_set baseApl (enforceHttps r) (store w)))) as [o s1] eqn:E.
  simpl in Hstore. subst o.
  erewrite get_first_hit; [|exact E]. simpl. by rewrite enforceHttps_idempotent.
Qed.



(** C7. [getAll] returns the backing store's sequence with each record's
    identity rewritten by the canonicalizer: the same length, the same
    order, position by position, every other field as the store returned
    it; an identity that begins with the insecure marker comes back with
    the secure one, any other identity as it is.  A failure of the store
    is passed on. *)
Theorem getAll_rewrites_in_order (w : world St) :
  match fst (apl_getAll baseApl (store w)) with
  | Fulfilled l =>
      ∃ l', fst (getAll baseApl w) = Fulfilled l' ∧
            length l' = length l ∧
            ∀ (n : nat) (a : AuthData), l !! n = Some a →
              ∃ a', l' !! n = Some a' ∧
                    appId a' = appId a ∧ token a' = token a ∧ jwks a' = jwks a ∧
                    saleorApiUrl a' = normalizeSaleorApiUrl (saleorApiUrl a) ∧
                    (∀ rest, saleorApiUrl a = "http://" +:+ rest →
                       saleorApiUrl a' = "https://" +:+ rest) ∧
                    (JsString.startsWith "http://" (saleorApiUrl a) = false → a' = a)
  | Rejected e => fst (getAll baseApl w) = Rejected e
  end.
Proof.
  rewrite getAll_run. simpl.
  destruct (fst (apl_getAll baseApl (store w))) as [l|e]; [|done].
  exists (enforceHttps <$> l). split_and!; [done|apply length_fmap|].
  intros n a Hn. exists (enforceHttps a). split_and!; try done.
  - by rewrite list_lookup_fmap, Hn.
  - apply toHttps_normalize.
  - intros rest H. simpl. rewrite H. apply toHttps_insecure.
  - by apply enforceHttps_other.
Qed.

End AdapterTheorems.

Lemma mapAPL_read_your_writes : read_your_writes mapAPL.
Proof. intros a m _. simpl. by rewrite lookup_insert_eq. Qed.



Lemma set_get_roundtrip_witness :
  ∃ r',
    fst (HttpsEnforcingAPL.get mapAPL "http://example.com/graphql/"
           (snd (HttpsEnforcingAPL.set mapAPL sampleAuthData (init_world ∅))))
      = Fulfilled (Some r') ∧
    appId r' = "test-app" ∧ token r' = "test-token" ∧ jwks r' = "test-jwks" ∧
    saleorApiUrl r' = normalizeSaleorApiUrl "http://example.com/graphql/".
Proof.
  exact (set_get_roundtrip mapAPL sampleAuthData (init_world ∅)
           mapAPL_read_your_writes eq_refl).
Defined.


Lemma getAll_rewrites_in_order_witness :
  ∃ l' a',
    fst (HttpsEnforcingAPL.getAll
           (mockAPL [sampleAuthData;
                     mkAuthData "app-2" "https://example2.com/graphql/" "t2" "k2"])
           (init_world [])) = Fulfilled l' ∧
    length l' = 2%nat ∧
    l' !! 0%nat = Some a' ∧ saleorApiUrl a' = "https://" +:+ "example.com/graphql/".
Proof.
  pose proof (getAll_rewrites_in_order
                (mockAPL [sampleAuthData;
                          mkAuthData "app-2" "https://example2.com/graphql/" "t2" "k2"])
                (init_world [])) as H.
  hnf in H. destruct H as (l' & H & Hlen & Hn).
  destruct (Hn 0%nat sampleAuthData eq_refl) as (a' & Ha & _ & _ & _ & _ & Hs & _).
  exists l', a'. split_and!; [exact H|exact Hlen|exact Ha|].
  exact (Hs "example.com/graphql/" eq_refl).
Defined.

(** ** Capability patcher: containment of failures *)

Section PatcherContainment.
Import Js Bypass BypassSpec.

Lemma bind_run {A B} (m : Sync A) (k : A → Sync B) (s : pstate) :
  (m ≫= k) s = match m s with
               | (Fulfilled a, s') => k a s'
               | (Rejected e, s') => (Rejected e, s')
               end.
Proof. reflexivity. Qed.

Lemma try_catch_total (body : Sync unit) (handler : exn → Sync unit) (s : pstate) :
  (∀ e s1, fst (handler e s1) = Fulfilled tt) →
  fst (try_catch body handler s) = Fulfilled tt.
Proof.
  intros H. unfold try_catch. destruct (body s) as [[[]|e] s1]; [done|apply H].
Qed.

Lemma seq_total (m k : Sync unit) (s : pstate) :
  (∀ s0, fst (m s0) = Fulfilled tt) → (∀ s1, fst (k s1) = Fulfilled tt) →
  fst ((m;; k) s) = Fulfilled tt.
Proof.
  intros Hm Hk. rewrite bind_run. specialize (Hm s).
  destruct (m s) as [[[]|e] s1]; [apply Hk|done].
Qed.

Lemma forEach_total {A} (f : A → Sync unit) (l : list A) (s : pstate) :
  (∀ x s0, fst (f x s0) = Fulfilled tt) → fst (forEach f l s) = Fulfilled tt.
Proof.
  intros Hf. revert s. induction l as [|x l IH]; intros s; simpl; [done|].
  apply seq_total; [apply Hf|apply IH].
Qed.

Variable require : option Require.

Lemma inspectNamedModules_total (s : pstate) :
  fst (inspectNamedModules require s) = Fulfilled tt.
Proof.
  unfold inspectNamedModules. apply forEach_total.
  intros name s0. by apply try_catch_total.
Qed.

Lemma patchLoadedModules_total (s : pstate) :
  fst (patchLoadedModules require s) = Fulfilled tt.
Proof.
  unfold patchLoadedModules, cacheApproach, namedApproach.
  apply seq_total; intros s0; by apply try_catch_total.
Qed.




(** *** Code that only inspects *)

Lemma inspects_ret {A} (a : A) : inspects_only (mret a : Sync A).
Proof. intros s. split_and!; try done. exists []. by rewrite app_nil_r. Qed.

Lemma inspects_state_read {A} (f : pstate → outcome A) :
  inspects_only (λ s, (f s, s)).
Proof. intros s. split_and!; try done. exists []. by rewrite app_nil_r. Qed.

Lemma inspects_log_info (msg : string) (fields : list (string * field)) :
  inspects_only (log Info msg fields).
Proof. intros s. split_and!; try done. eexists. split; [done|]. by repeat constructor. Qed.

Lemma inspects_bind {A B} (m : Sync A) (k : A → Sync B) :
  inspects_only m → (∀ a, inspects_only (k a)) → inspects_only (m ≫= k).
Proof.
  intros Hm Hk s. rewrite bind_run.
  destruct (Hm s) as (Hh & Ht & ls & Hl & Hls).
  destruct (m s) as [[a|e] s1]; simpl in *.
  - destruct (Hk a s1) as (Hh' & Ht' & ls' & Hl' & Hls').
    split_and!; [congruence|congruence|].
    exists (ls ++ ls'). split; [|by apply Forall_app].
    by rewrite Hl', Hl, app_assoc.
  - split_and!; try done. by exists ls.
Qed.

Lemma inspects_try_catch {A} (body : Sync A) (handler : exn → Sync A) :
  inspects_only body → (∀ e, inspects_only (handler e)) →
  inspects_only (try_catch body handler).
Proof.
  intros Hm Hk s. unfold try_catch.
  destruct (Hm s) as (Hh & Ht & ls & Hl & Hls).
  destruct (body s) as [[a|e] s1]; simpl in *.
  - split_and!; try done. by exists ls.
  - destruct (Hk e s1) as (Hh' & Ht' & ls' & Hl' & Hls').
    split_and!; [congruence|congruence|].
    exists (ls ++ ls'). split; [|by apply Forall_app].
    by rewrite Hl', Hl, app_assoc.
Qed.

Lemma inspects_forEach {A} (f : A → Sync unit) (l : list A) :
  (∀ x, inspects_only (f x)) → inspects_only (forEach f l).
Proof.
  intros Hf. induction l as [|x l IH]; simpl.
  - apply (inspects_ret tt).
  - apply inspects_bind; [apply Hf|intros _; apply IH].
Qed.

(** *** Code that only reports *)

Lemma emits_quiet {A} (P : log_entry → Prop) (m : Sync A) :
  (∀ s, p_logs (snd (m s)) = p_logs s ∧ p_timers (snd (m s)) = p_timers s) →
  emits_only P m.
Proof.
  intros H s. destruct (H s) as [Hl Ht]. split; [done|].
  exists []. by rewrite app_nil_r.
Qed.

Lemma emits_ret {A} (P : log_entry → Prop) (a : A) : emits_only P (mret a : Sync A).
Proof. by apply emits_quiet. Qed.

Lemma emits_log (P : log_entry → Prop) (lv : level) (msg : string)
    (fields : list (string * field)) :
  P (mkLog loggerName lv msg fields) → emits_only P (log lv msg fields).
Proof. intros H s. split; [done|]. eexists. split; [done|]. by repeat constructor. Qed.

Lemma emits_bind {A B} (P : log_entry → Prop) (m : Sync A) (k : A → Sync B) :
  emits_only P m → (∀ a, emits_only P (k a)) → emits_only P (m ≫= k).
Proof.
  intros Hm Hk s. rewrite bind_run.
  destruct (Hm s) as (Ht & ls & Hl & Hls).
  destruct (m s) as [[a|e] s1]; simpl in *.
  - destruct (Hk a s1) as (Ht' & ls' & Hl' & Hls').
    split; [congruence|].
    exists (ls ++ ls'). split; [|by apply Forall_app].
    by rewrite Hl', Hl, app_assoc.
  - split; [done|]. by exists ls.
Qed.

Lemma emits_try_catch {A} (P : log_entry → Prop) (body : Sync A) (handler : exn → Sync A) :
  emits_only P body → (∀ e, emits_only P (handler e)) →
  emits_only P (try_catch body handler).
Proof.
  intros Hm Hk s. unfold try_catch.
  destruct (Hm s) as (Ht & ls & Hl & Hls).
  destruct (body s) as [[a|e] s1]; simpl in *.
  - split; [done|]. by exists ls.
  - destruct (Hk e s1) as (Ht' & ls' & Hl' & Hls').
    split; [congruence|].
    exists (ls ++ ls'). split; [|by apply Forall_app].
    by rewrite Hl', Hl, app_assoc.
Qed.

Lemma emits_forEach {A} (P : log_entry → Prop) (f : A → Sync unit) (l : list A) :
  (∀ x, emits_only P (f x)) → emits_only P (forEach f l).
Proof.
  intros Hf. induction l as [|x l IH]; simpl.
  - apply (emits_ret P tt).
  - apply emits_bind; [apply Hf|intros _; apply IH].
Qed.

(** [require] changes the heap at most: it emits nothing and schedules
    nothing, and a call that throws has changed nothing. *)
Lemma requireModule_quiet (name : string) (s : pstate) :
  p_logs (snd (requireModule require name s)) = p_logs s ∧
  p_timers (snd (requireModule require name s)) = p_timers s.
Proof.
  unfold requireModule. destruct require as [r|]; [|done].
  by destruct (load r name (p_heap s)).
Qed.


Lemma requireModule_heap_only (name : string) (s s0 : pstate) :
  p_heap s = p_heap s0 →
  p_heap (snd (requireModule require name s)) = p_heap (snd (requireModule require name s0)).
Proof.
  intros H. unfold requireModule. destruct require as [r|]; [|done].
  rewrite H. by destruct (load r name (p_heap s0)).
Qed.

(** Inspecting a loaded module changes nothing; all it emits is the
    report of a function whose name contains "verify". *)
Lemma inspectLoadedModule_inspects (name : string) (module : value) :
  inspects_only (inspectLoadedModule name module).
Proof.
  unfold inspectLoadedModule.
  apply inspects_bind; [apply inspects_state_read|intros isObj].
  destruct (truthy module && isObj); [|apply (inspects_ret tt)].
  apply inspects_bind; [apply inspects_state_read|intros keys].
  apply inspects_forEach. intros key.
  destruct (JsString.includes _ _); [|apply (inspects_ret tt)].
  apply inspects_bind; [apply inspects_state_read|intros x].
  apply inspects_bind; [apply inspects_state_read|intros isFn].
  destruct isFn; [apply inspects_log_info|apply (inspects_ret tt)].
Qed.

Lemma inspectLoadedModule_emits (name : string) (module : value) :
  emits_only found_verify_entry (inspectLoadedModule name module).
Proof.
  unfold inspectLoadedModule.
  apply emits_bind; [by apply emits_quiet|intros isObj].
  destruct (truthy module && isObj); [|apply (emits_ret _ tt)].
  apply emits_bind; [by apply emits_quiet|intros keys].
  apply emits_forEach. intros key.
  destruct (JsString.includes _ _); [|apply (emits_ret _ tt)].
  apply emits_bind; [by apply emits_quiet|intros x].
  apply emits_bind; [by apply emits_quiet|intros isFn].
  destruct isFn; [|apply (emits_ret _ tt)].
  apply emits_log. by exists name, key.
Qed.

Lemma inspectNamedModule_total (name : string) (s : pstate) :
  fst (inspectNamedModule require name s) = Fulfilled tt.
Proof. by apply try_catch_total. Qed.


Lemma inspectNamedModule_heap (name : string) (s : pstate) :
  p_heap (snd (inspectNamedModule require name s))
    = p_heap (snd (requireModule require name s)).
Proof.
  unfold inspectNamedModule, try_catch. rewrite bind_run.
  destruct (requireModule require name s) as [[module|e] s1]; [|done].
  destruct (inspectLoadedModule_inspects name module s1) as (Hh & _).
  by destruct (inspectLoadedModule name module s1) as [[[]|e] s2].
Qed.

Lemma inspectNamedModule_emits (name : string) :
  emits_only found_verify_entry (inspectNamedModule require name).
Proof.
  apply emits_try_catch; [|intros e; apply (emits_ret _ tt)].
  apply emits_bind; [apply emits_quiet, requireModule_quiet|intros module].
  apply inspectLoadedModule_emits.
Qed.

Lemma namedApproach_eq (s : pstate) :
  namedApproach require s = inspectNamedModules require s.
Proof.
  unfold namedApproach, try_catch.
  pose proof (inspectNamedModules_total s) as H.
  by destruct (inspectNamedModules require s) as [[[]|e] s1].
Qed.

(** Approach 2 changes the heap only through its two [require] calls,
    and never reaches its own [catch]. *)
Lemma namedApproach_heap (s : pstate) :
  p_heap (snd (namedApproach require s)) = afterRequires require (p_heap s).
Proof.
  rewrite namedApproach_eq. unfold inspectNamedModules, moduleNames, afterRequires.
  cbn [forEach]. rewrite bind_run.
  pose proof (inspectNamedModule_total "@saleor/app-sdk/handlers/next" s) as H1.
  pose proof (inspectNamedModule_heap "@saleor/app-sdk/handlers/next" s) as Hh1.
  destruct (inspectNamedModule require "@saleor/app-sdk/handlers/next" s)
    as [[[]|e] s1]; [|done].
  rewrite bind_run.
  pose proof (inspectNamedModule_total "@saleor/app-sdk" s1) as H2.
  pose proof (inspectNamedModule_heap "@saleor/app-sdk" s1) as Hh2.
  destruct (inspectNamedModule require "@saleor/app-sdk" s1) as [[[]|e] s2]; [|done].
  cbn [fst snd] in *.
  change (p_heap s2 = p_heap (snd (requireModule require "@saleor/app-sdk"
            (snd (requireModule require "@saleor/app-sdk/handlers/next"
                    (initial (p_heap s))))))).
  rewrite Hh2. apply requireModule_heap_only.
  rewrite Hh1. by apply requireModule_heap_only.
Qed.

Lemma namedApproach_emits : emits_only found_verify_entry (namedApproach require).
Proof.
  intros s. rewrite namedApproach_eq. revert s.
  apply emits_forEach. intros name. apply inspectNamedModule_emits.
Qed.

(** The scan of one export object's keys, at the end of the [forEach]
    callback of approach 1. *)
Lemma keyScan_inspects (exports : value) (modulePath : string) (keys : list string) :
  inspects_only
    (forEach (λ key,
        x ← readProp exports key;
        isFn ← typeofFunction x;
        if isFn && looksLikeSignatureKey key then
          log Info ("Found potential signature function: " +:+ key +:+ " in "
                    +:+ segmentText modulePath) []
        else mret tt) keys).
Proof.
  apply inspects_forEach. intros key.
  apply inspects_bind; [apply inspects_state_read|intros x].
  apply inspects_bind; [apply inspects_state_read|intros isFn].
  destruct (isFn && _); [apply inspects_log_info|apply (inspects_ret tt)].
Qed.

(** *** The patch counter *)

Lemma bind_inv {A B} (m : Sync A) (k : A → Sync B) (s s' : pstate) (b : B) :
  (m ≫= k) s = (Fulfilled b, s') →
  ∃ a s1, m s = (Fulfilled a, s1) ∧ k a s1 = (Fulfilled b, s').
Proof.
  rewrite bind_run. destruct (m s) as [[a|e] s1]; [eauto|done].
Qed.

Lemma bind_inspect_inv {A B} (m : Sync A) (k : A → Sync B) (s s' : pstate) (b : B) :
  inspects_only m →
  (m ≫= k) s = (Fulfilled b, s') →
  ∃ a s1, p_heap s1 = p_heap s ∧ k a s1 = (Fulfilled b, s').
Proof.
  intros Hm H. apply bind_inv in H as (a & s1 & H1 & H2).
  exists a, s1. split; [|done]. destruct (Hm s) as [Hh _]. by rewrite H1 in Hh.
Qed.







Lemma cacheApproach_success (s s1 : pstate) :
  scanCache require s = (Fulfilled tt, s1) →
  cacheApproach require s = (Fulfilled tt, s1).
Proof. intros H. unfold cacheApproach, try_catch. by rewrite H. Qed.

Lemma cacheApproach_total (s : pstate) : fst (cacheApproach require s) = Fulfilled tt.
Proof. by apply try_catch_total. Qed.

(** A pass is approach 1 followed by approach 2, whatever approach 1
    met. *)
Lemma patchLoadedModules_eq (s : pstate) :
  patchLoadedModules require s = namedApproach require (snd (cacheApproach require s)).
Proof.
  unfold patchLoadedModules. rewrite bind_run.
  pose proof (cacheApproach_total s) as H.
  by destruct (cacheApproach require s) as [[[]|e] s1].
Qed.

(** The diagnostics of approach 1 are still there after approach 2. *)
Lemma patchLoadedModules_after_cache (s s1 : pstate) :
  cacheApproach require s = (Fulfilled tt, s1) →
  p_heap (snd (patchLoadedModules require s)) = afterRequires require (p_heap s1) ∧
  ∃ ls, p_logs (snd (patchLoadedModules require s)) = p_logs s1 ++ ls ∧
        Forall found_verify_entry ls.
Proof.
  intros H. rewrite patchLoadedModules_eq, H. simpl.
  split; [apply namedApproach_heap|]. by destruct (namedApproach_emits s1) as (_ & Hl).
Qed.

End PatcherContainment.

Section PatcherContainmentTheorem.
Import Js Bypass BypassSpec.


End PatcherContainmentTheorem.

Section PatcherContainmentExamples.
Import Js Bypass BypassSpec.



End PatcherContainmentExamples.

(** ** Capability patcher: installing the override *)

Section HeapFacts.
Import Js Bypass BypassSpec.

Lemma assoc_In {A} (k : string) (a : A) (l : list (string * A)) :
  assoc k l = Some a → In (k, a) l.
Proof.
  induction l as [|[k' a'] l IH]; simpl; [done|].
  destruct (String.eqb k k') eqn:E.
  - apply String.eqb_eq in E. intros [= ->]. left. by subst.
  - intros H. right. by apply IH.
Qed.

Lemma assoc_key {A} (k : string) (a : A) (l : list (string * A)) :
  assoc k l = Some a → k ∈ l.*1.
Proof.
  intros H. apply assoc_In in H. apply list_elem_of_In in H.
  by apply (list_elem_of_fmap_2 fst) in H.
Qed.

Lemma assoc_set_eq {A} (k : string) (a : A) (l : list (string * A)) :
  assoc k (assoc_set k a l) = Some a.
Proof.
  induction l as [|[k' a'] l IH]; simpl.
  - by rewrite String.eqb_refl.
  - destruct (String.eqb k k') eqn:E; simpl; [by rewrite String.eqb_refl|].
    by rewrite E.
Qed.

Lemma assoc_set_ne {A} (k k' : string) (a : A) (l : list (string * A)) :
  k' ≠ k → assoc k' (assoc_set k a l) = assoc k' l.
Proof.
  intros Hne. induction l as [|[k0 a0] l IH]; simpl.
  - destruct (String.eqb k' k) eqn:E; [|done]. by apply String.eqb_eq in E.
  - destruct (String.eqb k k0) eqn:E; simpl.
    + apply String.eqb_eq in E. subst k0.
      destruct (String.eqb k' k) eqn:E'; [|done]. by apply String.eqb_eq in E'.
    + by rewrite IH.
Qed.

Lemma plainObject_spec (o : object) :
  plainObject o = true ↔ ∀ k p, In (k, p) (obj_props o) → plainProperty p = true.
Proof.
  unfold plainObject. rewrite forallb_forall. split.
  - intros H k p Hin. apply (H (k, p) Hin).
  - intros H [k p] Hin. by apply (H k p).
Qed.

Lemma plainHeap_lookup (h : heap) (l : loc) (o : object) :
  plainHeap h = true → h !! l = Some o → plainObject o = true.
Proof.
  unfold plainHeap. rewrite forallb_forall. intros H Hl.
  apply H, list_elem_of_In. by eapply list_elem_of_lookup_2.
Qed.

Lemma plainHeap_intro (h : heap) :
  (∀ l o, h !! l = Some o → plainObject o = true) → plainHeap h = true.
Proof.
  intros H. unfold plainHeap. rewrite forallb_forall. intros o Hin.
  apply list_elem_of_In, list_elem_of_lookup in Hin as [l Hl]. by eapply H.
Qed.

Lemma plain_assoc (h : heap) (l : loc) (o : object) (k : string) (p : property) :
  plainHeap h = true → h !! l = Some o → assoc k (obj_props o) = Some p →
  ∃ v, p = DataProperty v true.
Proof.
  intros Hh Hl Ha. apply (plainHeap_lookup h l o Hh) in Hl.
  rewrite plainObject_spec in Hl. apply assoc_In in Ha. apply Hl in Ha.
  destruct p as [v [|]|g]; try done. by exists v.
Qed.

Lemma plainObject_set (o : object) (k : string) (v : value) :
  plainObject o = true →
  plainObject (mkObject (obj_call o) (assoc_set k (DataProperty v true) (obj_props o))) = true.
Proof.
  unfold plainObject. simpl. induction (obj_props o) as [|[k' p'] l IH]; simpl; [done|].
  intros [H1 H2]%andb_prop.
  destruct (String.eqb k k'); simpl; [done|]. by rewrite H1, IH.
Qed.

Lemma truthy_not_nullish (v : value) :
  truthy v = true → v ≠ VUndefined ∧ v ≠ VNull.
Proof. by destruct v. Qed.

(** On an ordinary registry, reading a property of anything truthy and
    listing its keys cannot throw. *)
Lemma getProp_total (h : heap) (v : value) (k : string) :
  plainHeap h = true → truthy v = true → ∃ x, getProp h v k = Fulfilled x.
Proof.
  intros Hh Hv. destruct v as [| |b|n|str|l]; simpl in *; try done; eauto.
  destruct (h !! l) as [o|] eqn:Hl; [|eauto].
  destruct (assoc k (obj_props o)) as [p|] eqn:Ha; [|eauto].
  destruct (plain_assoc h l o k p Hh Hl Ha) as [x ->]. eauto.
Qed.

Lemma objectKeys_total (h : heap) (v : value) :
  truthy v = true → ∃ ks, objectKeys h v = Fulfilled ks.
Proof.
  intros Hv. destruct v as [| |b|n|str|l]; simpl in *; try done; eauto.
  destruct (h !! l); eauto.
Qed.

(** A property that reads as something truthy is an own key. *)
Lemma getProp_truthy_key (h : heap) (v : value) (k : string) (x : value) :
  plainHeap h = true → getProp h v k = Fulfilled x → truthy x = true →
  ∃ ks, objectKeys h v = Fulfilled ks ∧ k ∈ ks.
Proof.
  intros Hh Hg Hx. destruct v as [| |b|n|str|l]; simpl in *;
    try (by revert Hg; intros [= <-]).
  destruct (h !! l) as [o|] eqn:Hl; [|by revert Hg; intros [= <-]].
  destruct (assoc k (obj_props o)) as [p|] eqn:Ha; [|by revert Hg; intros [= <-]].
  eexists. split; [done|]. by eapply assoc_key.
Qed.

(** What a truthy property read tells about the receiver. *)
Lemma getProp_truthy_inv (h : heap) (v : value) (k : string) (x : value) :
  plainHeap h = true → getProp h v k = Fulfilled x → truthy x = true →
  ∃ l o, v = VObject l ∧ h !! l = Some o ∧
         assoc k (obj_props o) = Some (DataProperty x true).
Proof.
  intros Hh Hg Hx. destruct v as [| |b|n|str|l]; simpl in *;
    try (by revert Hg; intros [= <-]).
  destruct (h !! l) as [o|] eqn:Hl; [|by revert Hg; intros [= <-]].
  destruct (assoc k (obj_props o)) as [p|] eqn:Ha; [|by revert Hg; intros [= <-]].
  destruct (plain_assoc h l o k p Hh Hl Ha) as [x' ->].
  revert Hg; intros [= ->]. by exists l, o.
Qed.

End HeapFacts.

Section EvolvesFacts.
Import Js Bypass BypassSpec.

Lemma evolves_refl (h : heap) : plainHeap h = true → evolves h h.
Proof. intros Hh. split; [done|]. intros l o Hl. exists o. eauto. Qed.

Lemma evolves_isBypass (h h' : heap) (v : value) :
  evolves h h' → isBypass h v = true → isBypass h' v = true.
Proof.
  intros [_ He] Hb. destruct v as [| |b|n|str|l]; try done.
  unfold isBypass in *.
  destruct (h !! l) as [o|] eqn:Hl; [|done].
  destruct (He l o Hl) as (o' & Hl' & Hc & _). by rewrite Hl', Hc.
Qed.

Lemma evolves_trans (h1 h2 h3 : heap) :
  evolves h1 h2 → evolves h2 h3 → evolves h1 h3.
Proof.
  intros H12 H23. split; [apply H23|].
  intros l o Hl.
  destruct (proj2 H12 l o Hl) as (o2 & Hl2 & Hc2 & Hk2 & Hv2).
  destruct (proj2 H23 l o2 Hl2) as (o3 & Hl3 & Hc3 & Hk3 & Hv3).
  exists o3. split_and!; [done|congruence| |].
  - intros k Hk. by rewrite Hk3, Hk2.
  - destruct Hv3 as [Hv3|Hv3]; [|by right].
    rewrite Hv3. destruct Hv2 as [Hv2|(l' & Hv2 & Hb)]; [by left|].
    right. exists l'. split; [done|]. by eapply evolves_isBypass.
Qed.

Lemma evolves_alloc (h : heap) (o : object) :
  plainHeap h = true → plainObject o = true → evolves h (h ++ [o]).
Proof.
  intros Hh Ho. split.
  - unfold plainHeap in *. rewrite forallb_app. simpl. by rewrite Hh, Ho.
  - intros l o' Hl. exists o'. split_and!; eauto. by apply lookup_app_l_Some.
Qed.

Lemma evolves_set (h : heap) (l l' : loc) (o : object) :
  plainHeap h = true → h !! l = Some o → isBypass h (VObject l') = true →
  evolves h (<[l := mkObject (obj_call o)
                      (assoc_set verifyName (DataProperty (VObject l') true)
                         (obj_props o))]> h).
Proof.
  intros Hh Hl Hb.
  assert (l < length h)%nat as Hlt by (by eapply lookup_lt_Some).
  assert (∀ v, isBypass h v = true →
            isBypass (<[l := mkObject (obj_call o)
                      (assoc_set verifyName (DataProperty (VObject l') true)
                         (obj_props o))]> h) v = true) as Hkeep.
  { intros [| |b|n|str|l0]; simpl; try done.
    destruct (decide (l0 = l)) as [->|Hne].
    - rewrite list_lookup_insert_eq, Hl by done. done.
    - by rewrite list_lookup_insert_ne. }
  split.
  - apply plainHeap_intro. intros l0 o0.
    destruct (decide (l0 = l)) as [->|Hne].
    + rewrite list_lookup_insert_eq by done. intros [= <-].
      apply plainObject_set. by eapply plainHeap_lookup.
    + rewrite list_lookup_insert_ne by done. by apply plainHeap_lookup.
  - intros l0 o0 Hl0. destruct (decide (l0 = l)) as [->|Hne].
    + rewrite list_lookup_insert_eq by done. eexists. split; [done|].
      assert (o0 = o) as -> by congruence.
      cbn [obj_call obj_props]. split_and!; [done| |].
      * intros k Hk. by apply assoc_set_ne.
      * right. exists l'. split; [apply assoc_set_eq|]. by apply Hkeep.
    + rewrite list_lookup_insert_ne by done. exists o0. eauto.
Qed.

(** Reads of properties other than the patched one are unaffected. *)
Lemma evolves_getProp (h h' : heap) (v : value) (k : string) (x : value) :
  plainHeap h = true → evolves h h' → k ≠ verifyName →
  getProp h v k = Fulfilled x → truthy x = true →
  getProp h' v k = Fulfilled x.
Proof.
  intros Hh [_ He] Hk Hg Hx.
  destruct (getProp_truthy_inv h v k x Hh Hg Hx) as (l & o & -> & Hl & Ha).
  destruct (He l o Hl) as (o' & Hl' & _ & Hother & _).
  simpl. by rewrite Hl', (Hother k Hk), Ha.
Qed.

Lemma evolves_found (h h' : heap) (obj : value) :
  plainHeap h = true → evolves h h' → found h obj → found h' obj.
Proof.
  intros Hh He (v & Hg & Hv).
  destruct (getProp_truthy_inv h obj verifyName v Hh Hg Hv) as (l & o & -> & Hl & Ha).
  destruct (proj2 He l o Hl) as (o' & Hl' & _ & _ & [Hsame|(l' & Hnew & Hb)]).
  - exists v. simpl. by rewrite Hl', Hsame, Ha.
  - exists (VObject l'). simpl. by rewrite Hl', Hnew.
Qed.

Lemma evolves_bypassedAt (h h' : heap) (obj : value) :
  plainHeap h = true → evolves h h' → bypassedAt h obj → bypassedAt h' obj.
Proof.
  intros Hh He (l0 & Hg & Hb0).
  destruct (getProp_truthy_inv h obj verifyName (VObject l0) Hh Hg eq_refl)
    as (l & o & -> & Hl & Ha).
  destruct (proj2 He l o Hl) as (o' & Hl' & _ & _ & [Hsame|(l' & Hnew & Hb)]).
  - exists l0. simpl. rewrite Hl', Hsame, Ha. split; [done|].
    by apply (evolves_isBypass h h' (VObject l0) He).
  - exists l'. simpl. by rewrite Hl', Hnew.
Qed.

Lemma evolves_exportsOf (h h' : heap) (mc : value) (p : string) (ex : value) :
  plainHeap h = true → evolves h h' → p ≠ verifyName →
  exportsOf h mc p ex → exportsOf h' mc p ex.
Proof.
  intros Hh He Hp (mo & H1 & H2 & H3 & H4). exists mo. split_and!; try done.
  - by eapply evolves_getProp.
  - by eapply evolves_getProp.
Qed.

Lemma evolves_defaultOf (h h' : heap) (ex d : value) :
  plainHeap h = true → evolves h h' → defaultOf h ex d → defaultOf h' ex d.
Proof.
  intros Hh He [H1 H2]. split; [|done]. by eapply evolves_getProp.
Qed.

End EvolvesFacts.

Section PatcherRuns.
Import Js Bypass BypassSpec.

Lemma runs_ret {A} (a : A) (s : pstate) (Q : A → pstate → Prop) :
  Q a s → runs (mret a) s Q.
Proof. intros H. by exists a, s. Qed.

Lemma runs_bind {A B} (m : Sync A) (k : A → Sync B) (s : pstate)
    (Q : B → pstate → Prop) :
  runs m s (λ a s1, runs (k a) s1 Q) → runs (m ≫= k) s Q.
Proof.
  intros (a & s1 & Hm & b & s2 & Hk & HQ). exists b, s2.
  split; [|done]. by rewrite bind_run, Hm.
Qed.

Lemma runs_conseq {A} (m : Sync A) (s : pstate) (Q Q' : A → pstate → Prop) :
  runs m s Q → (∀ a s', Q a s' → Q' a s') → runs m s Q'.
Proof. intros (a & s' & Hm & HQ) H. exists a, s'. eauto. Qed.

Lemma runs_readProp (v : value) (k : string) (s : pstate) (Q : value → pstate → Prop) :
  plainHeap (p_heap s) = true → truthy v = true →
  (∀ x, getProp (p_heap s) v k = Fulfilled x → Q x s) →
  runs (readProp v k) s Q.
Proof.
  intros Hh Hv HQ. destruct (getProp_total (p_heap s) v k Hh Hv) as [x Hx].
  exists x, s. split; [|by apply HQ]. unfold readProp. by rewrite Hx.
Qed.

Lemma runs_keysOf (v : value) (s : pstate) (Q : list string → pstate → Prop) :
  truthy v = true →
  (∀ ks, objectKeys (p_heap s) v = Fulfilled ks → Q ks s) →
  runs (keysOf v) s Q.
Proof.
  intros Hv HQ. destruct (objectKeys_total (p_heap s) v Hv) as [ks Hks].
  exists ks, s. split; [|by apply HQ]. unfold keysOf. by rewrite Hks.
Qed.

Lemma runs_log (lv : level) (msg : string) (fields : list (string * field))
    (s : pstate) (Q : unit → pstate → Prop) :
  Q tt (mkPState (p_heap s) (p_logs s ++ [mkLog loggerName lv msg fields]) (p_timers s)) →
  runs (log lv msg fields) s Q.
Proof. intros H. by eexists tt, _. Qed.

(** Code that only inspects and cannot throw here runs to a state with
    the same heap. *)
Lemma runs_inspects {A} (m : Sync A) (s : pstate) (Q : A → pstate → Prop) :
  inspects_only m →
  (∃ a, fst (m s) = Fulfilled a) →
  (∀ a s', p_heap s' = p_heap s → Q a s') →
  runs m s Q.
Proof.
  intros Hm [a Ha] HQ. destruct (Hm s) as (Hh & _).
  destruct (m s) as [r s'] eqn:E. simpl in *. subst r.
  exists a, s'. split; [done|]. by apply HQ.
Qed.

Lemma setProp_plain (h : heap) (l : loc) (o : object) (k : string) (v x : value) :
  h !! l = Some o → assoc k (obj_props o) = Some (DataProperty v true) →
  setProp h (VObject l) k x =
    Fulfilled (<[l := mkObject (obj_call o)
                        (assoc_set k (DataProperty x true) (obj_props o))]> h).
Proof. intros Hl Ha. simpl. by rewrite Hl, Ha. Qed.

(** Patching an object that holds the verification function installs
    an override there. *)
Lemma patchSignatureFunction_runs (obj : value) (modulePath : string) (s : pstate) :
  plainHeap (p_heap s) = true → found (p_heap s) obj →
  runs (patchSignatureFunction obj verifyName modulePath) s
    (λ _ s', evolves (p_heap s) (p_heap s') ∧ bypassedAt (p_heap s') obj).
Proof.
  intros Hh (v & Hg & Hv).
  destruct (getProp_truthy_inv (p_heap s) obj verifyName v Hh Hg Hv)
    as (l & o & -> & Hl & Ha).
  set (b := mkObject (SignatureBypass verifyName modulePath) []).
  set (h1 := p_heap s ++ [b]).
  set (o2 := mkObject (obj_call o)
               (assoc_set verifyName (DataProperty (VObject (length (p_heap s))) true)
                  (obj_props o))).
  assert (l < length (p_heap s))%nat as Hlt by (by eapply lookup_lt_Some).
  assert (h1 !! l = Some o) as Hl1 by (by apply lookup_app_l_Some).
  assert (h1 !! length (p_heap s) = Some b) as Hb1
    by (by apply list_lookup_middle).
  assert (evolves (p_heap s) h1) as He1 by (by apply evolves_alloc).
  assert (evolves h1 (<[l := o2]> h1)) as He2.
  { apply evolves_set; [apply He1|done|]. simpl. fold h1. by rewrite Hb1. }
  exists tt, (mkPState (<[l := o2]> h1)
                (p_logs s ++ [mkLog loggerName Info
                                ("Successfully patched " +:+ verifyName +:+ " in "
                                 +:+ segmentText modulePath) []])
                (p_timers s)).
  split; [|split].
  - unfold patchSignatureFunction. rewrite bind_run. unfold readProp. rewrite Hg.
    rewrite bind_run. unfold alloc. cbn [p_heap p_logs p_timers].
    rewrite bind_run. unfold writeProp. cbn [p_heap p_logs p_timers].
    fold b. fold h1.
    rewrite (setProp_plain h1 l o verifyName v _ Hl1 Ha). reflexivity.
  - simpl. by eapply evolves_trans.
  - exists (length (p_heap s)). cbn [p_heap]. split.
    + simpl. rewrite list_lookup_insert_eq by (unfold h1; rewrite length_app; lia).
      simpl. by rewrite assoc_set_eq.
    + simpl. rewrite list_lookup_insert_ne by lia. by rewrite Hb1.
Qed.

End PatcherRuns.

Section PatcherInstalls.
Import Js Bypass BypassSpec.

Lemma keyScan_runs (exports : value) (modulePath : string) (keys : list string)
    (s : pstate) (Q : unit → pstate → Prop) :
  plainHeap (p_heap s) = true → truthy exports = true →
  (∀ s', p_heap s' = p_heap s → Q tt s') →
  runs
    (forEach (λ key,
        x ← readProp exports key;
        isFn ← typeofFunction x;
        if isFn && looksLikeSignatureKey key then
          log Info ("Found potential signature function: " +:+ key +:+ " in "
                    +:+ segmentText modulePath) []
        else mret tt) keys) s Q.
Proof.
  intros Hh Hex. revert s Hh. induction keys as [|key keys IH]; intros s Hh HQ.
  - apply runs_ret. by apply HQ.
  - cbn [forEach]. apply runs_bind. apply runs_bind.
    apply runs_readProp; [done|done|]. intros x _.
    apply runs_bind. eexists _, s. split; [reflexivity|].
    destruct (_ && _).
    + apply runs_log. apply IH; [done|]. intros s' Hs'. apply HQ. by rewrite Hs'.
    + apply runs_ret. apply IH; [done|]. done.
Qed.

Lemma scanModule_runs (mc : value) (n : nat) (p : string) (s : pstate) :
  plainHeap (p_heap s) = true → truthy mc = true →
  runs (scanModule mc n p) s
    (λ _ s', evolves (p_heap s) (p_heap s') ∧
             patched_where_found (p_heap s) (p_heap s') mc p).
Proof.
  intros Hh Hmc. unfold scanModule.
  apply runs_bind, runs_readProp; [done|done|]. intros mo Hmo.
  apply runs_bind.
  destruct (truthy mo) eqn:Tmo.
  2:{ apply runs_ret. rewrite Tmo. apply runs_ret. split; [by apply evolves_refl|].
      intros ex (mo' & H1 & H2 & _). congruence. }
  apply runs_readProp; [done|done|]. intros g Hg.
  destruct (truthy g) eqn:Tg.
  2:{ apply runs_ret. split; [by apply evolves_refl|].
      intros ex (mo' & H1 & H2 & H3 & H4). congruence. }
  apply runs_bind, runs_readProp; [done|done|]. intros ex Hex.
  assert (ex = g) as -> by congruence. clear Hex.
  apply runs_bind, runs_readProp; [done|done|]. intros dr Hdr.
  apply runs_bind.
  eapply runs_conseq with
    (Q := λ _ s1, evolves (p_heap s) (p_heap s1) ∧
                  (truthy dr = true → bypassedAt (p_heap s1) g)).
  { destruct (truthy dr) eqn:Tdr.
    - apply runs_bind, runs_log. apply runs_bind.
      eapply runs_conseq;
        [apply patchSignatureFunction_runs; [done|by exists dr]|].
      intros [] s1 [He Hb]. by apply runs_ret.
    - apply runs_ret. split; [by apply evolves_refl|done]. }
  intros c1 s1 [He1 Hb1].
  assert (plainHeap (p_heap s1) = true) as Hh1 by apply He1.
  apply runs_bind, runs_readProp; [done|done|]. intros df Hdf.
  apply runs_bind.
  eapply runs_conseq with
    (Q := λ vd s1', s1' = s1 ∧
                    (truthy vd = true → truthy df = true) ∧
                    (truthy df = true →
                     getProp (p_heap s1) df verifyName = Fulfilled vd)).
  { destruct (truthy df) eqn:Tdf.
    - apply runs_bind, runs_readProp; [done|done|]. intros d Hd.
      assert (d = df) as -> by congruence.
      apply runs_readProp; [done|done|]. intros vd Hvd. by split_and!.
    - apply runs_ret. split_and!; [done|congruence|done]. }
  intros vd ? (-> & Hvd1 & Hvd2).
  apply runs_bind.
  eapply runs_conseq with
    (Q := λ _ s2, evolves (p_heap s1) (p_heap s2) ∧
                  (truthy vd = true → bypassedAt (p_heap s2) df)).
  { destruct (truthy vd) eqn:Tvd.
    - pose proof (Hvd1 eq_refl) as Tdf. pose proof (Hvd2 Tdf) as Hgv.
      apply runs_bind, runs_log.
      apply runs_bind, runs_readProp; [done|done|]. cbn [p_heap].
      intros d Hd. assert (d = df) as -> by congruence.
      apply runs_bind.
      eapply runs_conseq;
        [apply patchSignatureFunction_runs; [done|by exists vd]|].
      intros [] s2 [He Hb]. by apply runs_ret.
    - apply runs_ret. split; [by apply evolves_refl|done]. }
  intros c2 s2 [He2 Hb2].
  apply runs_bind, runs_keysOf; [done|]. intros keys _.
  apply runs_bind, keyScan_runs; [apply He2|done|]. intros s3 Hs3.
  apply runs_ret. rewrite Hs3.
  assert (evolves (p_heap s) (p_heap s2)) as He by (by eapply evolves_trans).
  split; [done|].
  intros ex (mo' & H1 & H2 & H3 & H4).
  assert (mo' = mo) as -> by congruence. assert (ex = g) as -> by congruence.
  split.
  - intros (v & Hv & Tv). assert (v = dr) as -> by congruence.
    eapply evolves_bypassedAt; [apply He1|apply He2|by apply Hb1].
  - intros d Hd Hfd.
    pose proof (evolves_defaultOf _ _ _ _ Hh He1 Hd) as [Hd1 Td].
    assert (df = d) as -> by congruence.
    destruct (evolves_found _ _ _ Hh He1 Hfd) as (v & Hv & Tv).
    pose proof (Hvd2 Td) as Hvd. assert (vd = v) as -> by congruence.
    by apply Hb2.
Qed.

Lemma scanModules_runs (mc : value) (mods : list string) (n : nat) (s : pstate) :
  plainHeap (p_heap s) = true → truthy mc = true →
  (∀ p, p ∈ mods → p ≠ verifyName) →
  runs (forEachCounting (scanModule mc) n mods) s
    (λ _ s', evolves (p_heap s) (p_heap s') ∧
             ∀ p, p ∈ mods → patched_where_found (p_heap s) (p_heap s') mc p).
Proof.
  intros Hh Hmc. revert n s Hh.
  induction mods as [|p0 mods IH]; intros n s Hh Hne.
  - apply runs_ret. split; [by apply evolves_refl|]. intros p Hp. by apply elem_of_nil in Hp.
  - cbn [forEachCounting]. apply runs_bind.
    eapply runs_conseq; [by apply scanModule_runs|]. intros c1 s1 [He1 Hp1].
    assert (plainHeap (p_heap s1) = true) as Hh1 by apply He1.
    eapply runs_conseq.
    { apply IH; [done|]. intros p Hp. apply Hne. by right. }
    intros c2 s2 [He2 Hp2]. split; [by eapply evolves_trans|].
    intros p Hin ex Hex. apply elem_of_cons in Hin as [->|Hin].
    + destruct (Hp1 ex Hex) as [Ha Hb]. split.
      * intros Hf. eapply evolves_bypassedAt; [exact Hh1|exact He2|by apply Ha].
      * intros d Hd Hfd.
        eapply evolves_bypassedAt; [exact Hh1|exact He2|by apply Hb].
    + assert (p ≠ verifyName) as Hp by (apply Hne; by right).
      pose proof (evolves_exportsOf _ _ _ _ _ Hh He1 Hp Hex) as Hex1.
      destruct (Hp2 p Hin ex Hex1) as [Ha Hb]. split.
      * intros Hf. apply Ha. exact (evolves_found _ _ _ Hh He1 Hf).
      * intros d Hd Hfd. apply Hb.
        -- exact (evolves_defaultOf _ _ _ _ Hh He1 Hd).
        -- exact (evolves_found _ _ _ Hh He1 Hfd).
Qed.

Lemma isSdkModule_not_verifyName (p : string) : isSdkModule p = true → p ≠ verifyName.
Proof. intros Hp ->. vm_compute in Hp. discriminate. Qed.

Lemma findAndPatch_runs (r : Require) (s : pstate) :
  plainHeap (p_heap s) = true → truthy (cache r) = true →
  runs (findAndPatch (Some r)) s
    (λ _ s', evolves (p_heap s) (p_heap s') ∧
             ∀ p, isSdkModule p = true →
                  patched_where_found (p_heap s) (p_heap s') (cache r) p).
Proof.
  intros Hh Hc. unfold findAndPatch, requireCache.
  apply runs_bind, runs_ret. rewrite Hc. apply runs_bind, runs_ret.
  apply runs_bind, runs_keysOf; [done|]. intros ks Hks.
  apply runs_bind, runs_keysOf; [done|]. intros ks' _.
  apply runs_bind, runs_log. unfold scanModules.
  eapply runs_conseq.
  { apply scanModules_runs; [done|done|]. intros p Hp.
    apply list_elem_of_filter in Hp as [Hp _]. by apply isSdkModule_not_verifyName. }
  cbn [p_heap]. intros c s1 [He Hall]. split; [done|].
  intros p Hp ex Hex. apply (Hall p); [|done].
  destruct Hex as (mo & H1 & H2 & _).
  destruct (getProp_truthy_key _ _ _ _ Hh H1 H2) as (ks0 & Hks0 & Hin).
  assert (ks0 = ks) as -> by congruence. by apply list_elem_of_filter.
Qed.

Lemma cacheApproach_heap (r : Require) (s : pstate) :
  plainHeap (p_heap s) = true → truthy (cache r) = true →
  fst (scanCache (Some r) s) = Fulfilled tt ∧
  evolves (p_heap s) (p_heap (snd (cacheApproach (Some r) s))) ∧
  ∀ p, isSdkModule p = true →
       patched_where_found (p_heap s) (p_heap (snd (cacheApproach (Some r) s)))
         (cache r) p.
Proof.
  intros Hh Hc.
  destruct (findAndPatch_runs r s Hh Hc) as (c & s1 & Hrun & He & Hall).
  assert (∃ s2, scanCache (Some r) s = (Fulfilled tt, s2) ∧ p_heap s2 = p_heap s1)
    as (s2 & Hscan & Hs2).
  { unfold scanCache. rewrite bind_run, Hrun. destruct (0 <? c)%nat; by eexists. }
  rewrite (cacheApproach_success (Some r) s s2 Hscan), Hscan. simpl.
  by rewrite Hs2.
Qed.

Lemma invoke_installed (h : heap) (f : value) :
  isInstalled h f = true →
  ∃ modulePath,
    ∀ st, p_heap st = h → resolves_for_all_arguments verifyName modulePath f st.
Proof.
  intros Hb. destruct f as [| |b|n|str|l]; try done.
  unfold isInstalled in Hb.
  destruct (h !! l) as [o|] eqn:Hl; [|done].
  destruct (obj_call o) as [|name|fn mp] eqn:Hc; try done.
  apply String.eqb_eq in Hb as ->. exists mp. intros st <- args.
  unfold invoke. by rewrite Hl, Hc.
Qed.

End PatcherInstalls.

(** ** Capability patcher: any registry *)

Section HeapRelations.
Import Js Bypass BypassSpec.

Lemma isInstalled_isBypass (h : heap) (v : value) :
  isInstalled h v = true → isBypass h v = true.
Proof.
  destruct v as [| |b|n|str|l]; try done. simpl.
  destruct (h !! l) as [o|]; [|done]. by destruct (obj_call o).
Qed.

Lemma patched_only_grows (h h' : heap) : patched_only h h' → grows h h'.
Proof.
  intros H l o Hl. destruct (H l o Hl) as (o' & Hl' & Hc & Hk & Hv).
  exists o'. split_and!; [done|done| |].
  - intros k p Hne Hp. by rewrite Hk.
  - intros p Hp. destruct Hv as [Hv|Hv]; [left; by rewrite Hv|by right].
Qed.

Lemma patched_only_refl (h : heap) : patched_only h h.
Proof. intros l o Hl. exists o. split_and!; eauto. Qed.

Lemma grows_refl (h : heap) : grows h h.
Proof. apply patched_only_grows, patched_only_refl. Qed.

Lemma grows_isInstalled (h h' : heap) (v : value) :
  grows h h' → isInstalled h v = true → isInstalled h' v = true.
Proof.
  intros He Hb. destruct v as [| |b|n|str|l]; try done. unfold isInstalled in *.
  destruct (h !! l) as [o|] eqn:Hl; [|done].
  destruct (He l o Hl) as (o' & Hl' & Hc & _). by rewrite Hl', Hc.
Qed.

Lemma grows_isBypass (h h' : heap) (v : value) :
  grows h h' → isBypass h v = true → isBypass h' v = true.
Proof.
  intros He Hb. destruct v as [| |b|n|str|l]; try done. unfold isBypass in *.
  destruct (h !! l) as [o|] eqn:Hl; [|done].
  destruct (He l o Hl) as (o' & Hl' & Hc & _). by rewrite Hl', Hc.
Qed.

Lemma patched_only_trans (h1 h2 h3 : heap) :
  patched_only h1 h2 → patched_only h2 h3 → patched_only h1 h3.
Proof.
  intros H12 H23 l o Hl.
  destruct (H12 l o Hl) as (o2 & Hl2 & Hc2 & Hk2 & Hv2).
  destruct (H23 l o2 Hl2) as (o3 & Hl3 & Hc3 & Hk3 & Hv3).
  exists o3. split_and!; [done|congruence| |].
  - intros k Hk. by rewrite Hk3, Hk2.
  - destruct Hv3 as [Hv3|Hv3]; [|by right].
    rewrite Hv3. destruct Hv2 as [Hv2|(l' & Hv2 & Hb)]; [by left|].
    right. exists l'. split; [done|].
    eapply grows_isInstalled; [|done]. by apply patched_only_grows.
Qed.

Lemma grows_trans (h1 h2 h3 : heap) : grows h1 h2 → grows h2 h3 → grows h1 h3.
Proof.
  intros H12 H23 l o Hl.
  destruct (H12 l o Hl) as (o2 & Hl2 & Hc2 & Hk2 & Hv2).
  destruct (H23 l o2 Hl2) as (o3 & Hl3 & Hc3 & Hk3 & Hv3).
  exists o3. split_and!; [done|congruence| |].
  - intros k p Hne Hp. apply Hk3; [done|]. by apply Hk2.
  - intros p Hp. destruct (Hv2 p Hp) as [Hv|(l' & Hv & Hb)].
    + by apply Hv3.
    + destruct (Hv3 _ Hv) as [Hv'|Hv']; [|by right].
      right. exists l'. split; [done|]. by eapply grows_isInstalled.
Qed.

Lemma patched_only_app (h : heap) (objs : list object) : patched_only h (h ++ objs).
Proof.
  intros l o Hl. exists o. split_and!; eauto. by apply lookup_app_l_Some.
Qed.

(** An existing property with a truthy value is still there. *)
Lemma grows_getProp (h h' : heap) (v : value) (k : string) (x : value) :
  grows h h' → k ≠ verifyName →
  getProp h v k = Fulfilled x → truthy x = true →
  getProp h' v k = Fulfilled x.
Proof.
  intros He Hk Hg Hx.
  destruct v as [| |b|n|str|l]; simpl in *;
    try done; try (by (revert Hg; intros [= <-])).
  destruct (h !! l) as [o|] eqn:Hl; [|by (revert Hg; intros [= <-])].
  destruct (He l o Hl) as (o' & Hl' & _ & Hkeep & _). rewrite Hl'.
  destruct (assoc k (obj_props o)) as [p|] eqn:Ha; [|by (revert Hg; intros [= <-])].
  by rewrite (Hkeep k p Hk Ha).
Qed.

(** A verification member with a truthy value is kept or has become an
    installed override. *)
Lemma grows_member (h h' : heap) (obj v : value) :
  grows h h' →
  getProp h obj verifyName = Fulfilled v → truthy v = true →
  getProp h' obj verifyName = Fulfilled v ∨
  ∃ l', getProp h' obj verifyName = Fulfilled (VObject l') ∧
        isInstalled h' (VObject l') = true.
Proof.
  intros He Hg Hx.
  destruct obj as [| |b|n|str|l]; simpl in *;
    try done; try (by (revert Hg; intros [= <-])).
  destruct (h !! l) as [o|] eqn:Hl; [|by (revert Hg; intros [= <-])].
  destruct (He l o Hl) as (o' & Hl' & _ & _ & Hv). rewrite Hl'.
  destruct (assoc verifyName (obj_props o)) as [p|] eqn:Ha;
    [|by (revert Hg; intros [= <-])].
  destruct (Hv p eq_refl) as [Hp|(l' & Hp & Hb)]; rewrite Hp.
  - by left.
  - right. by exists l'.
Qed.

Lemma grows_found (h h' : heap) (obj : value) : grows h h' → found h obj → found h' obj.
Proof.
  intros He (v & Hg & Hv).
  destruct (grows_member h h' obj v He Hg Hv) as [H|(l' & H & _)].
  - by exists v.
  - by exists (VObject l').
Qed.

Lemma grows_bypassedAt (h h' : heap) (obj : value) :
  grows h h' → bypassedAt h obj → bypassedAt h' obj.
Proof.
  intros He (l & Hg & Hb).
  destruct (grows_member h h' obj (VObject l) He Hg eq_refl) as [H|(l' & H & Hi)].
  - exists l. split; [done|]. by eapply grows_isBypass.
  - exists l'. split; [done|]. by apply isInstalled_isBypass.
Qed.

Lemma grows_installedAt (h h' : heap) (obj : value) :
  grows h h' → installedAt h obj → installedAt h' obj.
Proof.
  intros He (l & Hg & Hb).
  destruct (grows_member h h' obj (VObject l) He Hg eq_refl) as [H|(l' & H & Hi)].
  - exists l. split; [done|]. by eapply grows_isInstalled.
  - by exists l'.
Qed.

Lemma grows_exportsOf (h h' : heap) (mc : value) (p : string) (ex : value) :
  grows h h' → p ≠ verifyName → exportsOf h mc p ex → exportsOf h' mc p ex.
Proof.
  intros He Hp (mo & H1 & H2 & H3 & H4). exists mo.
  split_and!; try done; by eapply grows_getProp.
Qed.

Lemma grows_defaultOf (h h' : heap) (ex d : value) :
  grows h h' → defaultOf h ex d → defaultOf h' ex d.
Proof. intros He [H1 H2]. split; [|done]. by eapply grows_getProp. Qed.

(** Registering a module adds a key to the cache object. *)
Lemma grows_registerModule (c : value) (h : heap) (entry : string * value) :
  grows h (registerModule c h entry).
Proof.
  unfold registerModule. destruct c as [| |b|n|str|l]; try apply grows_refl.
  destruct (h !! l) as [o|] eqn:Hl; [|apply grows_refl].
  destruct (assoc entry.1 (obj_props o)) as [q|] eqn:Ha; [apply grows_refl|].
  assert (l < length h)%nat as Hlt by (by eapply lookup_lt_Some).
  intros l0 o0 Hl0. destruct (decide (l0 = l)) as [->|Hne].
  - assert (o0 = o) as -> by congruence.
    eexists. split; [by apply list_lookup_insert_eq|]. simpl.
    split_and!; [done| |].
    + intros k p Hk Hp. rewrite assoc_set_ne; [done|]. intros ->. congruence.
    + intros p Hp. left. rewrite assoc_set_ne; [done|]. intros E.
      rewrite E in Hp. congruence.
  - exists o0. rewrite list_lookup_insert_ne by done. split_and!; eauto.
Qed.

Lemma grows_foldl_register (c : value) (entries : list (string * value)) (h : heap) :
  grows h (foldl (registerModule c) h entries).
Proof.
  revert h. induction entries as [|e entries IH]; intros h; simpl.
  - apply grows_refl.
  - eapply grows_trans; [apply grows_registerModule|apply IH].
Qed.

Lemma grows_loadInto (c : value) (h : heap) (ld : Loaded) : grows h (loadInto c h ld).
Proof.
  unfold loadInto. eapply grows_trans; [|apply grows_foldl_register].
  apply patched_only_grows, patched_only_app.
Qed.

(** Assigning an installed override to a verification member. *)
Lemma setProp_patched (h h2 : heap) (obj : value) (l' : loc) :
  setProp h obj verifyName (VObject l') = Fulfilled h2 →
  isInstalled h (VObject l') = true →
  patched_only h h2.
Proof.
  intros Hset Hb. destruct obj as [| |b|n|str|l]; try done. simpl in Hset.
  destruct (h !! l) as [o|] eqn:Hl; [|revert Hset; intros [= <-]; apply patched_only_refl].
  assert (l < length h)%nat as Hlt by (by eapply lookup_lt_Some).
  assert (h2 = <[l := mkObject (obj_call o)
                        (assoc_set verifyName (DataProperty (VObject l') true)
                           (obj_props o))]> h) as ->.
  { destruct (assoc verifyName (obj_props o)) as [[x [|]|g]|]; by inversion Hset. }
  assert (isInstalled (<[l := mkObject (obj_call o)
                        (assoc_set verifyName (DataProperty (VObject l') true)
                           (obj_props o))]> h) (VObject l') = true) as Hb'.
  { unfold isInstalled in *. destruct (decide (l' = l)) as [->|Hne].
    - rewrite list_lookup_insert_eq by done. simpl. by rewrite Hl in Hb.
    - by rewrite list_lookup_insert_ne. }
  intros l0 o0 Hl0. destruct (decide (l0 = l)) as [->|Hne].
  - assert (o0 = o) as -> by congruence.
    eexists. split; [by apply list_lookup_insert_eq|]. simpl.
    split_and!; [done| |].
    + intros k Hk. by apply assoc_set_ne.
    + right. exists l'. split; [apply assoc_set_eq|exact Hb'].
  - exists o0. rewrite list_lookup_insert_ne by done. split_and!; eauto.
Qed.

(** Where an object holds something truthy under a key, the object
    exists and has the key. *)
Lemma getProp_truthy_has (h : heap) (v : value) (k : string) (x : value) :
  getProp h v k = Fulfilled x → truthy x = true →
  ∃ l o p, v = VObject l ∧ h !! l = Some o ∧ assoc k (obj_props o) = Some p.
Proof.
  intros Hg Hx.
  destruct v as [| |b|n|str|l]; simpl in *;
    try done; try (by (revert Hg; intros [= <-])).
  destruct (h !! l) as [o|] eqn:Hl; [|by (revert Hg; intros [= <-])].
  destruct (assoc k (obj_props o)) as [p|] eqn:Ha; [|by (revert Hg; intros [= <-])].
  by exists l, o, p.
Qed.

Lemma getProp_truthy_listed (h : heap) (v : value) (k : string) (x : value) :
  getProp h v k = Fulfilled x → truthy x = true →
  ∃ ks, objectKeys h v = Fulfilled ks ∧ k ∈ ks.
Proof.
  intros Hg Hx.
  destruct (getProp_truthy_has h v k x Hg Hx) as (l & o & p & -> & Hl & Ha).
  exists (obj_props o).*1. simpl. rewrite Hl. split; [done|]. by eapply assoc_key.
Qed.

End HeapRelations.

Section HeapWithin.
Import Js Bypass BypassSpec.
Context (R : heap → heap → Prop).
Context (R_refl : ∀ h, R h h) (R_trans : ∀ h1 h2 h3, R h1 h2 → R h2 h3 → R h1 h3).

Lemma within_same {A} (m : Sync A) :
  (∀ s, p_heap (snd (m s)) = p_heap s) → heap_within R m.
Proof. intros H s. rewrite H. apply R_refl. Qed.

Lemma within_inspects {A} (m : Sync A) : inspects_only m → heap_within R m.
Proof. intros H. apply within_same. intros s. by destruct (H s). Qed.

Lemma within_ret {A} (a : A) : heap_within R (mret a : Sync A).
Proof. by apply within_same. Qed.

Lemma within_log (lv : level) (msg : string) (fields : list (string * field)) :
  heap_within R (log lv msg fields).
Proof. by apply within_same. Qed.

Lemma within_bind {A B} (m : Sync A) (k : A → Sync B) :
  heap_within R m → (∀ a, heap_within R (k a)) → heap_within R (m ≫= k).
Proof.
  intros Hm Hk s. rewrite bind_run. specialize (Hm s).
  destruct (m s) as [[a|e] s1]; simpl in *; [|done].
  eapply R_trans; [exact Hm|apply Hk].
Qed.

Lemma within_try_catch {A} (body : Sync A) (handler : exn → Sync A) :
  heap_within R body → (∀ e, heap_within R (handler e)) →
  heap_within R (try_catch body handler).
Proof.
  intros Hm Hk s. unfold try_catch. specialize (Hm s).
  destruct (body s) as [[a|e] s1]; simpl in *; [done|].
  eapply R_trans; [exact Hm|apply Hk].
Qed.

Lemma within_forEach {A} (f : A → Sync unit) (l : list A) :
  (∀ x, heap_within R (f x)) → heap_within R (forEach f l).
Proof.
  intros Hf. induction l as [|x l IH]; simpl.
  - apply (within_ret tt).
  - apply within_bind; [apply Hf|intros _; apply IH].
Qed.

Lemma within_forEachCounting {A} (f : nat → A → Sync nat) (l : list A) (n : nat) :
  (∀ c x, heap_within R (f c x)) → heap_within R (forEachCounting f n l).
Proof.
  intros Hf. revert n. induction l as [|x l IH]; intros n; simpl.
  - apply (within_ret n).
  - apply within_bind; [apply Hf|intros c; apply IH].
Qed.

End HeapWithin.

Section PatcherWithin.
Import Js Bypass BypassSpec.

Lemma patchSignatureFunction_within (obj : value) (modulePath : string) :
  heap_within patched_only (patchSignatureFunction obj verifyName modulePath).
Proof.
  intros s. unfold patchSignatureFunction. rewrite bind_run. unfold readProp at 1.
  destruct (getProp (p_heap s) obj verifyName) as [v|e]; [|apply patched_only_refl].
  rewrite bind_run. unfold alloc at 1. rewrite bind_run. unfold writeProp at 1.
  cbn [p_heap p_logs p_timers].
  set (h1 := p_heap s ++ [mkObject (SignatureBypass verifyName modulePath) []]).
  assert (isInstalled h1 (VObject (length (p_heap s))) = true) as Hb.
  { unfold isInstalled, h1. by rewrite list_lookup_middle. }
  destruct (setProp h1 obj verifyName (VObject (length (p_heap s)))) as [h2|e] eqn:Hset.
  - simpl. eapply patched_only_trans; [apply patched_only_app|].
    by eapply setProp_patched.
  - simpl. apply patched_only_app.
Qed.

(** Patching an object that holds something under the verification name
    either throws or installs an override there. *)
Lemma patchSignatureFunction_installs (obj : value) (modulePath : string)
    (s s' : pstate) :
  patchSignatureFunction obj verifyName modulePath s = (Fulfilled tt, s') →
  found (p_heap s) obj →
  installedAt (p_heap s') obj.
Proof.
  intros H (v & Hg & Hv).
  destruct (getProp_truthy_has _ _ _ _ Hg Hv) as (l & o & p & -> & Hl & Ha).
  assert (l < length (p_heap s))%nat as Hlt by (by eapply lookup_lt_Some).
  revert H. unfold patchSignatureFunction. rewrite bind_run. unfold readProp at 1.
  rewrite Hg. rewrite bind_run. unfold alloc at 1. rewrite bind_run.
  unfold writeProp at 1. cbn [p_heap p_logs p_timers].
  set (b := mkObject (SignatureBypass verifyName modulePath) []).
  assert ((p_heap s ++ [b]) !! l = Some o) as Hl1 by (by apply lookup_app_l_Some).
  unfold setProp. rewrite Hl1, Ha.
  destruct p as [x [|]|g]; try (by intros [=]).
  unfold log. intros [= <-]. cbn [p_heap].
  exists (length (p_heap s)). split.
  - simpl. rewrite list_lookup_insert_eq by (rewrite length_app; simpl; lia).
    simpl. by rewrite assoc_set_eq.
  - unfold isInstalled. rewrite list_lookup_insert_ne by lia.
    by rewrite list_lookup_middle.
Qed.

Ltac po_same := by apply (within_same _ patched_only_refl).
Ltac po_bind := apply (within_bind _ patched_only_trans).

Lemma scanModule_within (mc : value) (n : nat) (p : string) :
  heap_within patched_only (scanModule mc n p).
Proof.
  unfold scanModule.
  po_bind; [po_same|intros mo].
  po_bind; [|intros g].
  { destruct (truthy mo); po_same. }
  destruct (truthy g); [|po_same].
  po_bind; [po_same|intros ex].
  po_bind; [po_same|intros dr].
  po_bind; [|intros c1].
  { destruct (truthy dr); [|po_same].
    po_bind; [po_same|intros _].
    po_bind; [apply patchSignatureFunction_within|intros _].
    po_same. }
  po_bind; [po_same|intros df].
  po_bind; [|intros vd].
  { destruct (truthy df); [|po_same].
    po_bind; [po_same|intros d].
    po_same. }
  po_bind; [|intros c2].
  { destruct (truthy vd); [|po_same].
    po_bind; [po_same|intros _].
    po_bind; [po_same|intros d].
    po_bind; [apply patchSignatureFunction_within|intros _].
    po_same. }
  po_bind; [po_same|intros keys].
  po_bind; [|intros _; po_same].
  apply (within_inspects _ patched_only_refl). apply keyScan_inspects.
Qed.

Lemma findAndPatch_within (require : option Require) :
  heap_within patched_only (findAndPatch require).
Proof.
  unfold findAndPatch.
  po_bind; [|intros c].
  { unfold requireCache. destruct require; po_same. }
  po_bind; [|intros mc].
  { destruct (truthy c); [po_same|].
    intros s. simpl. apply patched_only_app. }
  po_bind; [po_same|intros ks].
  po_bind; [po_same|intros ks'].
  po_bind; [po_same|intros _].
  apply (within_forEachCounting _ patched_only_refl patched_only_trans). intros c0 x. apply scanModule_within.
Qed.

Lemma cacheApproach_within (require : option Require) :
  heap_within patched_only (cacheApproach require).
Proof.
  apply (within_try_catch _ patched_only_trans); [|intros e; po_same].
  unfold scanCache. po_bind; [apply findAndPatch_within|intros n].
  destruct (0 <? n)%nat; po_same.
Qed.

Lemma requireModule_grows (require : option Require) (name : string) :
  heap_within grows (requireModule require name).
Proof.
  intros s. unfold requireModule. destruct require as [r|]; [|apply grows_refl].
  destruct (load r name (p_heap s)) as [ld|e]; simpl; [|apply grows_refl].
  apply grows_loadInto.
Qed.

Lemma afterRequires_grows (require : option Require) (h : heap) :
  grows h (afterRequires require h).
Proof.
  unfold afterRequires. eapply grows_trans; [|apply requireModule_grows].
  apply (requireModule_grows require _ (initial h)).
Qed.

Lemma patchLoadedModules_grows (require : option Require) :
  heap_within grows (patchLoadedModules require).
Proof.
  intros s. rewrite patchLoadedModules_eq, namedApproach_heap.
  eapply grows_trans; [|apply afterRequires_grows].
  apply patched_only_grows, cacheApproach_within.
Qed.

Lemma runTimer_eq (rq : option Require) (task : timer_task) (s : pstate) :
  runTimer rq task s = patchLoadedModules rq s.
Proof.
  destruct task. unfold runTimer, try_catch.
  pose proof (patchLoadedModules_total rq s) as Ht.
  by destruct (patchLoadedModules rq s) as [[[]|e] s2].
Qed.

Lemma fireTimers_grows (require : option Require) (tasks : list (timer_task * nat)) :
  heap_within grows (fireTimers require tasks).
Proof.
  induction tasks as [|[task d] tasks IH]; simpl.
  - intros s. apply grows_refl.
  - apply (within_bind _ grows_trans); [|intros _; exact IH].
    intros s. rewrite runTimer_eq. apply patchLoadedModules_grows.
Qed.

(** *** What a completed scan has installed *)

Lemma exportsOf_truthy (h : heap) (mc : value) (p : string) (ex : value) :
  exportsOf h mc p ex → truthy mc = true.
Proof.
  intros (mo & H1 & H2 & _).
  by destruct (getProp_truthy_has _ _ _ _ H1 H2) as (l & o & q & -> & _).
Qed.

Lemma scanModule_installs (mc : value) (n : nat) (p : string) (s s' : pstate) (n' : nat) :
  scanModule mc n p s = (Fulfilled n', s') →
  p ≠ verifyName →
  installed_where_found (p_heap s) (p_heap s') mc p.
Proof.
  intros H Hp ex (mo & Hmo & Hmt & Hex & Hext).
  revert H. unfold scanModule.
  rewrite bind_run. unfold readProp at 1. rewrite Hmo.
  rewrite bind_run, Hmt. unfold readProp at 1. rewrite Hex, Hext.
  rewrite bind_run. unfold readProp at 1. rewrite Hex.
  rewrite bind_run. unfold readProp at 1.
  destruct (getProp (p_heap s) ex verifyName) as [dr|e] eqn:Hdr; [|by intros [=]].
  intros H. apply bind_inv in H as (c1 & s5 & Hc1 & H).
  assert (patched_only (p_heap s) (p_heap s5) ∧
          (found (p_heap s) ex → installedAt (p_heap s5) ex)) as [R1 D1].
  { destruct (truthy dr) eqn:Htr.
    - apply bind_inv in Hc1 as ([] & s1 & Hlog & Hc1).
      apply bind_inv in Hc1 as ([] & s2 & Hpatch & Hc1).
      revert Hc1; intros [= _ <-]. revert Hlog; intros [= <-].
      split.
      + pose proof (patchSignatureFunction_within ex p
                      (mkPState (p_heap s)
                         (p_logs s ++ [mkLog loggerName Info
                            "Found verifySignatureWithJwks in exports, patching..." []])
                         (p_timers s))) as Hw.
        by rewrite Hpatch in Hw.
      + intros Hf. by apply (patchSignatureFunction_installs ex p _ _ Hpatch).
    - revert Hc1; intros [= _ <-]. split; [apply patched_only_refl|].
      intros (v & Hg & Hv). congruence. }
  pose proof (patched_only_grows _ _ R1) as G1.
  apply bind_inv in H as (df & s6 & Hdf & H).
  revert Hdf. unfold readProp. intros [= Hdf <-].
  apply bind_inv in H as (vd & s7 & Hvd & H).
  assert (s7 = s5 ∧
          (truthy df = true → ∃ d, df = d ∧ getProp (p_heap s5) d verifyName = Fulfilled vd) ∧
          (truthy df = false → vd = df)) as (-> & Hvd1 & Hvd2).
  { destruct (truthy df).
    - apply bind_inv in Hvd as (d & s0 & Hd & Hvd). revert Hd. unfold readProp.
      intros [= Hd <-]. revert Hvd. unfold readProp. intros [= Hvd <-].
      split_and!; [done| |done]. intros _. exists d. split; [congruence|done].
    - revert Hvd; intros [= <- <-]. by split_and!. }
  apply bind_inv in H as (c2 & s8 & Hc2 & H).
  assert (patched_only (p_heap s5) (p_heap s8) ∧
          (∀ d, defaultOf (p_heap s) ex d → found (p_heap s) d →
                installedAt (p_heap s8) d)) as [R2 D2].
  { destruct (truthy vd) eqn:Htv.
    - apply bind_inv in Hc2 as ([] & s1 & Hlog & Hc2).
      apply bind_inv in Hc2 as (d' & s2 & Hd' & Hc2).
      apply bind_inv in Hc2 as ([] & s3 & Hpatch & Hc2).
      revert Hc2; intros [= _ <-]. revert Hlog; intros [= <-].
      revert Hd'. unfold readProp. cbn [p_heap]. intros [= Hd' <-].
      split.
      + pose proof (patchSignatureFunction_within d' (p +:+ ".default")
                      (mkPState (p_heap s5)
                         (p_logs s5 ++ [mkLog loggerName Info
                            "Found verifySignatureWithJwks in default export, patching..."
                            []])
                         (p_timers s5))) as Hw.
        by rewrite Hpatch in Hw.
      + intros d Hd Hfd.
        pose proof (grows_defaultOf _ _ _ _ G1 Hd) as [Hd5 Hdt].
        assert (d' = d) as -> by congruence.
        apply (patchSignatureFunction_installs d (p +:+ ".default") _ _ Hpatch).
        cbn [p_heap]. by eapply grows_found.
    - revert Hc2; intros [= _ <-]. split; [apply patched_only_refl|].
      intros d Hd Hfd. exfalso.
      pose proof (grows_defaultOf _ _ _ _ G1 Hd) as [Hd5 Hdt].
      assert (df = d) as -> by congruence.
      destruct (Hvd1 Hdt) as (d0 & <- & Hv).
      destruct (grows_found _ _ _ G1 Hfd) as (v & Hg & Hvt). congruence. }
  apply bind_inspect_inv in H as (keys & s9 & Hh9 & H); [|apply inspects_state_read].
  apply bind_inspect_inv in H as (u & s10 & Hh10 & H); [|apply keyScan_inspects].
  revert H; intros [= _ <-].
  rewrite Hh10, Hh9. split.
  - intros Hf. eapply grows_installedAt; [apply patched_only_grows, R2|]. by apply D1.
  - exact D2.
Qed.

Lemma installed_where_found_later (h h1 h' : heap) (mc : value) (p : string) :
  installed_where_found h h1 mc p → grows h1 h' → installed_where_found h h' mc p.
Proof.
  intros H G ex Hex. destruct (H ex Hex) as [H1 H2]. split.
  - intros Hf. eapply grows_installedAt; [exact G|]. by apply H1.
  - intros d Hd Hf. eapply grows_installedAt; [exact G|]. by apply H2.
Qed.

Lemma installed_where_found_earlier (h h1 h' : heap) (mc : value) (p : string) :
  grows h h1 → p ≠ verifyName →
  installed_where_found h1 h' mc p → installed_where_found h h' mc p.
Proof.
  intros G Hp H ex Hex.
  destruct (H ex (grows_exportsOf _ _ _ _ _ G Hp Hex)) as [H1 H2]. split.
  - intros Hf. apply H1. by eapply grows_found.
  - intros d Hd Hf. apply H2; [by eapply grows_defaultOf|by eapply grows_found].
Qed.

Lemma scanModules_installs (mc : value) (mods : list string) (n : nat) (s s' : pstate)
    (n' : nat) :
  forEachCounting (scanModule mc) n mods s = (Fulfilled n', s') →
  (∀ p, p ∈ mods → p ≠ verifyName) →
  ∀ p, p ∈ mods → installed_where_found (p_heap s) (p_heap s') mc p.
Proof.
  revert n s. induction mods as [|p0 mods IH]; intros n s H Hne p Hin.
  - by apply elem_of_nil in Hin.
  - simpl in H. apply bind_inv in H as (c & s1 & H1 & H2).
    pose proof (scanModule_within mc n p0 s) as G1. rewrite H1 in G1. simpl in G1.
    pose proof (within_forEachCounting patched_only patched_only_refl patched_only_trans
                  (scanModule mc) mods c (scanModule_within mc) s1) as G2.
    rewrite H2 in G2. simpl in G2.
    apply elem_of_cons in Hin as [->|Hin].
    + eapply installed_where_found_later; [|apply patched_only_grows, G2].
      eapply scanModule_installs; [exact H1|]. apply Hne. by left.
    + eapply installed_where_found_earlier;
        [apply patched_only_grows, G1|apply Hne; by right|].
      eapply IH; [exact H2| |done]. intros q Hq. apply Hne. by right.
Qed.

Lemma isSdkModule_not_verify (p : string) : isSdkModule p = true → p ≠ verifyName.
Proof. intros Hp ->. vm_compute in Hp. discriminate. Qed.

Lemma findAndPatch_installs (r : Require) (s s' : pstate) (n : nat) :
  findAndPatch (Some r) s = (Fulfilled n, s') →
  ∀ p, isSdkModule p = true →
       installed_where_found (p_heap s) (p_heap s') (cache r) p.
Proof.
  intros H p Hp ex Hex. pose proof (exportsOf_truthy _ _ _ _ Hex) as Hc.
  revert H. unfold findAndPatch, requireCache. rewrite bind_run.
  change ((mret (cache r) : Sync value) s) with (Fulfilled (cache r), s).
  cbv beta iota. rewrite Hc. rewrite bind_run.
  change ((mret (cache r) : Sync value) s) with (Fulfilled (cache r), s).
  cbv beta iota. intros H.
  apply bind_inv in H as (ks & s1 & Hks & H).
  revert Hks. unfold keysOf. intros [= Hks <-].
  apply bind_inv in H as (ks' & s2 & Hks' & H).
  revert Hks'. unfold keysOf. intros [= Hks' <-].
  apply bind_inv in H as ([] & s3 & Hlog & H).
  revert Hlog. unfold log. intros [= <-].
  unfold scanModules in H.
  assert (p ∈ filter (λ key, isSdkModule key = true) ks) as Hin.
  { destruct Hex as (mo & H1 & H2 & _).
    destruct (getProp_truthy_listed _ _ _ _ H1 H2) as (ks0 & Hks0 & Hin).
    assert (ks0 = ks) as -> by congruence. by apply list_elem_of_filter. }
  refine (scanModules_installs _ _ _ _ _ _ H _ p Hin ex Hex).
  intros q Hq. apply list_elem_of_filter in Hq as [Hq _]. by apply isSdkModule_not_verify.
Qed.

(** Where the cache scan runs to its end, every SDK module of the cache
    that exported the verification function has an override in its
    place when approach 1 is over, and still has one after the pass. *)
Lemma completed_scan_installs (r : Require) (s : pstate) :
  fst (scanCache (Some r) s) = Fulfilled tt →
  ∀ p, isSdkModule p = true →
       installed_where_found (p_heap s) (p_heap (snd (cacheApproach (Some r) s)))
         (cache r) p ∧
       installed_where_found (p_heap s) (p_heap (snd (patchLoadedModules (Some r) s)))
         (cache r) p.
Proof.
  intros Hscan p Hp.
  destruct (scanCache (Some r) s) as [o s1] eqn:E. simpl in Hscan. subst o.
  assert (installed_where_found (p_heap s) (p_heap s1) (cache r) p) as Hi.
  { revert E. unfold scanCache. intros E.
    apply bind_inv in E as (n & s0 & Hfind & E).
    assert (p_heap s1 = p_heap s0) as ->.
    { destruct (0 <? n)%nat; revert E; unfold log; by intros [= <-]. }
    by apply (findAndPatch_installs r s s0 n). }
  rewrite patchLoadedModules_eq, namedApproach_heap.
  rewrite (cacheApproach_success (Some r) s s1 E). simpl. split; [done|].
  eapply installed_where_found_later; [exact Hi|apply afterRequires_grows].
Qed.

End PatcherWithin.

Section PatcherInstallsTheorem.
Import Js Bypass BypassSpec.

(** C8, as amended.  Where the scan of the module cache runs to its end,
    as it does on an ordinary registry (writable data properties, a
    module cache present), a patch attempt replaces the verification
    function of every SDK module that exports one, directly or through
    its [default] member, by an override created for
    [verifySignatureWithJwks].  Called with any arguments, in any state
    with the heap the attempt left, the override resolves successfully
    with [undefined] and leaves the heap and the timers as they are; its
    result does not depend on the arguments, which it examines only for
    truthiness: its one effect is a warning whose [hasJwks],
    [hasSignature] and [hasRawBody] fields say which of the first three
    arguments were truthy, next to a function name and a module path that
    are the same for every call. *)
Theorem patcher_installs_override (r : Require) (s : pstate) (modulePath : string)
    (exports : value) :
  let s' := snd (patchLoadedModules (Some r) s) in
  let overridden obj :=
    ∃ l mp,
      getProp (p_heap s') obj verifyName = Fulfilled (VObject l) ∧
      ∀ st args,
        p_heap st = p_heap s' →
        invoke (VObject l) args st =
          Some (Fulfilled VUndefined,
                mkPState (p_heap st)
                  (p_logs st ++
                   [mkLog loggerName Warn
                      "Bypassing JWKS signature verification for invoice webhook"
                      [("reason",
                        FStr "JWKS signature verification issue - needs investigation");
                       ("hasJwks", FBool (truthy (nth 0 args VUndefined)));
                       ("hasSignature", FBool (truthy (nth 1 args VUndefined)));
                       ("hasRawBody", FBool (truthy (nth 2 args VUndefined)));
                       ("patchedModule", segmentField mp);
                       ("functionName", FStr "verifySignatureWithJwks")]])
                  (p_timers st)) in
  fst (patchLoadedModules (Some r) s) = Fulfilled tt ∧
  (plainHeap (p_heap s) = true → truthy (cache r) = true →
   fst (scanCache (Some r) s) = Fulfilled tt) ∧
  (fst (scanCache (Some r) s) = Fulfilled tt →
   isSdkModule modulePath = true →
   exportsOf (p_heap s) (cache r) modulePath exports →
   (found (p_heap s) exports → overridden exports) ∧
   (∀ dflt,
      defaultOf (p_heap s) exports dflt → found (p_heap s) dflt → overridden dflt)).
Proof.
  cbv zeta. split_and!.
  - apply patchLoadedModules_total.
  - intros Hh Hc. by destruct (cacheApproach_heap r s Hh Hc) as [Hscan _].
  - intros Hscan Hp Hex.
    destruct (completed_scan_installs r s Hscan modulePath Hp) as [_ Hall].
    destruct (Hall exports Hex) as [Hdirect Hdefault].
    assert (∀ obj, installedAt (p_heap (snd (patchLoadedModules (Some r) s))) obj →
              ∃ l mp,
                getProp (p_heap (snd (patchLoadedModules (Some r) s))) obj verifyName
                = Fulfilled (VObject l) ∧
                ∀ st, p_heap st = p_heap (snd (patchLoadedModules (Some r) s)) →
                      resolves_for_all_arguments verifyName mp (VObject l) st) as Hinst.
    { intros obj (l & Hg & Hi). destruct (invoke_installed _ _ Hi) as (mp & Hmp).
      by exists l, mp. }
    split.
    + intros Hf. destruct (Hinst _ (Hdirect Hf)) as (l & mp & Hg & Hr).
      exists l, mp. split; [done|]. intros st args Hst. exact (Hr st Hst args).
    + intros d Hd Hf. destruct (Hinst _ (Hdefault d Hd Hf)) as (l & mp & Hg & Hr).
      exists l, mp. split; [done|]. intros st args Hst. exact (Hr st Hst args).
Qed.

Lemma patcher_installs_override_witness :
  ∃ l mp,
    getProp (p_heap (snd (patchLoadedModules sampleRequire (initial sampleHeap))))
      (VObject 2) verifyName = Fulfilled (VObject l) ∧
    ∀ st args,
      p_heap st = p_heap (snd (patchLoadedModules sampleRequire (initial sampleHeap))) →
      invoke (VObject l) args st =
        Some (Fulfilled VUndefined,
              mkPState (p_heap st)
                (p_logs st ++
                 [mkLog loggerName Warn
                    "Bypassing JWKS signature verification for invoice webhook"
                    [("reason",
                      FStr "JWKS signature verification issue - needs investigation");
                     ("hasJwks", FBool (truthy (nth 0 args VUndefined)));
                     ("hasSignature", FBool (truthy (nth 1 args VUndefined)));
                     ("hasRawBody", FBool (truthy (nth 2 args VUndefined)));
                     ("patchedModule", segmentField mp);
                     ("functionName", FStr "verifySignatureWithJwks")]])
                (p_timers st)).
Proof.
  refine (proj1 (proj2 (proj2
    (patcher_installs_override sampleRequireFn (initial sampleHeap) samplePath
       (VObject 2))) eq_refl eq_refl _) _).
  - exists (VObject 1). by split_and!.
  - exists (VObject 3). by split.
Defined.

(** C8 as stated fails.  In the sample registry the
    override is installed but behaves differently on different arguments:
    the warning it emits says which of them were truthy.  And where the
    export is read-only the assignment throws, the scan is abandoned, and
    the library's function stays in place. *)
Lemma override_inspects_arguments_counterexample :
  ¬ replaces_and_ignores sampleRequireFn (initial sampleHeap) samplePath (VObject 2) ∧
  ¬ replaces_and_ignores sampleRequireFn (initial readOnlyHeap) samplePath (VObject 2).
Proof.
  split.
  - intros H. destruct H as (f & Hf & _ & Hi).
    + reflexivity.
    + exists (VObject 1). by split_and!.
    + exists (VObject 3). by split.
    + vm_compute in Hf. revert Hf; intros [= <-].
      specialize (Hi [VString "jwks"; VString "signature"; VString "body"] []).
      vm_compute in Hi. discriminate.
  - intros H. destruct H as (f & Hf & Hb & _).
    + reflexivity.
    + exists (VObject 1). by split_and!.
    + exists (VObject 3). by split.
    + vm_compute in Hf. revert Hf; intros [= <-].
      vm_compute in Hb. discriminate.
Qed.

End PatcherInstallsTheorem.

(** ** The scenarios of the test file and of the specification *)

Section Scenarios.
Import HttpsEnforcingAPL Js Bypass BypassSpec.

Example test_get_tries_https_first :
  get (mockAPL []) "http://example.com/graphql/" (init_world [Fulfilled (Some sampleAuthData)])
  = (Fulfilled (Some (mkAuthData "test-app" "https://example.com/graphql/"
                        "test-token" "test-jwks")),
     mkWorld [] [Called (CGet "https://example.com/graphql/");
                 Settled (CGet "https://example.com/graphql/") true] []).
Proof. reflexivity. Qed.

Example test_get_falls_back_to_original :
  let run := get (mockAPL []) "http://example.com/graphql/"
               (init_world [Fulfilled None; Fulfilled None; Fulfilled (Some sampleAuthData)]) in
  length (queries (trace (snd run))) = 3%nat ∧
  fst run = Fulfilled (Some (enforceHttps sampleAuthData)).
Proof. by split. Qed.

Example test_set_enforces_https :
  writes (trace (snd (set (mockAPL []) sampleAuthData (init_world []))))
  = [mkAuthData "test-app" "https://example.com/graphql/" "test-token" "test-jwks"].
Proof. reflexivity. Qed.

Example test_delete_both_variants :
  deletes (trace (snd (delete failingDeleteAPL SecondSettlesFirst
                         "http://example.com/graphql/" (init_world tt))))
  = ["https://example.com/graphql/"; "http://example.com/graphql/"] ∧
  fst (delete failingDeleteAPL SecondSettlesFirst
         "http://example.com/graphql/" (init_world tt)) = Fulfilled tt.
Proof. by split. Qed.

Example test_getAll_enforces_https :
  fst (getAll (mockAPL [sampleAuthData;
                        mkAuthData "test-app" "https://example2.com/graphql/"
                          "test-token" "test-jwks"]) (init_world []))
  = Fulfilled [mkAuthData "test-app" "https://example.com/graphql/" "test-token" "test-jwks";
               mkAuthData "test-app" "https://example2.com/graphql/" "test-token" "test-jwks"].
Proof. reflexivity. Qed.

Example scenario_record_stored_with_insecure_identity :
  fst (get mapAPL "http://x/graphql/"
         (init_world {["http://x/graphql/" := mkAuthData "a" "http://x/graphql/" "t" "k"]}))
  = Fulfilled (Some (mkAuthData "a" "https://x/graphql/" "t" "k")).
Proof. reflexivity. Qed.

Example scenario_probes_default_to_affirmative :
  fst (isReady mapAPL (init_world ∅)) = Fulfilled Ready ∧
  fst (isConfigured mapAPL (init_world ∅)) = Fulfilled Configured.
Proof. by split. Qed.

Example scenario_no_matching_module :
  let s' := snd (bypassSignatureVerification emptyRequire (initial [])) in
  overrides (p_heap s') = [] ∧ p_timers s' = [(DelayedPatching, 100%nat)].
Proof. by split. Qed.

Example scenario_second_pass_patches_again :
  let s1 := snd (bypassSignatureVerification sampleRequire (initial sampleHeap)) in
  let s2 := snd (fireTimers sampleRequire (p_timers s1) s1) in
  length (overrides (p_heap s1)) = 1%nat ∧ length (overrides (p_heap s2)) = 2%nat.
Proof. by vm_compute. Qed.

Example scenario_inspection_failure_dropped :
  patchLoadedModules getterRequire (initial getterHeap) =
    (Fulfilled tt,
     mkPState getterHeap
       [mkLog loggerName Info "Found SDK modules in cache"
          [("modules", FStrs []); ("cacheSize", FNum 0)];
        mkLog loggerName Warn "No signature verification functions found to patch" []]
       []).
Proof. reflexivity. Qed.

Example scenario_sdk_loaded_by_the_first_pass :
  let s1 := snd (bypassSignatureVerification (Some loadingRequireFn)
                   (initial unloadedHeap)) in
  let s2 := snd (fireTimers (Some loadingRequireFn) (p_timers s1) s1) in
  overrides (p_heap s1) = [] ∧
  objectKeys (p_heap s1) (VObject 0)
    = Fulfilled ["/app/node_modules/next/dist/server.js"; sdkMainPath; samplePath] ∧
  getProp (p_heap s1) (VObject 6) verifyName = Fulfilled (VObject 7) ∧
  getProp (p_heap s2) (VObject 6) verifyName = Fulfilled (VObject 8) ∧
  isInstalled (p_heap s2) (VObject 8) = true.
Proof. by vm_compute. Qed.

End Scenarios.


(** * Further properties of the code *)

(** ** The two scheme rewrites *)

Section SchemeRewrites.

(** X1. The two rewrites that [get] applies undo each other on
    identities that carry a scheme, and whatever the identity, rewriting
    the insecure form gives the canonical form again and the identity as
    given is one of the two forms. *)
Theorem scheme_rewrites_round_trip (rest u : string) :
  toHttp (toHttps ("http://" +:+ rest)) = "http://" +:+ rest ∧
  toHttps (toHttp ("https://" +:+ rest)) = "https://" +:+ rest ∧
  toHttps (toHttp u) = toHttps u ∧
  toHttp (toHttps u) = toHttp u ∧
  (u = toHttps u ∨ u = toHttp u).
Proof.
  split_and!.
  - rewrite toHttps_insecure. apply toHttp_secure.
  - rewrite toHttp_secure. apply toHttps_insecure.
  - destruct (JsString.startsWith "https://" u) eqn:E.
    + apply startsWith_inv in E. rewrite E, toHttp_secure, toHttps_insecure.
      symmetry. apply toHttps_secure.
    + by rewrite toHttp_other.
  - destruct (JsString.startsWith "http://" u) eqn:E.
    + apply startsWith_inv in E. rewrite E, toHttps_insecure, toHttp_secure.
      symmetry. apply toHttp_insecure.
    + by rewrite (toHttps_canonical u).
  - destruct (JsString.startsWith "http://" u) eqn:E.
    + right. apply startsWith_inv in E. rewrite E. symmetry. apply toHttp_insecure.
    + left. symmetry. by apply toHttps_canonical.
Qed.

(** X2. Two identities have the same canonical form exactly when they
    are equal or are the insecure and the secure spelling of one
    address. *)
Theorem same_canonical_form_iff (u v : string) :
  normalizeSaleorApiUrl u = normalizeSaleorApiUrl v ↔
  u = v ∨ ∃ rest, (u = "http://" +:+ rest ∧ v = "https://" +:+ rest) ∨
                  (u = "https://" +:+ rest ∧ v = "http://" +:+ rest).
Proof.
  rewrite <- !toHttps_normalize. split.
  - intros H.
    destruct (JsString.startsWith "http://" u) eqn:Eu,
             (JsString.startsWith "http://" v) eqn:Ev.
    + apply startsWith_inv in Eu, Ev. rewrite Eu, Ev in H |- *.
      rewrite !toHttps_insecure in H. apply (inj (String.app "https://")) in H.
      left. by rewrite H.
    + apply startsWith_inv in Eu. rewrite Eu in H |- *.
      rewrite toHttps_insecure, (toHttps_canonical v Ev) in H.
      right. eexists. left. by split.
    + apply startsWith_inv in Ev. rewrite Ev in H |- *.
      rewrite toHttps_insecure, (toHttps_canonical u Eu) in H.
      right. eexists. right. by split.
    + rewrite (toHttps_canonical u Eu), (toHttps_canonical v Ev) in H. by left.
  - intros [->|[rest [[-> ->]|[-> ->]]]]; [done| |].
    + by rewrite toHttps_insecure, toHttps_secure.
    + by rewrite toHttps_insecure, toHttps_secure.
Qed.

End SchemeRewrites.

(** ** More on the credential store adapter *)

Section AdapterFurther.
Import HttpsEnforcingAPL.
Context {St : Type} (baseApl : APL St).

Lemma original_is_a_form (u : string) : u = toHttps u ∨ u = toHttp u.
Proof.
  destruct (JsString.startsWith "http://" u) eqn:E.
  - right. apply startsWith_inv in E. rewrite E. symmetry. apply toHttp_insecure.
  - left. symmetry. by apply toHttps_canonical.
Qed.


Lemma get_first_rejected (u : string) (w : world St) (e : exn) (s1 : St) :
  apl_get baseApl (toHttps u) (store w) = (Rejected e, s1) →
  get baseApl u w =
    (Rejected e,
     mkWorld s1 (trace w ++ [Called (CGet (toHttps u)); Settled (CGet (toHttps u)) false])
             (logs w)).
Proof.
  intros H. unfold get, mbind, async_mbind, async_bind, mret, async_mret, async_ret.
  rewrite await_get_eq, H. reflexivity.
Qed.

Lemma get_second_rejected (u : string) (w : world St) (e : exn) (s1 s2 : St) :
  apl_get baseApl (toHttps u) (store w) = (Fulfilled None, s1) →
  apl_get baseApl (toHttp u) s1 = (Rejected e, s2) →
  get baseApl u w =
    (Rejected e,
     mkWorld s2 (trace w ++ [Called (CGet (toHttps u)); Settled (CGet (toHttps u)) true;
                             Called (CGet (toHttp u)); Settled (CGet (toHttp u)) false])
             (logs w)).
Proof.
  intros H1 H2. unfold get, mbind, async_mbind, async_bind, mret, async_mret, async_ret.
  rewrite await_get_eq, H1. simpl. rewrite await_get_eq. simpl. rewrite H2. simpl.
  by rewrite <- app_assoc.
Qed.



(** On a store whose reads have no side effect, [get] is decided by the
    first two candidates. *)
Lemma get_stable (u : string) (w : world St) :
  reads_stable baseApl →
  fst (get baseApl u w) = lookup_two_forms baseApl u (store w) ∧
  store (snd (get baseApl u w)) = store w.
Proof.
  intros Hst. unfold lookup_two_forms.
  destruct (apl_get baseApl (toHttps u) (store w)) as [r1 s1] eqn:H1.
  assert (s1 = store w) as -> by (by rewrite <- (Hst (toHttps u) (store w)), H1).
  destruct r1 as [[a1|]|e1]; simpl.
  - by rewrite (get_first_hit baseApl u w a1 _ H1).
  - destruct (apl_get baseApl (toHttp u) (store w)) as [r2 s2] eqn:H2.
    assert (s2 = store w) as -> by (by rewrite <- (Hst (toHttp u) (store w)), H2).
    destruct r2 as [[a2|]|e2]; simpl.
    + by rewrite (get_second_hit baseApl u w a2 _ _ H1 H2).
    + assert (apl_get baseApl u (store w) = (Fulfilled None, store w)) as H3.
      { destruct (original_is_a_form u) as [E|E]; rewrite E at 1; done. }
      by rewrite (get_third baseApl u w None _ _ _ H1 H2 H3).
    + by rewrite (get_second_rejected u w e2 _ _ H1 H2).
  - by rewrite (get_first_rejected u w e1 _ H1).
Qed.

(** X4. When reading has no side effect on the backing store, the third
    lookup of [get] never changes the outcome: [get] returns what looking
    up the canonical form, then the insecure form, gives in the state it
    started in, and leaves the store as it was. *)
Theorem get_decided_by_two_forms (u : string) (w : world St) :
  reads_stable baseApl →
  fst (get baseApl u w) = lookup_two_forms baseApl u (store w) ∧
  store (snd (get baseApl u w)) = store w.
Proof. apply get_stable. Qed.

(** X5. When reading has no side effect on the backing store, the scheme
    of the requested identity does not matter: asking with the insecure
    and with the secure spelling of one address gives the same result. *)
Theorem get_scheme_independent (rest : string) (w : world St) :
  reads_stable baseApl →
  fst (get baseApl ("http://" +:+ rest) w) = fst (get baseApl ("https://" +:+ rest) w).
Proof.
  intros Hst.
  rewrite (proj1 (get_stable ("http://" +:+ rest) w Hst)).
  rewrite (proj1 (get_stable ("https://" +:+ rest) w Hst)).
  unfold lookup_two_forms.
  by rewrite toHttps_insecure, toHttps_secure, toHttp_insecure, toHttp_secure.
Qed.


End AdapterFurther.

Section AdapterComposition.
Import HttpsEnforcingAPL.
Context {St : Type} (baseApl : APL St).

(** X7. The two probes forward to the backing store when it has them:
    one call, its outcome handed on unchanged.  When it lacks them they
    answer affirmatively without touching the store or the diagnostics. *)
Theorem probes_forward_or_affirm (w : world St) :
  match apl_isReady baseApl with
  | Some probe =>
      fst (isReady baseApl w) = fst (probe (store w)) ∧
      store (snd (isReady baseApl w)) = snd (probe (store w)) ∧
      filter (λ e, is_called e = true) (new_events w (snd (isReady baseApl w)))
        = [Called CIsReady]
  | None => isReady baseApl w = (Fulfilled Ready, w)
  end ∧
  match apl_isConfigured baseApl with
  | Some probe =>
      fst (isConfigured baseApl w) = fst (probe (store w)) ∧
      store (snd (isConfigured baseApl w)) = snd (probe (store w)) ∧
      filter (λ e, is_called e = true) (new_events w (snd (isConfigured baseApl w)))
        = [Called CIsConfigured]
  | None => isConfigured baseApl w = (Fulfilled Configured, w)
  end.
Proof.
  unfold isReady, isConfigured. split.
  - destruct (apl_isReady baseApl) as [probe|]; [|done].
    unfold await_base. destruct (probe (store w)) as [r s']. simpl.
    by rewrite new_events_app.
  - destruct (apl_isConfigured baseApl) as [probe|]; [|done].
    unfold await_base. destruct (probe (store w)) as [r s']. simpl.
    by rewrite new_events_app.
Qed.

Lemma delete_store (order : settle_order) (u : string) (w : world St) :
  (∀ k s, apl_delete_throws baseApl k s = None) →
  store (snd (delete baseApl order u w)) =
    match order with
    | FirstSettlesFirst =>
        snd (apl_delete baseApl u (snd (apl_delete baseApl (toHttps u) (store w))))
    | SecondSettlesFirst =>
        snd (apl_delete baseApl (toHttps u) (snd (apl_delete baseApl u (store w))))
    end.
Proof.
  intros Hp. unfold delete. rewrite !Hp. destruct order.
  - destruct (apl_delete baseApl (toHttps u) (store w)) as [r1 s1]. simpl.
    by destruct (apl_delete baseApl u s1) as [r2 s2].
  - destruct (apl_delete baseApl u (store w)) as [r2 s1]. simpl.
    by destruct (apl_delete baseApl (toHttps u) s1) as [r1 s2].
Qed.

Lemma both_absent_after_delete (order : settle_order) (u : string) (w : world St) :
  kv_store baseApl →
  fst (apl_get baseApl (toHttps u) (store (snd (delete baseApl order u w))))
    = Fulfilled None ∧
  fst (apl_get baseApl u (store (snd (delete baseApl order u w)))) = Fulfilled None.
Proof.
  intros (_ & Hp & Hgone & Hframe). rewrite (delete_store _ _ _ Hp).
  destruct (decide (toHttps u = u)) as [E|E].
  - rewrite E. by destruct order.
  - destruct order.
    + split; [|apply Hgone]. rewrite Hframe by done. apply Hgone.
    + split; [apply Hgone|]. rewrite Hframe by done. apply Hgone.
Qed.

(** X8. On a key-value store, deleting an identity that is not in the
    secure spelling removes every record [get] would consult for it: a
    [get] of the same identity right after the [delete] returns absent,
    whichever of the two sub-deletes settled first. *)
Theorem delete_then_get_absent (order : settle_order) (u : string) (w : world St) :
  kv_store baseApl →
  JsString.startsWith "https://" u = false →
  fst (get baseApl u (snd (delete baseApl order u w))) = Fulfilled None.
Proof.
  intros Hkv Hu. pose proof Hkv as (Hst & _).
  rewrite (proj1 (get_stable baseApl u _ Hst)). unfold lookup_two_forms.
  destruct (both_absent_after_delete order u w Hkv) as [H1 H2].
  by rewrite H1, (toHttp_other u Hu), H2.
Qed.

Lemma insecure_secure_differ (rest : string) : "http://" +:+ rest ≠ "https://" +:+ rest.
Proof.
  intros H. apply (f_equal (JsString.startsWith "https://")) in H. discriminate H.
Qed.

(** X9. On a key-value store, deleting by the secure spelling leaves a
    record kept under the insecure spelling in place ([delete] asks for
    the canonical form and the identity as given, which are then the
    same key), and a later [get] still returns that record. *)
Theorem delete_secure_keeps_insecure_record (order : settle_order) (rest : string)
    (a : AuthData) (w : world St) :
  kv_store baseApl →
  fst (apl_get baseApl ("http://" +:+ rest) (store w)) = Fulfilled (Some a) →
  deletes (new_events w (snd (delete baseApl order ("https://" +:+ rest) w)))
    = ["https://" +:+ rest; "https://" +:+ rest] ∧
  fst (get baseApl ("https://" +:+ rest)
         (snd (delete baseApl order ("https://" +:+ rest) w)))
    = Fulfilled (Some (enforceHttps a)).
Proof.
  intros Hkv Ha. pose proof Hkv as (Hst & Hp & Hgone & Hframe). split.
  - destruct (delete_run baseApl order ("https://" +:+ rest) w (Hp _ _) (Hp _ _))
      as (s' & b1 & b2 & ->).
    simpl. rewrite new_events_app. by destruct order.
  - rewrite (proj1 (get_stable baseApl _ _ Hst)). unfold lookup_two_forms.
    destruct (both_absent_after_delete order ("https://" +:+ rest) w Hkv) as [H1 _].
    rewrite H1, toHttp_secure, (delete_store _ _ _ Hp), toHttps_secure.
    assert (fst (apl_get baseApl ("http://" +:+ rest)
                   (snd (apl_delete baseApl ("https://" +:+ rest)
                      (snd (apl_delete baseApl ("https://" +:+ rest) (store w))))))
            = Fulfilled (Some a)) as H2.
    { rewrite !Hframe by apply insecure_secure_differ. exact Ha. }
    unfold secureMarker. destruct order; by rewrite H2.
Qed.

End AdapterComposition.

Section AdapterFurtherWitnesses.
Import HttpsEnforcingAPL.

Lemma mapAPL_reads_stable : reads_stable mapAPL.
Proof. by intros k m. Qed.

Lemma mapAPL_kv_store : kv_store mapAPL.
Proof.
  split_and!.
  - apply mapAPL_reads_stable.
  - done.
  - intros k m. simpl. by rewrite lookup_delete_eq.
  - intros k k' m Hne. simpl. by rewrite lookup_delete_ne.
Qed.


Lemma get_decided_by_two_forms_witness :
  fst (get mapAPL "https://x/graphql/"
         (init_world {["http://x/graphql/" := mkAuthData "a" "http://x/graphql/" "t" "k"]}))
  = Fulfilled (Some (mkAuthData "a" "https://x/graphql/" "t" "k")).
Proof.
  exact (proj1 (get_decided_by_two_forms mapAPL "https://x/graphql/"
           (init_world {["http://x/graphql/" := mkAuthData "a" "http://x/graphql/" "t" "k"]})
           mapAPL_reads_stable)).
Defined.

Lemma get_scheme_independent_witness :
  fst (get mapAPL ("http://" +:+ "x/graphql/") (init_world ∅))
  = fst (get mapAPL ("https://" +:+ "x/graphql/") (init_world ∅)).
Proof.
  exact (get_scheme_independent mapAPL "x/graphql/" (init_world ∅) mapAPL_reads_stable).
Defined.

Lemma delete_then_get_absent_witness :
  fst (get mapAPL "http://x/graphql/"
         (snd (delete mapAPL SecondSettlesFirst "http://x/graphql/"
                 (init_world {["https://x/graphql/" :=
                                 mkAuthData "a" "https://x/graphql/" "t" "k"]}))))
  = Fulfilled None.
Proof.
  exact (delete_then_get_absent mapAPL SecondSettlesFirst "http://x/graphql/"
           (init_world {["https://x/graphql/" := mkAuthData "a" "https://x/graphql/" "t" "k"]})
           mapAPL_kv_store eq_refl).
Defined.

Lemma delete_secure_keeps_insecure_record_witness :
  fst (get mapAPL ("https://" +:+ "x/graphql/")
         (snd (delete mapAPL FirstSettlesFirst ("https://" +:+ "x/graphql/")
                 (init_world {["http://x/graphql/" :=
                                 mkAuthData "a" "http://x/graphql/" "t" "k"]}))))
  = Fulfilled (Some (enforceHttps (mkAuthData "a" "http://x/graphql/" "t" "k"))).
Proof.
  exact (proj2 (delete_secure_keeps_insecure_record mapAPL FirstSettlesFirst "x/graphql/"
           (mkAuthData "a" "http://x/graphql/" "t" "k")
           (init_world {["http://x/graphql/" := mkAuthData "a" "http://x/graphql/" "t" "k"]})
           mapAPL_kv_store eq_refl)).
Defined.

End AdapterFurtherWitnesses.

(** ** Choice of the backing store *)

Section SaleorAppFacts.
Import SaleorApp.

(** X10. The backing store is chosen by the [APL] variable alone: unset
    or ["file"] gives the file store, ["upstash"] the Upstash store, and
    ["rest"] the cloud store with the configured endpoint and token, both
    of which must be set and non-empty.  Every other value, the empty
    string included, makes start-up fail. *)
Theorem selectBaseApl_cases (env : string → option string) (c : BaseAplChoice) :
  selectBaseApl env = Fulfilled c ↔
  (c = FileAPL ∧ (env "APL" = None ∨ env "APL" = Some "file")) ∨
  (c = UpstashAPL ∧ env "APL" = Some "upstash") ∨
  (∃ resourceUrl token,
     c = SaleorCloudAPL resourceUrl token ∧ env "APL" = Some "rest" ∧
     env "REST_APL_ENDPOINT" = Some resourceUrl ∧ resourceUrl ≠ "" ∧
     env "REST_APL_TOKEN" = Some token ∧ token ≠ "").
Proof.
  unfold selectBaseApl. split.
  - destruct (env "APL") as [v|] eqn:Ev.
    + destruct (String.eqb v "upstash") eqn:E1.
      { apply String.eqb_eq in E1. intros [= <-]. right. left. by subst. }
      destruct (String.eqb v "file") eqn:E2.
      { apply String.eqb_eq in E2. intros [= <-]. left. split; [done|]. right. by subst. }
      destruct (String.eqb v "rest") eqn:E3; [|done].
      apply String.eqb_eq in E3. subst v.
      destruct (env "REST_APL_ENDPOINT") as [e|], (env "REST_APL_TOKEN") as [t|];
        simpl; try done.
      * destruct (String.eqb e "") eqn:Ee; [done|].
        destruct (String.eqb t "") eqn:Et; [done|]. simpl.
        apply String.eqb_neq in Ee, Et. intros [= <-]. right. right.
        exists e, t. by split_and!.
      * by destruct (String.eqb e "").
    + simpl. intros [= <-]. left. split; [done|by left].
  - intros [[-> [->| ->]]|[[-> ->]|(e & t & -> & -> & -> & He & -> & Ht)]]; try done.
    simpl. apply String.eqb_neq in He, Ht. by rewrite He, Ht.
Qed.

(** X11. Start-up fails with the "Invalid APL config" error exactly when
    [APL] is set to something other than the three known names; an [APL]
    set to the empty string is such a value and does not fall back to the
    file store. *)
Theorem selectBaseApl_invalid (env : string → option string) :
  (selectBaseApl env = Rejected (JsError "Invalid APL config, ") ↔
   ∃ v, env "APL" = Some v ∧ v ≠ "upstash" ∧ v ≠ "file" ∧ v ≠ "rest") ∧
  (env "APL" = Some "" → selectBaseApl env = Rejected (JsError "Invalid APL config, ")).
Proof.
  unfold selectBaseApl. split; [split|].
  - destruct (env "APL") as [v|] eqn:Ev; [|done].
    destruct (String.eqb v "upstash") eqn:E1; [done|].
    destruct (String.eqb v "file") eqn:E2; [done|].
    destruct (String.eqb v "rest") eqn:E3.
    + destruct (envMissing _ || envMissing _); [done|].
      by destruct (env "REST_APL_ENDPOINT"), (env "REST_APL_TOKEN").
    + intros _. apply String.eqb_neq in E1, E2, E3. by exists v.
  - intros (v & -> & H1 & H2 & H3).
    apply String.eqb_neq in H1, H2, H3. by rewrite H1, H2, H3.
  - by intros ->.
Qed.

End SaleorAppFacts.

(** ** More on the capability patcher *)

Section PatcherFurther.
Import Js Bypass BypassSpec BypassMore.

Lemma bind_step {A B} (m : Sync A) (k : A → Sync B) (s : pstate) (a : A) (s1 : pstate) :
  m s = (Fulfilled a, s1) → (m ≫= k) s = k a s1.
Proof. intros H. by rewrite bind_run, H. Qed.



(** X13. A patch attempt changes nothing but [verifySignatureWithJwks]
    members and what [require] loads, on every registry.  When the scan
    of the module cache is over, every object that existed before is
    still at its place, is callable or not as before, and holds under
    every other key what it held.  The two [require] calls that follow
    may add objects and further keys (the module cache gains the modules
    they load) but take nothing away: after the whole attempt every such
    object is still at its place, callable or not as before, with every
    property it had under another key. *)
Theorem pass_touches_only_the_verification_member (rq : option Require) (s : pstate)
    (l : nat) (o : object) :
  p_heap s !! l = Some o →
  (∃ o', p_heap (snd (cacheApproach rq s)) !! l = Some o' ∧
         obj_call o' = obj_call o ∧
         ∀ k, k ≠ "verifySignatureWithJwks" →
              assoc k (obj_props o') = assoc k (obj_props o)) ∧
  (∃ o', p_heap (snd (patchLoadedModules rq s)) !! l = Some o' ∧
         obj_call o' = obj_call o ∧
         ∀ k p, k ≠ "verifySignatureWithJwks" →
                assoc k (obj_props o) = Some p → assoc k (obj_props o') = Some p) ∧
  p_heap (snd (patchLoadedModules rq s))
  = p_heap (snd (requireModule rq "@saleor/app-sdk"
                   (snd (requireModule rq "@saleor/app-sdk/handlers/next"
                           (initial (p_heap (snd (cacheApproach rq s)))))))).
Proof.
  intros Hl. split_and!.
  - destruct (cacheApproach_within rq s l o Hl) as (o' & Hl' & Hcall & Hother & _).
    exists o'. by split_and!.
  - destruct (patchLoadedModules_grows rq s l o Hl) as (o' & Hl' & Hcall & Hother & _).
    exists o'. by split_and!.
  - by rewrite patchLoadedModules_eq, namedApproach_heap.
Qed.

(** *** The two passes *)

Lemma bypass_heap (rq : option Require) (s : pstate) :
  ∃ s1, p_heap s1 = p_heap s ∧
        p_heap (snd (bypassSignatureVerification rq s))
          = p_heap (snd (patchLoadedModules rq s1)).
Proof.
  set (s1 := mkPState (p_heap s)
               (p_logs s ++ [mkLog loggerName Info
                  "Attempting signature verification bypass for SDK v0.50.1" []])
               (p_timers s ++ [(DelayedPatching, 100%nat)])).
  exists s1. split; [done|].
  unfold bypassSignatureVerification, try_catch.
  do 2 (erewrite bind_step; [|reflexivity]). cbn [p_heap p_logs p_timers]. fold s1.
  pose proof (patchLoadedModules_total rq s1) as Ht. rewrite bind_run.
  by destruct (patchLoadedModules rq s1) as [[[]|e] s2].
Qed.

(** X14. On an ordinary registry the delayed pass does not undo the
    immediate one: where the installer found the verification function in
    an SDK module's exports, that member is an installed override when the
    installer returns and still is after the scheduled timers have fired,
    whatever the module cache holds by then. *)
Theorem delayed_pass_keeps_overrides (r r' : Require) (s : pstate) (modulePath : string)
    (exports : value) :
  plainHeap (p_heap s) = true →
  truthy (cache r) = true →
  truthy (cache r') = true →
  isSdkModule modulePath = true →
  exportsOf (p_heap s) (cache r) modulePath exports →
  found (p_heap s) exports →
  let s1 := snd (bypassSignatureVerification (Some r) s) in
  let s2 := snd (fireTimers (Some r') (p_timers s1) s1) in
  bypassedAt (p_heap s1) exports ∧ bypassedAt (p_heap s2) exports.
Proof.
  intros Hh Hc Hc' Hp Hex Hf. cbv zeta.
  destruct (bypass_heap (Some r) s) as (s0 & Hs0 & Hheap).
  rewrite <- Hs0 in Hh, Hex, Hf.
  destruct (cacheApproach_heap r s0 Hh Hc) as [Hscan _].
  destruct (completed_scan_installs r s0 Hscan modulePath Hp) as [_ Hall].
  destruct (Hall exports Hex) as [Hdirect _].
  rewrite <- Hheap in Hdirect.
  assert (installedAt (p_heap (snd (bypassSignatureVerification (Some r) s))) exports)
    as Hi by (by apply Hdirect).
  assert (∀ h, installedAt h exports → bypassedAt h exports) as Hweaken.
  { intros h (l & Hg & Hb). exists l. split; [done|]. by apply isInstalled_isBypass. }
  split; [by apply Hweaken|]. apply Hweaken.
  eapply grows_installedAt; [|exact Hi]. apply fireTimers_grows.
Qed.

(** *** Timers *)

Lemma kt_inspects {A} (m : Sync A) : inspects_only m → keeps_timers m.
Proof. intros H s. by destruct (H s) as (_ & Ht & _). Qed.

Lemma kt_ret {A} (a : A) : keeps_timers (mret a : Sync A).
Proof. by intros s. Qed.

Lemma kt_bind {A B} (m : Sync A) (k : A → Sync B) :
  keeps_timers m → (∀ a, keeps_timers (k a)) → keeps_timers (m ≫= k).
Proof.
  intros Hm Hk s. rewrite bind_run. specialize (Hm s).
  destruct (m s) as [[a|e] s1]; simpl in *; [|done].
  by rewrite (Hk a s1).
Qed.

Lemma kt_try_catch {A} (body : Sync A) (handler : exn → Sync A) :
  keeps_timers body → (∀ e, keeps_timers (handler e)) →
  keeps_timers (try_catch body handler).
Proof.
  intros Hm Hk s. unfold try_catch. specialize (Hm s).
  destruct (body s) as [[a|e] s1]; simpl in *; [done|].
  by rewrite (Hk e s1).
Qed.

Lemma kt_log (lv : level) (msg : string) (fields : list (string * field)) :
  keeps_timers (log lv msg fields).
Proof. by intros s. Qed.

Lemma kt_read {A} (f : pstate → outcome A) : keeps_timers (λ s, (f s, s)).
Proof. by intros s. Qed.

Lemma kt_alloc (o : object) : keeps_timers (alloc o).
Proof. by intros s. Qed.

Lemma kt_writeProp (v : value) (k : string) (x : value) : keeps_timers (writeProp v k x).
Proof. intros s. unfold writeProp. by destruct (setProp (p_heap s) v k x). Qed.

Lemma kt_patchSignatureFunction (obj : value) (fn mp : string) :
  keeps_timers (patchSignatureFunction obj fn mp).
Proof.
  unfold patchSignatureFunction.
  apply kt_bind; [apply kt_read|intros _].
  apply kt_bind; [apply kt_alloc|intros ov].
  apply kt_bind; [apply kt_writeProp|intros _]. apply kt_log.
Qed.

Lemma kt_scanModule (mc : value) (n : nat) (p : string) : keeps_timers (scanModule mc n p).
Proof.
  unfold scanModule.
  apply kt_bind; [apply kt_read|intros mo].
  apply kt_bind; [destruct (truthy mo); [apply kt_read|apply kt_ret]|intros g].
  destruct (truthy g); [|apply kt_ret].
  apply kt_bind; [apply kt_read|intros ex].
  apply kt_bind; [apply kt_read|intros dr].
  apply kt_bind.
  { destruct (truthy dr); [|apply kt_ret].
    apply kt_bind; [apply kt_log|intros _].
    apply kt_bind; [apply kt_patchSignatureFunction|intros _]. apply kt_ret. }
  intros c1.
  apply kt_bind; [apply kt_read|intros df].
  apply kt_bind.
  { destruct (truthy df); [|apply kt_ret].
    apply kt_bind; [apply kt_read|intros d]. apply kt_read. }
  intros vd.
  apply kt_bind.
  { destruct (truthy vd); [|apply kt_ret].
    apply kt_bind; [apply kt_log|intros _].
    apply kt_bind; [apply kt_read|intros d].
    apply kt_bind; [apply kt_patchSignatureFunction|intros _]. apply kt_ret. }
  intros c2.
  apply kt_bind; [apply kt_read|intros keys].
  apply kt_bind; [apply kt_inspects, keyScan_inspects|intros _]. apply kt_ret.
Qed.

Lemma kt_forEachCounting {A} (f : nat → A → Sync nat) (n : nat) (l : list A) :
  (∀ c x, keeps_timers (f c x)) → keeps_timers (forEachCounting f n l).
Proof.
  intros Hf. revert n. induction l as [|x l IH]; intros n; simpl.
  - apply kt_ret.
  - apply kt_bind; [apply Hf|intros c; apply IH].
Qed.

Lemma kt_patchLoadedModules (rq : option Require) : keeps_timers (patchLoadedModules rq).
Proof.
  unfold patchLoadedModules. apply kt_bind.
  2: { intros _ s0. by destruct (namedApproach_emits rq s0) as [Ht _]. }
  unfold cacheApproach. apply kt_try_catch; [|intros e; apply kt_log].
  unfold scanCache. apply kt_bind.
  - unfold findAndPatch.
    apply kt_bind; [unfold requireCache; destruct rq; apply kt_read|intros c].
    apply kt_bind; [destruct (truthy c); [apply kt_ret|apply kt_alloc]|intros mc].
    apply kt_bind; [apply kt_read|intros ks].
    apply kt_bind; [apply kt_read|intros ks'].
    apply kt_bind; [apply kt_log|intros _].
    apply kt_forEachCounting. intros c0 x. apply kt_scanModule.
  - intros n. destruct (0 <? n)%nat; apply kt_log.
Qed.

(** X15. The installer schedules exactly one delayed pass, 100 ms out, and
    nothing else; a patch attempt never schedules anything, so firing the
    timers starts no further pass.  This holds for every registry. *)
Theorem one_delayed_pass_is_scheduled (rq rq' : option Require) (s : pstate)
    (tasks : list (timer_task * nat)) :
  p_timers (snd (bypassSignatureVerification rq s))
    = p_timers s ++ [(DelayedPatching, 100%nat)] ∧
  p_timers (snd (patchLoadedModules rq s)) = p_timers s ∧
  p_timers (snd (fireTimers rq' tasks s)) = p_timers s.
Proof.
  split_and!.
  - unfold bypassSignatureVerification, try_catch.
    do 2 (erewrite bind_step; [|reflexivity]).
    set (s1 := mkPState _ _ _).
    pose proof (patchLoadedModules_total rq s1) as Ht.
    pose proof (kt_patchLoadedModules rq s1) as Hk. rewrite bind_run.
    destruct (patchLoadedModules rq s1) as [[[]|e] s2]; [|done]. simpl in *.
    by rewrite Hk.
  - apply kt_patchLoadedModules.
  - revert s. induction tasks as [|[task d] tasks IH]; intros s; simpl; [done|].
    rewrite bind_run, runTimer_eq.
    pose proof (kt_patchLoadedModules rq' s) as Hk.
    destruct (patchLoadedModules rq' s) as [[[]|e] s1]; simpl in *; [|done].
    by rewrite IH.
Qed.

(** *** Counting the overrides *)

Lemma overrides_app (h k : heap) : overrides (h ++ k) = overrides h ++ overrides k.
Proof. apply filter_app. Qed.

Lemma overrides_insert (h : heap) (l : nat) (o o' : object) :
  h !! l = Some o → isBypassObject o' = isBypassObject o →
  length (overrides (<[l := o']> h)) = length (overrides h).
Proof.
  intros Hl Ho. revert l Hl. induction h as [|x h IH]; intros [|l] Hl; try done.
  - simpl in Hl. revert Hl; intros [= ->]. simpl. unfold overrides.
    rewrite !filter_cons, Ho. by destruct (decide (isBypassObject o = true)).
  - simpl in Hl. simpl. unfold overrides in *. rewrite !filter_cons.
    destruct (decide (isBypassObject x = true)); simpl; by rewrite (IH l Hl).
Qed.

Lemma setProp_overrides (h h' : heap) (v : value) (k : string) (x : value) :
  setProp h v k x = Fulfilled h' → length (overrides h') = length (overrides h).
Proof.
  destruct v as [| |b|n|str|l]; simpl; try done.
  destruct (h !! l) as [o|] eqn:Hl; [|by intros [= <-]].
  destruct (assoc k (obj_props o)) as [[y [|]|g]|]; try done;
    intros [= <-]; by apply (overrides_insert h l o).
Qed.

Lemma creates_inspects {A} (m : Sync A) : inspects_only m → creates 0 m.
Proof.
  intros Hm s a s' H. destruct (Hm s) as (Hh & _). rewrite H in Hh. simpl in Hh.
  rewrite Hh. lia.
Qed.

Lemma creates_patchSignatureFunction (obj : value) (fn mp : string) :
  creates 1 (patchSignatureFunction obj fn mp).
Proof.
  intros s u s' H. unfold patchSignatureFunction in H.
  apply bind_inspect_inv in H as (orig & s1 & Hh1 & H); [|apply inspects_state_read].
  apply bind_inv in H as (ov & s2 & Halloc & H).
  unfold alloc in Halloc. revert Halloc; intros [= <- <-].
  apply bind_inv in H as ([] & s3 & Hw & H).
  unfold writeProp in Hw. cbn [p_heap p_logs p_timers] in Hw.
  destruct (setProp _ _ _ _) as [h3|e] eqn:Hset; [|done].
  revert Hw; intros [= <-]. unfold log in H. cbn [p_heap p_logs p_timers] in H.
  assert (p_heap s' = h3) as -> by (by inversion H).
  rewrite (setProp_overrides _ _ _ _ _ Hset), overrides_app, length_app, Hh1.
  reflexivity.
Qed.

Lemma counts_ret (n : nat) : counts n (mret n).
Proof. intros s n' s' [= <- <-]. lia. Qed.

Lemma counts_bind (n : nat) (m : Sync nat) (f : nat → Sync nat) :
  counts n m → (∀ c, counts c (f c)) → counts n (m ≫= f).
Proof.
  intros Hm Hf s n' s' H. apply bind_inv in H as (c & s1 & H1 & H2).
  specialize (Hm s c s1 H1). specialize (Hf c s1 n' s' H2). lia.
Qed.

Lemma counts_after {A} (n : nat) (m : Sync A) (f : A → Sync nat) :
  creates 0 m → (∀ a, counts n (f a)) → counts n (m ≫= f).
Proof.
  intros Hm Hf s n' s' H. apply bind_inv in H as (a & s1 & H1 & H2).
  specialize (Hm s a s1 H1). specialize (Hf a s1 n' s' H2). lia.
Qed.

Lemma counts_patch {A} (n : nat) (m : Sync A) :
  creates 1 m → counts n (m ≫= λ _, mret (S n)).
Proof.
  intros Hm s n' s' H. apply bind_inv in H as (a & s1 & H1 & H2).
  specialize (Hm s a s1 H1). revert H2; intros [= <- <-]. lia.
Qed.

Lemma counts_scanModule (mc : value) (n : nat) (p : string) : counts n (scanModule mc n p).
Proof.
  unfold scanModule.
  apply counts_after; [apply creates_inspects, inspects_state_read|intros mo].
  apply counts_after.
  { apply creates_inspects.
    destruct (truthy mo); [apply inspects_state_read|apply (inspects_ret mo)]. }
  intros g. destruct (truthy g); [|apply counts_ret].
  apply counts_after; [apply creates_inspects, inspects_state_read|intros ex].
  apply counts_after; [apply creates_inspects, inspects_state_read|intros dr].
  apply counts_bind.
  { destruct (truthy dr); [|apply counts_ret].
    apply counts_after; [apply creates_inspects, inspects_log_info|intros _].
    apply counts_patch, creates_patchSignatureFunction. }
  intros c1.
  apply counts_after; [apply creates_inspects, inspects_state_read|intros df].
  apply counts_after.
  { apply creates_inspects. destruct (truthy df); [|apply (inspects_ret df)].
    apply inspects_bind; [apply inspects_state_read|intros d].
    apply inspects_state_read. }
  intros vd.
  apply counts_bind.
  { destruct (truthy vd); [|apply counts_ret].
    apply counts_after; [apply creates_inspects, inspects_log_info|intros _].
    apply counts_after; [apply creates_inspects, inspects_state_read|intros d].
    apply counts_patch, creates_patchSignatureFunction. }
  intros c2.
  apply counts_after; [apply creates_inspects, inspects_state_read|intros keys].
  apply counts_after; [apply creates_inspects, keyScan_inspects|intros _].
  apply counts_ret.
Qed.

Lemma counts_forEachCounting {A} (f : nat → A → Sync nat) (n : nat) (l : list A) :
  (∀ c x, counts c (f c x)) → counts n (forEachCounting f n l).
Proof.
  intros Hf. revert n. induction l as [|x l IH]; intros n; simpl.
  - apply counts_ret.
  - apply counts_bind; [apply Hf|intros c; apply IH].
Qed.

Lemma counts_findAndPatch (rq : option Require) : counts 0 (findAndPatch rq).
Proof.
  unfold findAndPatch.
  apply counts_after.
  { apply creates_inspects. unfold requireCache. destruct rq; apply inspects_state_read. }
  intros c. apply counts_after.
  { destruct (truthy c); [apply creates_inspects, (inspects_ret c)|].
    intros s a s' [= <- <-]. cbn [p_heap]. rewrite overrides_app, length_app. simpl. lia. }
  intros mc.
  apply counts_after; [apply creates_inspects, inspects_state_read|intros ks].
  apply counts_after; [apply creates_inspects, inspects_state_read|intros ks'].
  apply counts_after; [apply creates_inspects, inspects_log_info|intros _].
  apply counts_forEachCounting. intros c0 x. apply counts_scanModule.
Qed.

(** X16. The number a completed cache scan reports is the number of
    override functions it created: for every registry, if the scan ends
    without an exception having counted [n] patches, the heap holds
    exactly [n] more overrides than before, and the scan's last diagnostic
    is the success message with that [n], or the no-match warning when
    [n] is zero. *)
Theorem reported_count_is_created (rq : option Require) (s s' : pstate) (n : nat) :
  findAndPatch rq s = (Fulfilled n, s') →
  length (overrides (p_heap s')) = (length (overrides (p_heap s)) + n)%nat ∧
  scanCache rq s =
    (Fulfilled tt, mkPState (p_heap s') (p_logs s' ++ [scanSummary n]) (p_timers s')).
Proof.
  intros H. split.
  - pose proof (counts_findAndPatch rq s n s' H). lia.
  - unfold scanCache, scanSummary. rewrite (bind_step _ _ _ _ _ H).
    by destruct (0 <? n)%nat.
Qed.

(** X17. Patching is not guarded against its own result.  On an ordinary
    registry, patching an object whose verification member already is an
    installed override succeeds again and puts a newly created override
    in its place; the previous one stays in the heap, no longer referred
    to by that member. *)
Theorem repatching_installs_a_new_override (obj : value) (modulePath : string)
    (s : pstate) (l0 : nat) :
  plainHeap (p_heap s) = true →
  getProp (p_heap s) obj verifyName = Fulfilled (VObject l0) →
  isBypass (p_heap s) (VObject l0) = true →
  let s' := snd (patchSignatureFunction obj verifyName modulePath s) in
  fst (patchSignatureFunction obj verifyName modulePath s) = Fulfilled tt ∧
  getProp (p_heap s') obj verifyName = Fulfilled (VObject (length (p_heap s))) ∧
  (l0 < length (p_heap s))%nat ∧
  isBypass (p_heap s') (VObject (length (p_heap s))) = true ∧
  isBypass (p_heap s') (VObject l0) = true ∧
  length (overrides (p_heap s')) = S (length (overrides (p_heap s))).
Proof.
  intros Hh Hg Hb. cbv zeta.
  assert (l0 < length (p_heap s))%nat as Hl0.
  { unfold isBypass in Hb. destruct (p_heap s !! l0) as [o0|] eqn:E; [|done].
    by eapply lookup_lt_Some. }
  destruct (getProp_truthy_inv (p_heap s) obj verifyName (VObject l0) Hh Hg eq_refl)
    as (l & o & -> & Hl & Ha).
  assert (l < length (p_heap s))%nat as Hlt by (by eapply lookup_lt_Some).
  destruct (patchSignatureFunction (VObject l) verifyName modulePath s) as [r s'] eqn:Hrun.
  assert (r = Fulfilled tt ∧
          p_heap s' = <[l := mkObject (obj_call o)
                             (assoc_set verifyName
                                (DataProperty (VObject (length (p_heap s))) true)
                                (obj_props o))]>
                        (p_heap s ++ [mkObject (SignatureBypass verifyName modulePath) []]))
    as [-> Hs'].
  { unfold patchSignatureFunction in Hrun.
    rewrite bind_run in Hrun. unfold readProp in Hrun. rewrite Hg in Hrun.
    rewrite bind_run in Hrun. unfold alloc in Hrun. cbn [p_heap p_logs p_timers] in Hrun.
    rewrite bind_run in Hrun. unfold writeProp in Hrun.
    cbn [p_heap p_logs p_timers] in Hrun.
    rewrite (setProp_plain _ l o verifyName (VObject l0)) in Hrun;
      [|by apply lookup_app_l_Some|done].
    revert Hrun; intros [= <- <-]. by split. }
  pose proof (creates_patchSignatureFunction (VObject l) verifyName modulePath s tt s' Hrun)
    as Hcount.
  simpl. rewrite Hs'. split_and!; try done.
  - simpl. rewrite list_lookup_insert_eq by (rewrite length_app; simpl; lia).
    simpl. by rewrite assoc_set_eq.
  - simpl. rewrite list_lookup_insert_ne by lia.
    by rewrite list_lookup_middle.
  - unfold isBypass in *. destruct (decide (l0 = l)) as [->|Hne].
    + rewrite list_lookup_insert_eq by (rewrite length_app; simpl; lia). simpl.
      by rewrite Hl in Hb.
    + rewrite list_lookup_insert_ne by done.
      destruct (p_heap s !! l0) as [o0|] eqn:E; [|done].
      by rewrite (lookup_app_l_Some _ _ _ _ E).
  - rewrite <- Hs'. rewrite Hcount. lia.
Qed.

End PatcherFurther.

Section PatcherFurtherWitnesses.
Import Js Bypass BypassSpec BypassMore.


Lemma pass_touches_only_the_verification_member_witness :
  ∃ o', p_heap (snd (patchLoadedModules (Some loadingRequireFn) (initial unloadedHeap)))
          !! 0%nat = Some o' ∧
        obj_call o' = NotCallable ∧
        ∀ k p, k ≠ "verifySignatureWithJwks" →
               assoc k [("/app/node_modules/next/dist/server.js",
                         DataProperty (VObject 1) true)] = Some p →
               assoc k (obj_props o') = Some p.
Proof.
  exact (proj1 (proj2 (pass_touches_only_the_verification_member (Some loadingRequireFn)
           (initial unloadedHeap) 0 _ eq_refl))).
Defined.

Lemma delayed_pass_keeps_overrides_witness :
  bypassedAt
    (p_heap (snd (fireTimers sampleRequire
                    (p_timers (snd (bypassSignatureVerification sampleRequire
                                      (initial sampleHeap))))
                    (snd (bypassSignatureVerification sampleRequire (initial sampleHeap))))))
    (VObject 2).
Proof.
  refine (proj2 (delayed_pass_keeps_overrides sampleRequireFn sampleRequireFn
            (initial sampleHeap) samplePath (VObject 2)
            eq_refl eq_refl eq_refl eq_refl _ _)).
  - exists (VObject 1). by split_and!.
  - exists (VObject 3). by split.
Defined.

Lemma reported_count_is_created_witness :
  length (overrides (p_heap (snd (findAndPatch sampleRequire (initial sampleHeap)))))
  = 1%nat.
Proof.
  exact (proj1 (reported_count_is_created sampleRequire (initial sampleHeap)
           (snd (findAndPatch sampleRequire (initial sampleHeap))) 1 eq_refl)).
Defined.

Lemma repatching_installs_a_new_override_witness :
  getProp
    (p_heap (snd (patchSignatureFunction (VObject 2) verifyName samplePath
                    (snd (patchLoadedModules sampleRequire (initial sampleHeap))))))
    (VObject 2) verifyName
  = Fulfilled (VObject 7).
Proof.
  exact (proj1 (proj2 (repatching_installs_a_new_override (VObject 2) samplePath
           (snd (patchLoadedModules sampleRequire (initial sampleHeap))) 6
           eq_refl eq_refl eq_refl))).
Defined.

End PatcherFurtherWitnesses.

(** ** The webhook handlers *)

Section HandlerFacts.
Import Webhook.
Context {St C Client Config Address : Type}.
Context (baseApl : APL St) (ext : Collaborators C Client Config Address).

Lemma tail_facts (logger notified : string) (order orderId : option json)
    (url : string) (auth : AuthData) (s : hstate St C) :
  let run := generateAndDeliver ext logger notified order orderId url auth s in
  h_apl (snd run) = h_apl s ∧
  (∃ k, map step_rank (new_steps s (snd run)) = take k fullPipeline ∨
        map step_rank (new_steps s (snd run)) = take k pipelineWithOverride) ∧
  (∀ resp, fst run = Fulfilled resp →
     (resp = mkResponse 200 [("message", RStr "App not configured")] ∧
      map step_rank (new_steps s (snd run)) = take 6 fullPipeline) ∨
     (∃ n u, resp = mkResponse 200 [("success", RBool true); ("invoiceName", RStr n);
                                    ("uploadedFileUrl", RStr u)] ∧
             last (new_steps s (snd run)) = Some (SNotify n u) ∧
             (map step_rank (new_steps s (snd run)) = fullPipeline ∨
              map step_rank (new_steps s (snd run)) = pipelineWithOverride))) ∧
  (∀ u t, SCreateClient u t ∈ new_steps s (snd run) → u = url ∧ t = token auth).
Proof.
  cbv zeta. handler_unfold. handler_split; steps_normal.
  all: split_and!; [reflexivity|pick_prefix| |intros u t Hin; member_cases Hin].
  all: intros resp Hresp; try discriminate Hresp; revert Hresp; intros [= <-].
  all: first [ left; by split
             | right; eexists _, _; split_and!; [reflexivity|reflexivity|];
               by (left + right) ].
Qed.




Lemma tail_status (logger notified : string) (order orderId : option json)
    (url : string) (auth : AuthData) (s s' : hstate St C) (resp : response) :
  generateAndDeliver ext logger notified order orderId url auth s = (Fulfilled resp, s') →
  status resp = 200%nat.
Proof.
  intros H.
  destruct (tail_facts logger notified order orderId url auth s) as (_ & _ & H3 & _).
  rewrite H in H3. destruct (H3 resp eq_refl) as [[-> _]|(n & u & -> & _)]; done.
Qed.


Lemma tail_apl (logger notified : string) (order orderId : option json)
    (url : string) (auth : AuthData) (s s' : hstate St C) (r : outcome response) :
  generateAndDeliver ext logger notified order orderId url auth s = (r, s') →
  h_apl s' = h_apl s.
Proof.
  intros H.
  destruct (tail_facts logger notified order orderId url auth s) as (H1 & _).
  by rewrite H in H1.
Qed.


Lemma normalizeHeader_inv (hd : header) (a : string) :
  normalizeHeader hd = Fulfilled a → ∃ h, hd = HOne h ∧ a = normalizeSaleorApiUrl h.
Proof. destruct hd as [|h|l]; intros [= <-]. by exists h. Qed.


Lemma carries_order_inv (payload : option json) (o : json) :
  carries_order payload o →
  ∃ ms es fs,
    payload = Some (JObject ms) ∧ Js.assoc "event" ms = Some (JObject es) ∧
    Js.assoc "order" es = Some (JObject fs) ∧ o = JObject fs ∧
    jtruthy (Js.assoc "id" fs) = true.
Proof.
  intros (ms & ev & -> & Hev & Ho & Hid).
  destruct ev as [| | | | |es]; try done.
  destruct o as [| | | | |fs]; try done.
  by exists ms, es, fs.
Qed.

(** X19. A request whose method is not POST is answered 405 "Method not
    allowed" by all three handlers before anything else is looked at: the
    headers and the body play no part, the store and the collaborators are
    not called, and the only trace is the opening log line (and, in the
    third handler, the warning that names the method). *)
Theorem non_post_is_refused (req : request) (raw : rawRequest)
    (parse : string → outcome json) (s : hstate St C) :
  method req ≠ Some "POST" →
  raw_method raw ≠ Some "POST" →
  invoiceDirectHandler baseApl ext req s =
    (Fulfilled (mkResponse 405 [("error", RStr "Method not allowed")]),
     mkHState (h_apl s) (h_ext s) (h_steps s)
       (h_logs s ++ [mkHLog "InvoiceDirectWebhook" Info
                       "Processing invoice webhook directly" []])) ∧
  invoiceRequestedHandler baseApl ext req s =
    (Fulfilled (mkResponse 405 [("error", RStr "Method not allowed")]),
     mkHState (h_apl s) (h_ext s) (h_steps s)
       (h_logs s ++ [mkHLog "InvoiceRequestedWebhook" Info
                       "Processing invoice webhook without verification" []])) ∧
  invoiceRequestedNoVerify baseApl ext parse raw s =
    (Fulfilled (mkResponse 405 [("error", RStr "Method not allowed")]),
     mkHState (h_apl s) (h_ext s) (h_steps s)
       (h_logs s ++ [mkHLog "InvoiceRequestedNoVerifyWebhook" Info
                       "Processing webhook without signature verification" [];
                     mkHLog "InvoiceRequestedNoVerifyWebhook" Warn
                       "Invalid request method" [("method", ROptStr (raw_method raw))]])).
Proof.
  intros Hm Hr. prefix_unfold.
  rewrite !bool_decide_eq_false_2 by done. simpl.
  by rewrite <- app_assoc.
Qed.




(** X23. The requested handler treats the two payload formats alike.
    A payload with an order under [payload.event.order] and a payload
    with the same order under [payload.order] (and no truthy order under
    [event]) give the same response, the same calls on the store and the
    collaborators and the same log, whatever the method and the headers
    are and whatever else the two payloads hold, provided the order has a
    truthy [id].  Where a payload holds an order in both places, the one
    under [event] is the one that counts. *)
Theorem requested_accepts_both_formats (m : option string) (hd ct : header)
    (payload payload' : option json) (o : json) (s : hstate St C) :
  carries_order payload o →
  carries_order_at_top payload' o →
  invoiceRequestedHandler baseApl ext (mkRequest m hd ct payload) s
  = invoiceRequestedHandler baseApl ext (mkRequest m hd ct payload') s
  ∧ (∀ members o',
       payload = Some (JObject members) → Js.assoc "order" members = Some o' →
       invoiceRequestedHandler baseApl ext (mkRequest m hd ct payload) s
       = invoiceRequestedHandler baseApl ext
           (mkRequest m hd ct (Some (JObject [("event", JObject [("order", o)])]))) s).
Proof.
  intros Hp Hp'.
  destruct (carries_order_inv _ _ Hp) as (ms & es & fs & -> & Hev & Hor & -> & Hid).
  destruct Hp' as (ms' & -> & Hev' & Hor' & _).
  assert (∀ ms0,
    (Js.assoc "event" ms0 = Some (JObject es) ∨
     jtruthy (optMember (Js.assoc "event" ms0) "order") = false ∧
     Js.assoc "order" ms0 = Some (JObject fs)) →
    invoiceRequestedHandler baseApl ext (mkRequest m hd ct (Some (JObject ms0))) s
    = invoiceRequestedHandler baseApl ext
        (mkRequest m hd ct (Some (JObject [("event", JObject [("order", JObject fs)])]))) s)
    as Hsame.
  { intros ms0 Hcase. prefix_unfold. rewrite Hid.
    destruct (bool_decide (m = Some "POST")); simpl; [|done].
    destruct (normalizeHeader hd) as [u|e]; simpl; [|done].
    destruct (String.eqb u ""); simpl; [done|].
    destruct Hcase as [Hev0|[Hev0 Hor0]].
    - rewrite Hev0. simpl. rewrite Hor. simpl. by rewrite Hid.
    - rewrite Hev0. simpl. rewrite Hor0. simpl. by rewrite Hid. }
  split.
  - rewrite (Hsame ms) by (by left). rewrite (Hsame ms') by (by right). done.
  - intros members o' [= <-] _. apply Hsame. by left.
Qed.

(** X24. No exception leaves a handler: whatever the request, the store
    and the collaborators do (reject, throw, return nothing), each of the
    three handlers completes with a response, and its status is one of
    200, 400, 401, 405 and 500. *)
Theorem handlers_always_answer (req : request) (raw : rawRequest)
    (parse : string → outcome json) (s : hstate St C) :
  (∃ resp, fst (invoiceDirectHandler baseApl ext req s) = Fulfilled resp ∧
           status resp ∈ handlerStatuses) ∧
  (∃ resp, fst (invoiceRequestedHandler baseApl ext req s) = Fulfilled resp ∧
           status resp ∈ handlerStatuses) ∧
  (∃ resp, fst (invoiceRequestedNoVerify baseApl ext parse raw s) = Fulfilled resp ∧
           status resp ∈ handlerStatuses).
Proof.
  split_and!; prefix_unfold; handler_split; answer_case tail_status.
Qed.


(** X26. A handler run leaves the credential store as it found it or as
    one call of the adapter's [get], on the canonical form of the identity
    header, leaves it: the handlers look a record up at most once and
    never set or delete one. *)
Theorem store_consulted_once (req : request) (raw : rawRequest)
    (parse : string → outcome json) (s : hstate St C) :
  one_lookup baseApl (saleorApiUrlHeader req) s
    (snd (invoiceDirectHandler baseApl ext req s)) ∧
  one_lookup baseApl (saleorApiUrlHeader req) s
    (snd (invoiceRequestedHandler baseApl ext req s)) ∧
  one_lookup baseApl (raw_saleorApiUrlHeader raw) s
    (snd (invoiceRequestedNoVerify baseApl ext parse raw s)).
Proof.
  unfold one_lookup. split_and!; prefix_unfold; handler_split;
    lookup_case tail_apl normalizeHeader_inv.
Qed.



End HandlerFacts.

(** ** The handlers on concrete requests *)

Section HandlerWitnesses.
Import Webhook.

Lemma non_post_is_refused_witness :
  fst (invoiceDirectHandler (mockAPL []) (easyCollaborators None)
         (mkRequest (Some "GET") HAbsent HAbsent None) (startState []))
  = Fulfilled (mkResponse 405 [("error", RStr "Method not allowed")]).
Proof.
  refine (f_equal fst (proj1 (non_post_is_refused (mockAPL []) (easyCollaborators None)
            (mkRequest (Some "GET") HAbsent HAbsent None)
            (mkRawRequest None HAbsent None HAbsent HAbsent HAbsent (Fulfilled ""))
            (λ _, Fulfilled JNull) (startState []) _ _))); simpl; discriminate.
Defined.




Lemma requested_accepts_both_formats_witness :
  invoiceRequestedHandler (mockAPL []) (easyCollaborators (Some "Shop street 1"))
    (mkRequest (Some "POST") (HOne "http://example.com/graphql/") HAbsent
       (Some (JObject [("version", JString "3.20");
                       ("event", JObject [("type", JString "INVOICE_REQUESTED");
                                          ("order", sampleOrder)]);
                       ("order", JObject [("id", JString "another")])])))
    (startState [Fulfilled (Some sampleAuthData)])
  = invoiceRequestedHandler (mockAPL []) (easyCollaborators (Some "Shop street 1"))
      (mkRequest (Some "POST") (HOne "http://example.com/graphql/") HAbsent
         (Some (JObject [("event", JNull); ("order", sampleOrder);
                         ("invoice", JObject [("id", JString "SW52b2ljZTox")])])))
      (startState [Fulfilled (Some sampleAuthData)]).
Proof.
  refine (proj1 (requested_accepts_both_formats (mockAPL [])
           (easyCollaborators (Some "Shop street 1")) (Some "POST")
           (HOne "http://example.com/graphql/") HAbsent _ _
           sampleOrder (startState [Fulfilled (Some sampleAuthData)]) _ _)).
  - eexists _, _. split_and!; reflexivity.
  - eexists. split_and!; reflexivity.
Defined.




End HandlerWitnesses.
